(** * Warehouse simulator: lane navigation, motion models and event detection

A shallow embedding of the movement engine of the repository
([lane-navigator.ts], [warehouse-simulator.ts], [types.ts] and
[dt-dashboard/src/utils/pathValidation.ts]) together with the properties its
specification states about it.

Modelling conventions.
- A JavaScript [number] is a real number ([R]) and arithmetic is exact, so
  rounding, overflow and [NaN] inputs are out of the picture.  The one place
  where the source can divide by zero ([advanceAlongLane]) keeps the IEEE
  outcome explicit through [JS.xnum] ([Infinity], [NaN]).
- [Math.random()] reads the next value of a stream of reals, threaded through
  the code by the state monad [M]; [rng_ok] says the draws lie in [0, 1).
- A thrown [Error] is the [Err] case of [Result].
- A JS [Map] is an association list in insertion order ([map_set] keeps the
  position of a key that is already present); the entity map is the list of
  its values in that order.
- An optional string field is an [option string]; [JS.truthy] is the test
  the source applies to it ([undefined] and [''] are falsy).
- [Date.now()] is a parameter [now] of the functions that read the clock.
- Console output, event uuids and event time stamps are not modelled.
- A counter printed by a template literal is the string of its decimal
  digits ([numberToString]). *)

From Stdlib Require Import String Reals Lra Lia List Bool ZArith Arith.
From Stdlib Require Import DecimalString DecimalNat.
Import ListNotations.
Local Open Scope string_scope.
Local Open Scope R_scope.

(** ** JavaScript values *)

Module JS.

Definition lt (a b : R) : bool := if Rlt_dec a b then true else false.
Definition le (a b : R) : bool := if Rle_dec a b then true else false.
Definition gt (a b : R) : bool := lt b a.
Definition ge (a b : R) : bool := le b a.
Definition eq (a b : R) : bool := if Req_dec_T a b then true else false.

(** [Math.floor] on a finite number. *)
Definition floor (x : R) : Z := Int_part x.

(** [arr[k]] for an integral index: [undefined] outside the array. *)
Definition index {A : Type} (arr : list A) (k : Z) : option A :=
  if (k <? 0)%Z then None else nth_error arr (Z.to_nat k).

(** Truthiness of a possibly undefined string: [undefined] and the empty
    string are falsy. *)
Definition truthy (s : option string) : option string :=
  match s with
  | Some v => if String.eqb v "" then None else Some v
  | None => None
  end.

Definition is_truthy (s : option string) : bool :=
  match truthy s with Some _ => true | None => false end.

(** [Math.atan2(y, x)] (signed zeros apart). *)
Definition atan2 (y x : R) : R :=
  if Rlt_dec 0 x then atan (y / x)
  else if Rlt_dec x 0 then
    (if Rle_dec 0 y then atan (y / x) + PI else atan (y / x) - PI)
  else if Rlt_dec 0 y then PI / 2
  else if Rlt_dec y 0 then - PI / 2
  else 0.

(** The value of a quotient whose divisor may be zero, and of what the
    source computes from it. *)
Inductive xnum : Type :=
| XFin (r : R)
| XPosInf
| XNegInf
| XNaN.

Definition div (a b : R) : xnum :=
  if Req_dec_T b 0 then
    (if Rlt_dec 0 a then XPosInf else if Rlt_dec a 0 then XNegInf else XNaN)
  else XFin (a / b).

(** [p + q] for a finite [p]. *)
Definition xadd (p : R) (q : xnum) : xnum :=
  match q with
  | XFin r => XFin (p + r)
  | other => other
  end.

(** [Math.min(c, q)] for a finite [c]. *)
Definition xmin (c : R) (q : xnum) : xnum :=
  match q with
  | XFin r => XFin (Rmin c r)
  | XPosInf => XFin c
  | XNegInf => XNegInf
  | XNaN => XNaN
  end.

(** [q >= c] and [q <= c]. *)
Definition xge (q : xnum) (c : R) : bool :=
  match q with
  | XFin r => ge r c
  | XPosInf => true
  | _ => false
  end.

Definition xle (q : xnum) (c : R) : bool :=
  match q with
  | XFin r => le r c
  | XNegInf => true
  | _ => false
  end.

End JS.

(** ** Exceptions and the random source *)

Inductive Result (A : Type) : Type :=
| Ok (a : A)
| Err (msg : string).
Arguments Ok {A} a.
Arguments Err {A} msg.

(** The stream [Math.random()] draws from. *)
Definition Rng : Type := nat -> R.

Definition M (A : Type) : Type := Rng -> A * Rng.

Definition ret {A : Type} (a : A) : M A := fun g => (a, g).

Definition bind {A B : Type} (m : M A) (f : A -> M B) : M B :=
fun g => let (a, g') := m g in f a g'.

Notation "x <- m ;; k" := (bind m (fun x => k))
(at level 61, m at next level, right associativity).

Definition random : M R := fun g => (g 0%nat, fun n => g (S n)).

(** [arr[Math.floor(Math.random() * arr.length)]] *)
Definition randomElement {A : Type} (arr : list A) : M (option A) :=
r <- random ;;
ret (JS.index arr (JS.floor (r * INR (length arr)))).

(** Every draw lies in [0, 1), as [Math.random] promises. *)
Definition rng_ok (g : Rng) : Prop := forall n, 0 <= g n < 1.

(** ** Shared types ([types.ts]) *)

Record LanePoint : Type := mkPoint { px : R; py : R }.

Record Lane : Type := mkLane {
lane_id : string;
points : list LanePoint;
width : option R
}.

Inductive Units : Type := Px | Meters.

Record LaneNetwork : Type := mkNetwork {
units : Units;
lanes : list Lane
}.

Inductive EntityType : Type := forklift | pallet | worker.

Record EntityState : Type := mkEntity {
e_id : string;
e_type : EntityType;
e_x : R;
e_y : R;
speed : R;
heading : R;
targetSpeed : R;
currentLaneId : option string;
laneProgress : R;
nextLaneId : option string;
route : list string;
routeIndex : nat;
lastEventTime : R;
zoneId : option string;
targetPosition : option LanePoint
}.

Record SimulatorConfig : Type := mkConfig {
tickMs : R;
simSpeed : R;
forkliftCount : nat;
palletCount : nat;
workerCount : nat;
forkliftSpeedRange : R * R;
palletSpeedRange : R * R;
workerSpeedRange : R * R;
eventProbability : R;
congestionThreshold : R;
collisionRadius : R
}.

Inductive EventType : Type :=
| congestion | blocked | nearCollision | dwellExceeded | zoneBreach | reroute.

Inductive Payload : Type :=
| PReason (reason : string) (high : bool)
| PCollision (distance closingSpeed : R)
| PCongestion (occupancy : nat) (threshold : R).

Record DTEvent : Type := mkEvent {
ev_type : EventType;
assetIds : list string;
ev_zoneId : string;
payload : Payload
}.

(** ** Insertion-ordered maps *)

Section OrderedMap.
Context {V : Type}.

Fixpoint map_get (m : list (string * V)) (k : string) : option V :=
  match m with
  | [] => None
  | (k', v) :: rest => if String.eqb k' k then Some v else map_get rest k
  end.

Fixpoint map_set (m : list (string * V)) (k : string) (v : V)
  : list (string * V) :=
  match m with
  | [] => [(k, v)]
  | (k', v') :: rest =>
      if String.eqb k' k then (k, v) :: rest
      else (k', v') :: map_set rest k v
  end.

Definition map_has (m : list (string * V)) (k : string) : bool :=
  match map_get m k with Some _ => true | None => false end.
End OrderedMap.

(** ** [lane-navigator.ts] *)

Module LaneNavigator.

Definition ConnMap : Type := list (string * list string).

Definition distance (p1 p2 : LanePoint) : R :=
  sqrt ((px p1 - px p2) ^ 2 + (py p1 - py p2) ^ 2).

Definition connectionRadius : R := 3.

Definition includes (l : list string) (s : string) : bool :=
  existsb (String.eqb s) l.

(** [points[0]] and [points[points.length - 1]] *)
Definition firstPoint (l : Lane) : option LanePoint :=
  JS.index (points l) 0.
Definition lastPoint (l : Lane) : option LanePoint :=
  JS.index (points l) (Z.of_nat (length (points l)) - 1).

(** The inner loop of [buildLaneConnections]: the lanes whose endpoints come
    within the radius of [laneStart] or [laneEnd]. *)
Fixpoint connectionsOf (self : string) (laneStart laneEnd : LanePoint)
    (others : list Lane) : list string :=
  match others with
  | [] => []
  | otherLane :: rest =>
      let tl := connectionsOf self laneStart laneEnd rest in
      if String.eqb self (lane_id otherLane) then tl
      else
        match firstPoint otherLane, lastPoint otherLane with
        | Some otherStart, Some otherEnd =>
            if JS.lt (distance laneStart otherStart) connectionRadius
               || JS.lt (distance laneStart otherEnd) connectionRadius
               || JS.lt (distance laneEnd otherStart) connectionRadius
               || JS.lt (distance laneEnd otherEnd) connectionRadius
            then lane_id otherLane :: tl
            else tl
        | _, _ => tl
        end
  end.

(** The outer loop, over the lanes still to visit. *)
Fixpoint buildLoop (all todo : list Lane) (acc : ConnMap) : ConnMap :=
  match todo with
  | [] => acc
  | lane :: rest =>
      match firstPoint lane, lastPoint lane with
      | Some laneStart, Some laneEnd =>
          buildLoop all rest
            (map_set acc (lane_id lane)
               (connectionsOf (lane_id lane) laneStart laneEnd all))
      | _, _ => buildLoop all rest acc
      end
  end.

Definition buildLaneConnections (net : LaneNetwork) : ConnMap :=
  buildLoop (lanes net) (lanes net) [].

(** [this.laneConnections.get(id) || []] *)
Definition connectionsGet (conns : ConnMap) (id : string) : list string :=
  match map_get conns id with Some c => c | None => [] end.

Definition getAllLanes (net : LaneNetwork) : list Lane := lanes net.

Definition getLane (net : LaneNetwork) (laneId : string) : option Lane :=
  find (fun l => String.eqb (lane_id l) laneId) (lanes net).

(** The navigator's lane length: the plain sum of the segment lengths. *)
Fixpoint segmentsLength (pts : list LanePoint) : R :=
  match pts with
  | p1 :: ((p2 :: _) as rest) => distance p1 p2 + segmentsLength rest
  | _ => 0
  end.

Definition calculateLaneLength (lane : Lane) : R :=
  segmentsLength (points lane).

(** [Math.floor(progress * (n - 1))]; [None] where the source gets [NaN]
    or an infinity. *)
Definition segmentIndexAt (lane : Lane) (progress : JS.xnum) : option Z :=
  match progress with
  | JS.XFin r =>
      Some (JS.floor (r * (INR (length (points lane)) - 1)))
  | _ => None
  end.

Definition getPositionAtProgress (lane : Lane) (progress : JS.xnum)
  : Result LanePoint :=
  match firstPoint lane, lastPoint lane with
  | Some first, Some last =>
      if JS.xle progress 0 then Ok first
      else if JS.xge progress 1 then Ok last
      else
        match progress, segmentIndexAt lane progress with
        | JS.XFin r, Some segmentIndex =>
            let segmentProgress :=
              r * (INR (length (points lane)) - 1) - IZR segmentIndex in
            if (segmentIndex >=? Z.of_nat (length (points lane)) - 1)%Z
            then Ok last
            else
              match JS.index (points lane) segmentIndex,
                    JS.index (points lane) (segmentIndex + 1) with
              | Some start, Some end_ =>
                  Ok (mkPoint
                        (px start + segmentProgress * (px end_ - px start))
                        (py start + segmentProgress * (py end_ - py start)))
              | _, _ => Ok last
              end
        | _, _ => Ok last
        end
  | _, _ => Err ("Invalid lane: " ++ lane_id lane)
  end.

Definition getHeadingAtProgress (lane : Lane) (progress : JS.xnum) : R :=
  if (length (points lane) <? 2)%nat then 0
  else
    let clampedIndex : option Z :=
      match progress with
      | JS.XFin r =>
          Some (Z.min (JS.floor (r * (INR (length (points lane)) - 1)))
                      (Z.of_nat (length (points lane)) - 2))
      | JS.XPosInf => Some (Z.of_nat (length (points lane)) - 2)%Z
      | _ => None
      end in
    match clampedIndex with
    | Some k =>
        match JS.index (points lane) k, JS.index (points lane) (k + 1) with
        | Some start, Some end_ =>
            JS.atan2 (py end_ - py start) (px end_ - px start)
        | _, _ => 0
        end
    | None => 0
    end.

Record Advancement : Type := mkAdvancement {
  position : LanePoint;
  adv_heading : R;
  reachedEnd : bool
}.

(** The progress [advanceAlongLane] reads the position at, before it is
    clamped by [Math.min(1.0, _)]. *)
Definition advancedProgress (lane : Lane) (e : EntityState) (deltaTime : R)
  : JS.xnum :=
  let distanceToTravel := speed e * deltaTime in
  let laneLength := calculateLaneLength lane in
  let progressIncrement := JS.div distanceToTravel laneLength in
  JS.xadd (laneProgress e) progressIncrement.

Definition advanceAlongLane (net : LaneNetwork) (e : EntityState)
    (deltaTime : R) : Result Advancement :=
  match currentLaneId e with
  | None => Err "Lane not found: undefined"
  | Some cur =>
      match getLane net cur with
      | None => Err ("Lane not found: " ++ cur)
      | Some lane =>
          let newProgress := JS.xmin 1 (advancedProgress lane e deltaTime) in
          match getPositionAtProgress lane newProgress with
          | Err msg => Err msg
          | Ok pos =>
              Ok (mkAdvancement pos
                    (getHeadingAtProgress lane newProgress)
                    (JS.xge newProgress 1))
          end
      end
  end.

Fixpoint findReturnLane (conns : ConnMap) (currentLaneId : string)
  : option string :=
  match conns with
  | [] => None
  | (laneId, connections) :: rest =>
      if includes connections currentLaneId
         && negb (String.eqb laneId currentLaneId)
      then Some laneId
      else findReturnLane rest currentLaneId
  end.

Definition chooseNextLane (conns : ConnMap) (currentLaneId : string)
    (e : EntityState) : M (option string) :=
  let connections := connectionsGet conns currentLaneId in
  if (length connections =? 0)%nat then
    ret (findReturnLane conns currentLaneId)
  else
    let planned :=
      if (routeIndex e + 1 <? length (route e))%nat then
        match JS.truthy (nth_error (route e) (routeIndex e + 1)) with
        | Some plannedNext =>
            if includes connections plannedNext then Some plannedNext
            else None
        | None => None
        end
      else None in
    match planned with
    | Some plannedNext => ret (Some plannedNext)
    | None =>
        if (0 <? length connections)%nat then
          c <- randomElement connections ;;
          ret (JS.truthy c)
        else ret None
    end.

(** The filter of [generateRandomRoute]: drop the lane two hops back. *)
Definition notBacktrack (route : list string) (conn : string) : bool :=
  (length route <? 2)%nat
  || match nth_error route (length route - 2) with
     | Some prev => negb (String.eqb conn prev)
     | None => true
     end.

(** The loop of [generateRandomRoute], with [iters] iterations left. *)
Fixpoint routeLoop (conns : ConnMap) (iters : nat) (route : list string)
    (currentLane : string) : M (list string) :=
  match iters with
  | O => ret route
  | S iters' =>
      let connections := connectionsGet conns currentLane in
      if (length connections =? 0)%nat then ret route
      else
        let validConnections := filter (notBacktrack route) connections in
        nextLane <-
          (if (0 <? length validConnections)%nat
           then randomElement validConnections
           else randomElement connections) ;;
        match JS.truthy nextLane with
        | None => ret route
        | Some next => routeLoop conns iters' (route ++ [next]) next
        end
  end.

Definition generateRandomRoute (conns : ConnMap) (startLaneId : string)
    (len : nat) : M (list string) :=
  routeLoop conns (len - 1) [startLaneId] startLaneId.

(** The result of a nearest-point query; [near_distance = None] is the
    [Infinity] the search starts from, [near_point = None] the [undefined]
    first point of a lane without points. *)
Record NearestOnLane : Type := mkNearest {
  near_point : option LanePoint;
  near_progress : R;
  near_distance : option R
}.

(** [distance < bestDistance], where [bestDistance] may still be
    [Infinity]. *)
Definition closerThan (distance : R) (bestDistance : option R) : bool :=
  match bestDistance with
  | None => true
  | Some b => JS.lt distance b
  end.

(** The point of the segment closest to [position], with its parameter. *)
Definition segmentParameter (position segmentStart segmentEnd : LanePoint)
  : R :=
  let segmentLength := distance segmentStart segmentEnd in
  Rmax 0 (Rmin 1
    (((px position - px segmentStart) * (px segmentEnd - px segmentStart)
      + (py position - py segmentStart) * (py segmentEnd - py segmentStart))
     / (segmentLength * segmentLength))).

Definition pointAt (segmentStart segmentEnd : LanePoint) (t : R) : LanePoint :=
  mkPoint (px segmentStart + t * (px segmentEnd - px segmentStart))
          (py segmentStart + t * (py segmentEnd - py segmentStart)).

(** The loop of [nearestPointOnSpecificLane], at segment [i] of a lane with
    [count] points, over the points still ahead. *)
Fixpoint nearestLoop (position : LanePoint) (count : nat) (i : nat)
    (pts : list LanePoint) (best : NearestOnLane) : NearestOnLane :=
  match pts with
  | segmentStart :: ((segmentEnd :: _) as rest) =>
      let segmentLength := distance segmentStart segmentEnd in
      if JS.eq segmentLength 0 then
        nearestLoop position count (S i) rest best
      else
        let t := segmentParameter position segmentStart segmentEnd in
        let closestPoint := pointAt segmentStart segmentEnd t in
        let d := distance position closestPoint in
        if closerThan d (near_distance best) then
          nearestLoop position count (S i) rest
            (mkNearest (Some closestPoint)
               ((INR i + t) / (INR count - 1)) (Some d))
        else nearestLoop position count (S i) rest best
  | _ => best
  end.

Definition nearestPointOnSpecificLane (position : LanePoint) (lane : Lane)
  : NearestOnLane :=
  nearestLoop position (length (points lane)) 0 (points lane)
    (mkNearest (firstPoint lane) 0 None).

Record NearestOnNetwork : Type := mkNearestNet {
  net_laneId : string;
  net_point : option LanePoint;
  net_progress : R;
  net_distance : option R
}.

(** [result.distance < bestResult.distance], either of which may be
    [Infinity]. *)
Definition distanceBelow (a b : option R) : bool :=
  match a, b with
  | Some x, Some y => JS.lt x y
  | Some _, None => true
  | None, _ => false
  end.

Fixpoint nearestOverLanes (position : LanePoint) (todo : list Lane)
    (bestResult : option NearestOnNetwork) : option NearestOnNetwork :=
  match todo with
  | [] => bestResult
  | lane :: rest =>
      let result := nearestPointOnSpecificLane position lane in
      let better :=
        match bestResult with
        | None => true
        | Some b => distanceBelow (near_distance result) (net_distance b)
        end in
      nearestOverLanes position rest
        (if better
         then Some (mkNearestNet (lane_id lane) (near_point result)
                      (near_progress result) (near_distance result))
         else bestResult)
  end.

Definition nearestPointOnLane (net : LaneNetwork) (position : LanePoint)
  : option NearestOnNetwork :=
  nearestOverLanes position (lanes net) None.

End LaneNavigator.

(** ** [warehouse-simulator.ts] *)

Module WarehouseSimulator.

(** Field updates of the mutable entity record. *)
Definition setPosition (e : EntityState) (x y : R) : EntityState :=
  mkEntity (e_id e) (e_type e) x y (speed e) (heading e) (targetSpeed e)
    (currentLaneId e) (laneProgress e) (nextLaneId e) (route e) (routeIndex e)
    (lastEventTime e) (zoneId e) (targetPosition e).

Definition setSpeed (e : EntityState) (v : R) : EntityState :=
  mkEntity (e_id e) (e_type e) (e_x e) (e_y e) v (heading e) (targetSpeed e)
    (currentLaneId e) (laneProgress e) (nextLaneId e) (route e) (routeIndex e)
    (lastEventTime e) (zoneId e) (targetPosition e).

Definition setHeading (e : EntityState) (h : R) : EntityState :=
  mkEntity (e_id e) (e_type e) (e_x e) (e_y e) (speed e) h (targetSpeed e)
    (currentLaneId e) (laneProgress e) (nextLaneId e) (route e) (routeIndex e)
    (lastEventTime e) (zoneId e) (targetPosition e).

Definition setTargetSpeed (e : EntityState) (v : R) : EntityState :=
  mkEntity (e_id e) (e_type e) (e_x e) (e_y e) (speed e) (heading e) v
    (currentLaneId e) (laneProgress e) (nextLaneId e) (route e) (routeIndex e)
    (lastEventTime e) (zoneId e) (targetPosition e).

Definition setCurrentLaneId (e : EntityState) (l : option string)
  : EntityState :=
  mkEntity (e_id e) (e_type e) (e_x e) (e_y e) (speed e) (heading e)
    (targetSpeed e) l (laneProgress e) (nextLaneId e) (route e) (routeIndex e)
    (lastEventTime e) (zoneId e) (targetPosition e).

Definition setLaneProgress (e : EntityState) (p : R) : EntityState :=
  mkEntity (e_id e) (e_type e) (e_x e) (e_y e) (speed e) (heading e)
    (targetSpeed e) (currentLaneId e) p (nextLaneId e) (route e) (routeIndex e)
    (lastEventTime e) (zoneId e) (targetPosition e).

Definition setRoute (e : EntityState) (r : list string) : EntityState :=
  mkEntity (e_id e) (e_type e) (e_x e) (e_y e) (speed e) (heading e)
    (targetSpeed e) (currentLaneId e) (laneProgress e) (nextLaneId e) r
    (routeIndex e) (lastEventTime e) (zoneId e) (targetPosition e).

Definition setRouteIndex (e : EntityState) (i : nat) : EntityState :=
  mkEntity (e_id e) (e_type e) (e_x e) (e_y e) (speed e) (heading e)
    (targetSpeed e) (currentLaneId e) (laneProgress e) (nextLaneId e) (route e)
    i (lastEventTime e) (zoneId e) (targetPosition e).

Definition setLastEventTime (e : EntityState) (t : R) : EntityState :=
  mkEntity (e_id e) (e_type e) (e_x e) (e_y e) (speed e) (heading e)
    (targetSpeed e) (currentLaneId e) (laneProgress e) (nextLaneId e) (route e)
    (routeIndex e) t (zoneId e) (targetPosition e).

Definition setZoneId (e : EntityState) (z : option string) : EntityState :=
  mkEntity (e_id e) (e_type e) (e_x e) (e_y e) (speed e) (heading e)
    (targetSpeed e) (currentLaneId e) (laneProgress e) (nextLaneId e) (route e)
    (routeIndex e) (lastEventTime e) z (targetPosition e).

Definition setTargetPosition (e : EntityState) (t : option LanePoint)
  : EntityState :=
  mkEntity (e_id e) (e_type e) (e_x e) (e_y e) (speed e) (heading e)
    (targetSpeed e) (currentLaneId e) (laneProgress e) (nextLaneId e) (route e)
    (routeIndex e) (lastEventTime e) (zoneId e) t.

(** *** Helpers *)

Definition randomSpeed (range : R * R) : M R :=
  r <- random ;;
  ret (fst range + r * (snd range - fst range)).

Definition lerp (a b t : R) : R := a + (b - a) * t.

Definition lerpAngle (a b t : R) : R :=
  let diff := b - a in
  let diff := if JS.gt diff 180 then diff - 360 else diff in
  let diff := if JS.lt diff (-180) then diff + 360 else diff in
  a + diff * t.

Definition zoneColumn (x : R) (prefix : string) : option string :=
  if JS.ge x 6.4 && JS.lt x 14.4 then Some (prefix ++ "1")
  else if JS.ge x 14.4 && JS.lt x 22.4 then Some (prefix ++ "2")
  else if JS.ge x 22.4 && JS.lt x 30.4 then Some (prefix ++ "3")
  else if JS.ge x 30.4 && JS.lt x 38.4 then Some (prefix ++ "4")
  else if JS.ge x 38.4 && JS.lt x 46.4 then Some (prefix ++ "5")
  else if JS.ge x 46.4 then Some (prefix ++ "6")
  else None.

Definition getZoneFromPosition (x y : R) : string :=
  let banded :=
    if JS.lt y 8.8 then zoneColumn x "A"
    else if JS.ge y 13.6 && JS.lt y 20.8 then zoneColumn x "B"
    else if JS.ge y 20.8 then zoneColumn x "P"
    else None in
  match banded with
  | Some z => z
  | None => "main-aisle"
  end.

(** [value || 'unknown'] *)
Definition orUnknown (s : option string) : string :=
  match JS.truthy s with Some v => v | None => "unknown" end.

(** The simulator's lane length: the same sum, floored at 1. *)
Definition calculateLaneLength (lane : Lane) : R :=
  Rmax (LaneNavigator.segmentsLength (points lane)) 1.

(** *** Grid movement of forklifts *)

Inductive PathLine : Type :=
| horizontal (y xStart xEnd : R)
| vertical (x yStart yEnd : R).

Definition pathLines : list PathLine :=
  [ horizontal 11.2 4 44;
    vertical 4 3.2 19.2;
    vertical 12.5 3.2 19.2;
    vertical 18.9 3.2 19.2;
    vertical 25.3 3.2 19.2;
    vertical 31.7 3.2 19.2;
    vertical 38.1 3.2 19.2;
    vertical 44 3.2 19.2 ].

Definition isOnStrictPath (e : EntityState) (lines : list PathLine) : bool :=
  let tolerance := 0.1 in
  existsb (fun line =>
    match line with
    | horizontal y xStart xEnd =>
        JS.lt (Rabs (e_y e - y)) tolerance
        && JS.ge (e_x e) xStart && JS.le (e_x e) xEnd
    | vertical x yStart yEnd =>
        JS.lt (Rabs (e_x e - x)) tolerance
        && JS.ge (e_y e) yStart && JS.le (e_y e) yEnd
    end) lines.

(** [minDistance] starts at [Infinity]: [None]. *)
Fixpoint snapLoop (e : EntityState) (lines : list PathLine)
    (minDistance : option R) (snapPoint : LanePoint) : LanePoint :=
  match lines with
  | [] => snapPoint
  | line :: rest =>
      let '(point, distance) :=
        match line with
        | horizontal y xStart xEnd =>
            let clampedX := Rmax xStart (Rmin xEnd (e_x e)) in
            (mkPoint clampedX y,
             Rabs (e_y e - y) + Rabs (e_x e - clampedX))
        | vertical x yStart yEnd =>
            let clampedY := Rmax yStart (Rmin yEnd (e_y e)) in
            (mkPoint x clampedY,
             Rabs (e_x e - x) + Rabs (e_y e - clampedY))
        end in
      let closer :=
        match minDistance with
        | None => true
        | Some m => JS.lt distance m
        end in
      if closer then snapLoop e rest (Some distance) point
      else snapLoop e rest minDistance snapPoint
  end.

Definition snapToNearestPath (e : EntityState) (lines : list PathLine)
  : EntityState :=
  let snapPoint := snapLoop e lines None (mkPoint (e_x e) (e_y e)) in
  setPosition e (px snapPoint) (py snapPoint).

Definition getCurrentPathLine (e : EntityState) (lines : list PathLine)
  : option PathLine :=
  let tolerance := 0.2 in
  find (fun line =>
    match line with
    | horizontal y xStart xEnd =>
        JS.lt (Rabs (e_y e - y)) tolerance
        && JS.ge (e_x e) (xStart - tolerance)
        && JS.le (e_x e) (xEnd + tolerance)
    | vertical x yStart yEnd =>
        JS.lt (Rabs (e_x e - x)) tolerance
        && JS.ge (e_y e) (yStart - tolerance)
        && JS.le (e_y e) (yEnd + tolerance)
    end) lines.

Definition setPathLineTarget (e : EntityState) (lines : list PathLine)
  : M EntityState :=
  match getCurrentPathLine e lines with
  | None => ret e
  | Some (horizontal y xStart xEnd) =>
      r1 <- random ;;
      let direction := if JS.gt r1 0.5 then 1 else -1 in
      r2 <- random ;;
      let targetX := e_x e + direction * (5 + r2 * 10) in
      ret (setTargetPosition e
             (Some (mkPoint (Rmax xStart (Rmin xEnd targetX)) y)))
  | Some (vertical x yStart yEnd) =>
      r1 <- random ;;
      let direction := if JS.gt r1 0.5 then 1 else -1 in
      r2 <- random ;;
      let targetY := e_y e + direction * (3 + r2 * 6) in
      ret (setTargetPosition e
             (Some (mkPoint x (Rmax yStart (Rmin yEnd targetY)))))
  end.

Definition hasReachedTarget (e : EntityState) (target : LanePoint) : bool :=
  JS.lt (sqrt ((e_x e - px target) ^ 2 + (e_y e - py target) ^ 2)) 0.5.

(** [now] is the reading of [Date.now()]. *)
Definition updateForkliftGridMovement (now : R) (e : EntityState)
    (deltaTime : R) : M EntityState :=
  let distance := speed e * deltaTime in
  if negb (isOnStrictPath e pathLines) then
    setPathLineTarget (snapToNearestPath e pathLines) pathLines
  else
    e1 <- (match targetPosition e with
           | None => setPathLineTarget e pathLines
           | Some t =>
               if hasReachedTarget e t then setPathLineTarget e pathLines
               else ret e
           end) ;;
    let e2 :=
      match targetPosition e1 with
      | None => e1
      | Some t =>
          let dx := px t - e_x e1 in
          let dy := py t - e_y e1 in
          let distanceToTarget := sqrt (dx * dx + dy * dy) in
          if JS.gt distanceToTarget 0.05 then
            let moveX := dx / distanceToTarget * distance in
            let moveY := dy / distanceToTarget * distance in
            let moved := setPosition e1 (e_x e1 + moveX) (e_y e1 + moveY) in
            let targetHeading := JS.atan2 dy dx * (180 / PI) in
            let turned :=
              setHeading moved (lerpAngle (heading moved) targetHeading 0.1) in
            snapToNearestPath turned pathLines
          else e1
      end in
    let speedVariation := 0.1 * sin (now * 0.001) in
    ret (setSpeed e2 (lerp (speed e2) (targetSpeed e2 + speedVariation) 0.02)).

(** *** Lane movement *)

Section Engine.
Variable config : SimulatorConfig.
Variable net : LaneNetwork.

(** The navigator's connection cache, built once by its constructor. *)
Definition conns : LaneNavigator.ConnMap :=
  LaneNavigator.buildLaneConnections net.

Definition speedRangeOf (t : EntityType) : R * R :=
  match t with
  | forklift => forkliftSpeedRange config
  | worker => workerSpeedRange config
  | pallet => palletSpeedRange config
  end.

(** [getLane(nextLaneId)] finds a lane. *)
Definition laneExists (laneId : string) : bool :=
  match LaneNavigator.getLane net laneId with Some _ => true | None => false end.

Definition transitionToNextLane (e : EntityState) : M EntityState :=
  match JS.truthy (currentLaneId e) with
  | None => ret e
  | Some cur =>
      (* Try to follow the planned route. *)
      let '(e1, nextLaneId) :=
        if (Z.of_nat (routeIndex e) <? Z.of_nat (length (route e)) - 1)%Z then
          let e' := setRouteIndex e (routeIndex e + 1) in
          (e', JS.truthy (nth_error (route e') (routeIndex e')))
        else (e, None) in
      (* No planned lane, or not a lane of the network: ask the navigator. *)
      nextLaneId <-
        (match nextLaneId with
         | Some n =>
             if laneExists n then ret (Some n)
             else LaneNavigator.chooseNextLane conns cur e1
         | None => LaneNavigator.chooseNextLane conns cur e1
         end) ;;
      (* Still nothing: a new route from here. *)
      st <-
        (match JS.truthy nextLaneId with
         | Some n => ret (e1, n)
         | None =>
             newRoute <- LaneNavigator.generateRandomRoute conns cur 5 ;;
             let e2 := setRouteIndex (setRoute e1 newRoute) 0 in
             ret (e2,
                  match JS.truthy (nth_error newRoute 1) with
                  | Some n => n
                  | None => cur
                  end)
         end) ;;
      let '(e3, next) := st in
      let e4 := setLaneProgress (setCurrentLaneId e3 (Some next)) 0 in
      r <- random ;;
      if JS.lt r 0.3 then
        v <- randomSpeed (speedRangeOf (e_type e4)) ;;
        ret (setTargetSpeed e4 v)
      else ret e4
  end.

(** The progress [updateLaneBasedMovement] stores before it decides on a
    transition: [entity.laneProgress += distanceToTravel / laneLength]. *)
Definition storedProgress (e : EntityState) (deltaTime : R) : R :=
  match currentLaneId e with
  | Some cur =>
      match LaneNavigator.getLane net cur with
      | Some currentLane =>
          laneProgress e + speed e * deltaTime / calculateLaneLength currentLane
      | None => laneProgress e
      end
  | None => laneProgress e
  end.

(** The test that decides on the transition. *)
Definition transitionTriggered (advancement : LaneNavigator.Advancement)
    (e : EntityState) : bool :=
  LaneNavigator.reachedEnd advancement || JS.ge (laneProgress e) 1.

Definition updateLaneBasedMovement (e : EntityState) (deltaTime : R)
  : M (Result EntityState) :=
  if negb (JS.is_truthy (currentLaneId e)) then ret (Ok e)
  else
    match LaneNavigator.advanceAlongLane net e deltaTime with
    | Err msg => ret (Err msg)
    | Ok advancement =>
        let e1 :=
          setHeading
            (setPosition e (px (LaneNavigator.position advancement))
                           (py (LaneNavigator.position advancement)))
            (LaneNavigator.adv_heading advancement) in
        let e2 := setLaneProgress e1 (storedProgress e1 deltaTime) in
        e3 <- (if transitionTriggered advancement e2
               then transitionToNextLane e2
               else ret e2) ;;
        r <- random ;;
        ret (Ok (setSpeed e3
                   (lerp (speed e3) (targetSpeed e3 + (r - 0.5) * 0.2) 0.1)))
    end.

(** *** Recovery *)

Definition gridPositions : list LanePoint :=
  [ mkPoint 15.2 11.2; mkPoint 21.6 11.2; mkPoint 28.0 11.2;
    mkPoint 34.4 11.2 ].

Definition safePosition : LanePoint := mkPoint 12.5 11.2.

Definition resetEntityToValidLane (e : EntityState) : M EntityState :=
  match e_type e with
  | forklift =>
      r <- random ;;
      let randomIndex := JS.floor (r * INR (length gridPositions)) in
      let position :=
        if (0 <? length gridPositions)%nat then
          if (randomIndex >=? 0)%Z
             && (randomIndex <? Z.of_nat (length gridPositions))%Z
          then match JS.index gridPositions randomIndex with
               | Some p => p
               | None => safePosition
               end
          else safePosition
        else safePosition in
      let e1 := setPosition e (px position) (py position) in
      let e2 := setTargetPosition e1 None in
      ret (setSpeed e2 (targetSpeed e2))
  | _ =>
      let allLanes := LaneNavigator.getAllLanes net in
      randomLane <- randomElement allLanes ;;
      match randomLane with
      | Some lane =>
          match LaneNavigator.firstPoint lane with
          | Some p0 =>
              let e1 := setCurrentLaneId e (Some (lane_id lane)) in
              let e2 := setPosition e1 (px p0) (py p0) in
              let e3 := setLaneProgress e2 0 in
              newRoute <-
                LaneNavigator.generateRandomRoute conns (lane_id lane) 5 ;;
              ret (setRouteIndex (setRoute e3 newRoute) 0)
          | None => ret e
          end
      | None => ret e
      end
  end.

(** The body of the [try] block of [updateEntity]. *)
Definition updateEntityBody (now : R) (e : EntityState) (deltaTime : R)
  : M (Result EntityState) :=
  moved <-
    (match e_type e with
     | forklift =>
         e' <- updateForkliftGridMovement now e deltaTime ;;
         ret (Ok e')
     | _ => updateLaneBasedMovement e deltaTime
     end) ;;
  match moved with
  | Ok e' =>
      ret (Ok (setZoneId e'
                 (Some (orUnknown
                          (Some (getZoneFromPosition (e_x e') (e_y e')))))))
  | Err msg => ret (Err msg)
  end.

(** [updateEntity]: the only [throw] of the body comes out of
    [advanceAlongLane], before the entity has been written to, so the
    handler resets the entity as it was handed in. *)
Definition updateEntity (now : R) (e : EntityState) (deltaTime : R)
  : M EntityState :=
  outcome <- updateEntityBody now e deltaTime ;;
  match outcome with
  | Ok e' => ret e'
  | Err _ => resetEntityToValidLane e
  end.

(** *** Event detection *)

Definition eventReasons (t : EventType) : list string :=
  match t with
  | blocked => ["fallen pallet"; "maintenance work"; "temporary obstruction"]
  | dwellExceeded =>
      ["extended pick operation"; "manual intervention required";
       "system delay"]
  | zoneBreach => ["unauthorized access"; "navigation error";
                   "emergency override"]
  | congestion => ["high traffic volume"; "intersection bottleneck";
                   "multiple operations"]
  | nearCollision => ["path convergence"; "emergency stop";
                      "communication delay"]
  | reroute => ["planned maintenance"; "traffic optimization";
                "priority route"]
  end.

Definition generateEventReason (t : EventType) : M string :=
  reason <- randomElement (eventReasons t) ;;
  ret (orUnknown reason).

(** Returns the entity as well: a generated event stamps [lastEventTime].
    (A draw in [0, 1) always picks one of the three kinds; outside that range
    the source would build an event of undefined kind, which is left out.) *)
Definition generateRandomEvent (now : R) (e : EntityState)
  : M (EntityState * option DTEvent) :=
  if JS.lt (now - lastEventTime e) 30000 then ret (e, None)
  else
    picked <- randomElement [blocked; dwellExceeded; zoneBreach] ;;
    match picked with
    | None => ret (setLastEventTime e now, None)
    | Some eventType =>
        let e' := setLastEventTime e now in
        reason <- generateEventReason eventType ;;
        r <- random ;;
        ret (e', Some (mkEvent eventType [e_id e'] (orUnknown (zoneId e'))
                         (PReason reason (JS.gt r 0.7))))
    end.

(** The test on a pair of entities in the collision loop. *)
Definition pairDistance (entity1 entity2 : EntityState) : R :=
  sqrt ((e_x entity1 - e_x entity2) ^ 2 + (e_y entity1 - e_y entity2) ^ 2).

Definition nearPair (entity1 entity2 : EntityState) : bool :=
  JS.lt (pairDistance entity1 entity2) (collisionRadius config)
  && (JS.gt (speed entity1) 0.1 || JS.gt (speed entity2) 0.1).

Definition collisionEvent (entity1 entity2 : EntityState) : DTEvent :=
  let distance := pairDistance entity1 entity2 in
  mkEvent nearCollision [e_id entity1; e_id entity2]
    (match JS.truthy (zoneId entity1) with
     | Some z => z
     | None => orUnknown (zoneId entity2)
     end)
    (PCollision (IZR (JS.floor (distance * 100 + 0.5)) / 100)
                (Rabs (speed entity1 - speed entity2))).

Definition slowDown (e : EntityState) : EntityState :=
  setTargetSpeed e (targetSpeed e * 0.5).

(** In-place update of the object at one index of the entity array. *)
Fixpoint updateAt (k : nat) (f : EntityState -> EntityState)
    (arr : list EntityState) : list EntityState :=
  match arr, k with
  | [], _ => []
  | e :: rest, O => f e :: rest
  | e :: rest, S k' => e :: updateAt k' f rest
  end.

(** One iteration of the inner loop. *)
Definition collisionStep (i : nat)
    (st : list EntityState * list DTEvent) (j : nat)
  : list EntityState * list DTEvent :=
  let '(arr, events) := st in
  match nth_error arr i, nth_error arr j with
  | Some entity1, Some entity2 =>
      if nearPair entity1 entity2 then
        (updateAt j slowDown (updateAt i slowDown arr),
         (events ++ [collisionEvent entity1 entity2])%list)
      else st
  | _, _ => st
  end.

Definition collisionInner (n : nat)
    (st : list EntityState * list DTEvent) (i : nat)
  : list EntityState * list DTEvent :=
  fold_left (collisionStep i) (seq (i + 1) (n - (i + 1))) st.

Definition collisionPass (arr : list EntityState)
  : list EntityState * list DTEvent :=
  fold_left (collisionInner (length arr)) (seq 0 (length arr)) (arr, []).

(** Lane occupancy: entity ids grouped by a truthy [currentLaneId]. *)
Definition occupancyStep (m : list (string * list string)) (e : EntityState)
  : list (string * list string) :=
  match JS.truthy (currentLaneId e) with
  | Some laneId =>
      let m' := if map_has m laneId then m else map_set m laneId [] in
      match map_get m' laneId with
      | Some ids => map_set m' laneId (ids ++ [e_id e])%list
      | None => m'
      end
  | None => m
  end.

Definition laneOccupancy (arr : list EntityState)
  : list (string * list string) :=
  fold_left occupancyStep arr [].

Definition congestionEvent (laneId : string) (entityIds : list string)
  : DTEvent :=
  mkEvent congestion entityIds laneId
    (PCongestion (length entityIds) (congestionThreshold config)).

Fixpoint congestionEvents (occ : list (string * list string))
  : list DTEvent :=
  match occ with
  | [] => []
  | (laneId, entityIds) :: rest =>
      if JS.ge (INR (length entityIds)) (congestionThreshold config)
      then congestionEvent laneId entityIds :: congestionEvents rest
      else congestionEvents rest
  end.

Definition checkProximityEvents (arr : list EntityState)
  : list EntityState * list DTEvent :=
  let '(arr', events) := collisionPass arr in
  (arr', (events ++ congestionEvents (laneOccupancy arr'))%list).

(** *** The tick *)

Record PositionTick : Type := mkTick {
  tick_id : string;
  tick_type : EntityType;
  tick_x : R;
  tick_y : R;
  tick_speed : R;
  tick_heading : R;
  tick_zoneId : string;
  confidence : R;
  tick_t : R
}.

Definition deltaTimeOf : R := tickMs config / 1000 * simSpeed config.

(** The loop over [this.entities.values()] in the timer callback. *)
Fixpoint tickLoop (now : R) (todo : list EntityState)
  : M (list EntityState * list PositionTick * list DTEvent) :=
  match todo with
  | [] => ret ([], [], [])
  | entity :: rest =>
      e1 <- updateEntity now entity deltaTimeOf ;;
      r <- random ;;
      let position :=
        mkTick (e_id e1) (e_type e1) (e_x e1) (e_y e1) (speed e1) (heading e1)
          (orUnknown (zoneId e1)) (0.90 + r * 0.1) now in
      r' <- random ;;
      generated <-
        (if JS.lt r' (eventProbability config)
         then generateRandomEvent now e1
         else ret (e1, None)) ;;
      let '(e2, event) := generated in
      others <- tickLoop now rest ;;
      let '(arr, positions, events) := others in
      ret (e2 :: arr, position :: positions,
           match event with Some ev => ev :: events | None => events end)
  end.

(** One firing of the interval: the updated entities, the position batch
    handed to [onPositionUpdate], the events handed to [onEvent]. *)
Definition tick (now : R) (arr : list EntityState)
  : M (list EntityState * list PositionTick * list DTEvent) :=
  looped <- tickLoop now arr ;;
  let '(arr1, positions, events) := looped in
  let '(arr2, proximity) := checkProximityEvents arr1 in
  ret (arr2, positions, (events ++ proximity)%list).

End Engine.

(** *** The grid helpers *)

(** [isOnValidPath(x, y)]: within 0.5 of one of three horizontal or seven
    vertical lines. *)
Definition horizontalLines : list R := [6.0; 11.2; 16.4].
Definition verticalLines : list R := [4; 12.5; 18.9; 25.3; 31.7; 38.1; 44].

Definition isOnValidPath (x y : R) : bool :=
  let tolerance := 0.5 in
  existsb (fun lineY =>
             JS.lt (Rabs (y - lineY)) tolerance && JS.ge x 4 && JS.le x 44)
    horizontalLines
  || existsb (fun lineX =>
                JS.lt (Rabs (x - lineX)) tolerance
                && JS.ge y 3.2 && JS.le y 19.2)
       verticalLines.

Definition isValidPosition (pos : option LanePoint) : bool :=
  match pos with
  | None => false
  | Some p => isOnValidPath (px p) (py p)
  end.

Definition gridDistance (x y : R) (point : LanePoint) : R :=
  sqrt ((px point - x) ^ 2 + (py point - y) ^ 2).

Fixpoint nearestGridLoop (x y : R) (todo : list LanePoint)
    (nearestPoint : LanePoint) (minDistance : option R) : LanePoint :=
  match todo with
  | [] => nearestPoint
  | point :: rest =>
      let distance := gridDistance x y point in
      let closer :=
        match minDistance with
        | None => true
        | Some m => JS.lt distance m
        end in
      if closer then nearestGridLoop x y rest point (Some distance)
      else nearestGridLoop x y rest nearestPoint minDistance
  end.

Definition findNearestGridPoint (x y : R) (gridPositions : list LanePoint)
  : LanePoint :=
  let nearestPoint :=
    match gridPositions with
    | first :: _ => first
    | [] => mkPoint 4 11.2
    end in
  nearestGridLoop x y gridPositions nearestPoint None.

Definition onSomeLine (lines : list R) (v : R) : bool :=
  existsb (fun line => JS.lt (Rabs (v - line)) 0.1) lines.

Definition findConnectedPoints (point : option LanePoint)
    (gridPositions : list LanePoint) : list LanePoint :=
  match point with
  | None => []
  | Some point =>
      if onSomeLine horizontalLines (py point) then
        flat_map (fun gridPoint =>
          (if onSomeLine horizontalLines (py gridPoint)
              && JS.lt (Rabs (py gridPoint - py point)) 0.1
              && JS.lt (Rabs (px gridPoint - px point)) 7
              && negb (JS.eq (px gridPoint) (px point))
           then [gridPoint] else [])
          ++ (if JS.lt (Rabs (px gridPoint - px point)) 0.1
                 && JS.lt (Rabs (py gridPoint - py point)) 7
                 && negb (JS.eq (py gridPoint) (py point))
              then [gridPoint] else []))%list gridPositions
      else if onSomeLine verticalLines (px point) then
        flat_map (fun gridPoint =>
          (if JS.lt (Rabs (px gridPoint - px point)) 0.1
              && JS.lt (Rabs (py gridPoint - py point)) 7
              && negb (JS.eq (py gridPoint) (py point))
           then [gridPoint] else [])
          ++ (if onSomeLine horizontalLines (py gridPoint)
                 && JS.lt (Rabs (px gridPoint - px point)) 0.1
                 && negb (JS.eq (py gridPoint) (py point))
              then [gridPoint] else []))%list gridPositions
      else []
  end.

(** *** Initialization *)

Section Initialization.
Variable config : SimulatorConfig.
Variable net : LaneNetwork.

(** [this.entities.set(entity.id, entity)] on the entity map. *)
Fixpoint entitiesSet (entities : list EntityState) (e : EntityState)
  : list EntityState :=
  match entities with
  | [] => [e]
  | e' :: rest =>
      if String.eqb (e_id e') (e_id e) then e :: rest
      else e' :: entitiesSet rest e
  end.

(** The decimal digits of a counter, as a template literal prints them. *)
Definition numberToString (n : nat) : string :=
  NilEmpty.string_of_uint (Nat.to_uint n).

Definition gridStartPositions : list LanePoint :=
  [ mkPoint 12.5 11.2; mkPoint 18.9 11.2; mkPoint 25.3 11.2;
    mkPoint 31.7 11.2; mkPoint 38.1 11.2;
    mkPoint 12.5 8.6; mkPoint 25.3 13.8; mkPoint 31.7 9.4;
    mkPoint 18.9 14.2 ].

(** The state of the three creation loops: the map and [entityCounter]. *)
Definition InitState : Type := (list EntityState * nat)%type.

Definition createForklift (now : R) (st : InitState) (i : nat)
  : M InitState :=
  let '(entities, entityCounter) := st in
  let posIndex := (i mod length gridStartPositions)%nat in
  speed <- randomSpeed (forkliftSpeedRange config) ;;
  match nth_error gridStartPositions posIndex with
  | None => ret st
  | Some startingPoint =>
      let heading :=
        if JS.lt (Rabs (py startingPoint - 11.2)) 0.1 then
          (if (i mod 2 =? 0)%nat then 0 else 180)
        else
          (if (i mod 2 =? 0)%nat then 90 else 270) in
      let entity :=
        mkEntity ("forklift-" ++ numberToString entityCounter) forklift
          (px startingPoint) (py startingPoint) speed heading speed
          (Some "grid") 0 None [] 0 (now - INR i * 2000)
          (Some (orUnknown
                   (Some (getZoneFromPosition (px startingPoint)
                            (py startingPoint)))))
          None in
      ret (entitiesSet entities entity, S entityCounter)
  end.

(** The body shared by the pallet and the worker loop. *)
Definition createOnLane (now : R) (kind : EntityType) (name : string)
    (range : R * R) (startFactor : R) (routeLength : nat) (st : InitState)
  : M InitState :=
  let '(entities, entityCounter) := st in
  picked <- randomElement (LaneNavigator.getAllLanes net) ;;
  match picked with
  | None => ret st
  | Some lane =>
      let x := match LaneNavigator.firstPoint lane with
               | Some p => px p | None => 0 end in
      let y := match LaneNavigator.firstPoint lane with
               | Some p => py p | None => 0 end in
      speed <- randomSpeed range ;;
      targetSpeed <- randomSpeed range ;;
      r <- random ;;
      route <-
        LaneNavigator.generateRandomRoute (conns net) (lane_id lane)
          routeLength ;;
      let entity :=
        mkEntity (name ++ numberToString entityCounter) kind x y speed 0
          targetSpeed (Some (lane_id lane)) (r * startFactor) None route 0
          now (Some (orUnknown (Some (getZoneFromPosition x y)))) None in
      ret (entitiesSet entities entity, S entityCounter)
  end.

Fixpoint forEachIndex (body : InitState -> nat -> M InitState)
    (indices : list nat) (st : InitState) : M InitState :=
  match indices with
  | [] => ret st
  | i :: rest => st' <- body st i ;; forEachIndex body rest st'
  end.

Definition initializeEntities (now : R) : M (list EntityState) :=
  st1 <- forEachIndex (createForklift now) (seq 0 (forkliftCount config))
           ([], 1%nat) ;;
  st2 <- forEachIndex
           (fun st _ =>
              createOnLane now pallet "pallet-" (palletSpeedRange config)
                0.5 3 st)
           (seq 0 (palletCount config)) st1 ;;
  st3 <- forEachIndex
           (fun st _ =>
              createOnLane now worker "worker-" (workerSpeedRange config)
                0.3 4 st)
           (seq 0 (workerCount config)) st2 ;;
  ret (fst st3).

End Initialization.

(** *** Start and stop *)

(** The simulator object next to the timers of the event loop it runs in:
    [timers] holds the handles of the intervals that are armed.  A handle is
    a [Timeout] object, so [if (this.intervalId)] is the test for [Some]. *)
Record Sim : Type := mkSim {
  running : bool;
  intervalId : option nat;
  timers : list nat;
  nextTimer : nat
}.

Definition newSim : Sim := mkSim false None [] 0.

Definition setInterval (s : Sim) : nat * Sim :=
  (nextTimer s,
   mkSim (running s) (intervalId s) (timers s ++ [nextTimer s])%list
     (S (nextTimer s))).

Definition clearInterval (s : Sim) (h : nat) : Sim :=
  mkSim (running s) (intervalId s)
    (filter (fun t => negb (Nat.eqb t h)) (timers s)) (nextTimer s).

Definition start (s : Sim) : Sim :=
  if running s then s
  else
    let s1 := mkSim true (intervalId s) (timers s) (nextTimer s) in
    let '(h, s2) := setInterval s1 in
    mkSim (running s2) (Some h) (timers s2) (nextTimer s2).

Definition stop (s : Sim) : Sim :=
  if negb (running s) then s
  else
    let s1 := mkSim false (intervalId s) (timers s) (nextTimer s) in
    match intervalId s1 with
    | Some h =>
        let s2 := clearInterval s1 h in
        mkSim (running s2) None (timers s2) (nextTimer s2)
    | None => s1
    end.

(** Every armed interval fires its callback once per period, and each firing
    hands one position batch to [onPositionUpdate]. *)
Definition batchesPerInterval (s : Sim) : nat := length (timers s).

Inductive Call : Type := CallStart | CallStop.

Definition call (s : Sim) (c : Call) : Sim :=
  match c with
  | CallStart => start s
  | CallStop => stop s
  end.

Definition run (calls : list Call) : Sim := fold_left call calls newSim.

End WarehouseSimulator.

(** ** [dt-dashboard/src/utils/pathValidation.ts] *)

Module PathValidation.

Inductive SegmentType : Type := main_aisle | rack_connector | loading_zone.

Record PathSegment : Type := mkSegment {
  seg_id : string;
  seg_start : LanePoint;
  seg_end : LanePoint;
  seg_type : SegmentType
}.

Definition WAREHOUSE_PATHS : list PathSegment :=
  [ mkSegment "top-horizontal-line" (mkPoint 2 7.8) (mkPoint 46 7.8)
      main_aisle;
    mkSegment "middle-horizontal-line" (mkPoint 2 11.2) (mkPoint 46 11.2)
      main_aisle;
    mkSegment "bottom-horizontal-line" (mkPoint 2 14.6) (mkPoint 46 14.6)
      main_aisle;
    mkSegment "vertical-line-1" (mkPoint 9.5 2.5) (mkPoint 9.5 19.5)
      rack_connector;
    mkSegment "vertical-line-2" (mkPoint 16.5 2.5) (mkPoint 16.5 19.5)
      rack_connector;
    mkSegment "vertical-line-3" (mkPoint 23.5 2.5) (mkPoint 23.5 19.5)
      rack_connector;
    mkSegment "vertical-line-4" (mkPoint 30.5 2.5) (mkPoint 30.5 19.5)
      rack_connector;
    mkSegment "vertical-line-5" (mkPoint 37.5 2.5) (mkPoint 37.5 19.5)
      rack_connector;
    mkSegment "left-boundary" (mkPoint 2 2.5) (mkPoint 2 19.5) main_aisle;
    mkSegment "right-boundary" (mkPoint 44.5 2.5) (mkPoint 44.5 19.5)
      main_aisle ].

Definition distanceToLineSegment (point lineStart lineEnd : LanePoint) : R :=
  let A := px point - px lineStart in
  let B := py point - py lineStart in
  let C := px lineEnd - px lineStart in
  let D := py lineEnd - py lineStart in
  let dot := A * C + B * D in
  let lenSq := C * C + D * D in
  if JS.eq lenSq 0 then sqrt (A * A + B * B)
  else
    let param := dot / lenSq in
    if JS.lt param 0 then sqrt (A * A + B * B)
    else if JS.gt param 1 then
      let dx := px point - px lineEnd in
      let dy := py point - py lineEnd in
      sqrt (dx * dx + dy * dy)
    else
      let projX := px lineStart + param * C in
      let projY := py lineStart + param * D in
      let dx := px point - projX in
      let dy := py point - projY in
      sqrt (dx * dx + dy * dy).

(** The clamped projection of [point] on a segment, and its distance to
    [point], as the loop body of [snapToNearestPath] computes them. *)
Definition projection (point : LanePoint) (segment : PathSegment)
  : LanePoint :=
  let A := px point - px (seg_start segment) in
  let B := py point - py (seg_start segment) in
  let C := px (seg_end segment) - px (seg_start segment) in
  let D := py (seg_end segment) - py (seg_start segment) in
  let dot := A * C + B * D in
  let lenSq := C * C + D * D in
  let param := Rmax 0 (Rmin 1 (dot / lenSq)) in
  mkPoint (px (seg_start segment) + param * C)
          (py (seg_start segment) + param * D).

Definition projectionDistance (point : LanePoint) (segment : PathSegment)
  : R :=
  let proj := projection point segment in
  sqrt ((px point - px proj) ^ 2 + (py point - py proj) ^ 2).

Definition zeroLength (segment : PathSegment) : bool :=
  let C := px (seg_end segment) - px (seg_start segment) in
  let D := py (seg_end segment) - py (seg_start segment) in
  JS.eq (C * C + D * D) 0.

Fixpoint snapLoop (paths : list PathSegment) (point : LanePoint)
    (closestPoint : LanePoint) (minDistance : R) : LanePoint :=
  match paths with
  | [] => closestPoint
  | segment :: rest =>
      if zeroLength segment then snapLoop rest point closestPoint minDistance
      else
        let distance := projectionDistance point segment in
        if JS.lt distance minDistance
        then snapLoop rest point (projection point segment) distance
        else snapLoop rest point closestPoint minDistance
  end.

Definition snapToNearestPathIn (paths : list PathSegment)
    (point : LanePoint) (maxDistance : R) : LanePoint :=
  snapLoop paths point point maxDistance.

Definition isOnValidPathIn (paths : list PathSegment) (point : LanePoint)
    (tolerance : R) : bool :=
  existsb (fun segment =>
             JS.le (distanceToLineSegment point (seg_start segment)
                      (seg_end segment)) tolerance) paths.

Definition snapToNearestPath (point : LanePoint) (maxDistance : R)
  : LanePoint :=
  snapToNearestPathIn WAREHOUSE_PATHS point maxDistance.

Definition isOnValidPath (point : LanePoint) (tolerance : R) : bool :=
  isOnValidPathIn WAREHOUSE_PATHS point tolerance.

(** [getLineIntersection]: the crossing point of two segments, or null. *)
Definition getLineIntersection (seg1 seg2 : PathSegment)
  : option LanePoint :=
  let x1 := px (seg_start seg1) in let y1 := py (seg_start seg1) in
  let x2 := px (seg_end seg1) in let y2 := py (seg_end seg1) in
  let x3 := px (seg_start seg2) in let y3 := py (seg_start seg2) in
  let x4 := px (seg_end seg2) in let y4 := py (seg_end seg2) in
  let denom := (x1 - x2) * (y3 - y4) - (y1 - y2) * (x3 - x4) in
  if JS.lt (Rabs denom) (1 / 10 ^ 10) then None
  else
    let t := ((x1 - x3) * (y3 - y4) - (y1 - y3) * (x3 - x4)) / denom in
    let u := - ((x1 - x2) * (y1 - y3) - (y1 - y2) * (x1 - x3)) / denom in
    if JS.ge t 0 && JS.le t 1 && JS.ge u 0 && JS.le u 1
    then Some (mkPoint (x1 + t * (x2 - x1)) (y1 + t * (y2 - y1)))
    else None.

(** [intersections.some(p => ...)]: a node within the tolerance of [q] on
    both axes. *)
Definition nodeNear (intersections : list LanePoint) (q : LanePoint) : bool :=
  existsb (fun p => JS.lt (Rabs (px p - px q)) 0.1
                    && JS.lt (Rabs (py p - py q)) 0.1) intersections.

Definition pushNew (intersections : list LanePoint) (q : LanePoint)
  : list LanePoint :=
  if nodeNear intersections q then intersections
  else (intersections ++ [q])%list.

(** The inner loop of the first pass: [seg1] against the segments after it. *)
Definition crossingsWith (seg1 : PathSegment) (later : list PathSegment)
    (intersections : list LanePoint) : list LanePoint :=
  fold_left (fun acc seg2 =>
               match getLineIntersection seg1 seg2 with
               | Some intersection => pushNew acc intersection
               | None => acc
               end) later intersections.

Fixpoint crossings (paths : list PathSegment) (intersections : list LanePoint)
  : list LanePoint :=
  match paths with
  | [] => intersections
  | seg1 :: later => crossings later (crossingsWith seg1 later intersections)
  end.

Definition addEndpoints (paths : list PathSegment)
    (intersections : list LanePoint) : list LanePoint :=
  fold_left (fun acc segment =>
               pushNew (pushNew acc (seg_start segment)) (seg_end segment))
    paths intersections.

Definition getPathIntersectionsIn (paths : list PathSegment)
  : list LanePoint :=
  addEndpoints paths (crossings paths []).

Definition getPathIntersections : list LanePoint :=
  getPathIntersectionsIn WAREHOUSE_PATHS.

Definition hasDirectPath (from to : LanePoint) : bool :=
  let midPoint := mkPoint ((px from + px to) / 2) ((py from + py to) / 2) in
  isOnValidPath midPoint 0.5.

Definition getValidNextPositions (currentPoint : LanePoint) (maxDistance : R)
  : list LanePoint :=
  filter (fun intersection =>
            let distance :=
              sqrt ((px intersection - px currentPoint) ^ 2
                    + (py intersection - py currentPoint) ^ 2) in
            JS.le distance maxDistance && JS.gt distance 0.1
            && hasDirectPath currentPoint intersection)
    getPathIntersections.

End PathValidation.

(** * Vocabulary of the properties *)

Local Open Scope list_scope.

Module LN := LaneNavigator.
Module WS := WarehouseSimulator.
Module PV := PathValidation.

(** ** Routes *)

Section RouteVocabulary.
Variable conns : LN.ConnMap.

(** Consecutive lanes of a route are connected. *)
Definition linked (r : list string) : Prop :=
  forall k a b,
    nth_error r k = Some a -> nth_error r (S k) = Some b ->
    In b (LN.connectionsGet conns a).

(** A route returns to the lane it just came from only when the lane in
    between has no other connection. *)
Definition backtracksOnlyWhenForced (r : list string) : Prop :=
  forall k a b c,
    nth_error r k = Some a -> nth_error r (S k) = Some b ->
    nth_error r (S (S k)) = Some c -> c = a ->
    forall x, In x (LN.connectionsGet conns b) -> x = a.

(** A lane without connections can only be the last lane of a route. *)
Definition stopsAtDeadEnd (r : list string) : Prop :=
  forall k a,
    nth_error r k = Some a -> LN.connectionsGet conns a = [] ->
    S k = length r.

(** What one iteration of the loop knows about the lane it appends. *)
Definition hop (route : list string) (cur next : string) : Prop :=
  LN.connectionsGet conns cur <> [] /\
  In next (LN.connectionsGet conns cur) /\
  (In next (filter (LN.notBacktrack route) (LN.connectionsGet conns cur)) \/
   filter (LN.notBacktrack route) (LN.connectionsGet conns cur) = []).

End RouteVocabulary.

(** ** Lanes that touch *)

(** Two lanes have endpoints within the connection radius of each other. *)
Definition touching (a b : Lane) : Prop :=
  exists sa ea sb eb,
    LN.firstPoint a = Some sa /\ LN.lastPoint a = Some ea
    /\ LN.firstPoint b = Some sb /\ LN.lastPoint b = Some eb
    /\ (LN.distance sa sb < LN.connectionRadius
        \/ LN.distance sa eb < LN.connectionRadius
        \/ LN.distance ea sb < LN.connectionRadius
        \/ LN.distance ea eb < LN.connectionRadius).

Definition laneIds (net : LaneNetwork) : list string :=
  map lane_id (lanes net).

(** ** Points of a lane *)

(** [q] lies on one of the segments of the polyline [pts]. *)
Definition onPolyline (pts : list LanePoint) (q : LanePoint) : Prop :=
  exists k a b t,
    nth_error pts k = Some a /\ nth_error pts (S k) = Some b
    /\ 0 <= t <= 1 /\ q = LN.pointAt a b t.

(** The answer of a nearest-point search that stopped on segment [k], at
    fraction [t] of it. *)
Definition foundOnSegment (position : LanePoint) (pts : list LanePoint)
    (res : LN.NearestOnLane) : Prop :=
  exists k a b t,
    nth_error pts k = Some a /\ nth_error pts (S k) = Some b
    /\ LN.distance a b <> 0 /\ 0 <= t <= 1
    /\ LN.near_point res = Some (LN.pointAt a b t)
    /\ LN.near_progress res = (INR k + t) / (INR (length pts) - 1)
    /\ LN.near_distance res
       = Some (LN.distance position (LN.pointAt a b t)).

(** [res] is the answer of the search on one of [candidates], and none of
    them has a strictly smaller distance. *)
Definition answerFor (position : LanePoint) (candidates : list Lane)
    (res : option LN.NearestOnNetwork) : Prop :=
  exists best,
    res = Some best
    /\ (exists chosen,
          In chosen candidates
          /\ LN.net_laneId best = lane_id chosen
          /\ LN.net_point best
             = LN.near_point (LN.nearestPointOnSpecificLane position chosen)
          /\ LN.net_progress best
             = LN.near_progress (LN.nearestPointOnSpecificLane position chosen)
          /\ LN.net_distance best
             = LN.near_distance
                 (LN.nearestPointOnSpecificLane position chosen))
    /\ forall lane,
         In lane candidates ->
         LN.distanceBelow
           (LN.near_distance (LN.nearestPointOnSpecificLane position lane))
           (LN.net_distance best) = false.

(** ** The path lines of the forklifts *)

(** A line runs from its start to its end. *)
Definition lineOrdered (line : WS.PathLine) : Prop :=
  match line with
  | WS.horizontal _ xStart xEnd => xStart <= xEnd
  | WS.vertical _ yStart yEnd => yStart <= yEnd
  end.

(** The point lies on the line, between its ends. *)
Definition onLine (p : LanePoint) (line : WS.PathLine) : Prop :=
  match line with
  | WS.horizontal y xStart xEnd => py p = y /\ xStart <= px p <= xEnd
  | WS.vertical x yStart yEnd => px p = x /\ yStart <= py p <= yEnd
  end.

Definition onSomeLineOf (lines : list WS.PathLine) (p : LanePoint) : Prop :=
  exists line, In line lines /\ onLine p line.

(** ** Computations that only consume draws *)

(** Running [m] leaves the stream of draws a suffix of the one it started
    from. *)
Definition shifts {A : Type} (m : M A) : Prop :=
  forall g, exists k, forall n, snd (m g) n = g (k + n)%nat.

(** ** Entities on lanes *)

(** The entity is on a lane of the network. *)
Definition onNetworkLane (net : LaneNetwork) (e : EntityState) : Prop :=
  exists l, currentLaneId e = Some l /\ In l (laneIds net).

(** The route cursor points into the route. *)
Definition routeCursorValid (e : EntityState) : Prop :=
  (routeIndex e < length (route e))%nat.

Definition inRange (range : R * R) (v : R) : Prop :=
  fst range <= v <= snd range.

(** ** The initial population *)

Definition idPrefix (t : EntityType) : string :=
  match t with
  | forklift => "forklift-"
  | pallet => "pallet-"
  | worker => "worker-"
  end.

(** The bound of the initial lane progress of each kind of entity. *)
Definition startFactorOf (t : EntityType) : R :=
  match t with
  | forklift => 0
  | pallet => 0.5
  | worker => 0.3
  end.

(** The state in which [initializeEntities] creates an entity. *)
Definition freshlyCreated (net : LaneNetwork) (e : EntityState) : Prop :=
  match e_type e with
  | forklift =>
      currentLaneId e = Some "grid"
      /\ WS.isOnStrictPath e WS.pathLines = true
      /\ targetSpeed e = speed e
      /\ targetPosition e = None
  | _ =>
      onNetworkLane net e
      /\ routeIndex e = 0%nat
      /\ hd_error (route e) = currentLaneId e
      /\ 0 <= laneProgress e < startFactorOf (e_type e)
  end.

(** The entity at position [k] of the map carries the number [k + 1]. *)
Definition numbered (ents : list EntityState) : Prop :=
  forall k e,
    nth_error ents k = Some e ->
    e_id e = String.append (idPrefix (e_type e)) (WS.numberToString (S k)).

Definition populated (net : LaneNetwork) (types : list EntityType)
    (st : WS.InitState) : Prop :=
  snd st = S (length (fst st))
  /\ map e_type (fst st) = types
  /\ numbered (fst st)
  /\ Forall (freshlyCreated net) (fst st).

(** ** Segments that cross *)

(** The cross product of the directions of two segments: zero when they are
    parallel. *)
Definition directionCross (seg1 seg2 : PV.PathSegment) : R :=
  (px (PV.seg_start seg1) - px (PV.seg_end seg1))
  * (py (PV.seg_start seg2) - py (PV.seg_end seg2))
  - (py (PV.seg_start seg1) - py (PV.seg_end seg1))
    * (px (PV.seg_start seg2) - px (PV.seg_end seg2)).

(** Two points within the tolerance of the node list on both axes. *)
Definition nearNode (p q : LanePoint) : Prop :=
  Rabs (px p - px q) < 0.1 /\ Rabs (py p - py q) < 0.1.

(** No two nodes of the list are within the tolerance of each other. *)
Definition separated (nodes : list LanePoint) : Prop :=
  forall i j p q,
    (i < j)%nat -> nth_error nodes i = Some p -> nth_error nodes j = Some q ->
    ~ nearNode p q.

(** Some node of the list is within the tolerance of [q]. *)
Definition covered (nodes : list LanePoint) (q : LanePoint) : Prop :=
  exists p, In p nodes /\ nearNode p q.

(** Where a node of the path network comes from: an endpoint of a segment
    or the crossing of two segments. *)
Definition nodeOrigin (paths : list PV.PathSegment) (node : LanePoint)
  : Prop :=
  (exists segment,
      In segment paths
      /\ (node = PV.seg_start segment \/ node = PV.seg_end segment))
  \/ (exists seg1 seg2,
        In seg1 paths /\ In seg2 paths
        /\ PV.getLineIntersection seg1 seg2 = Some node).

(** ** Simulator states *)

(** The states the simulator goes through: at most the one interval it
    remembers is armed. *)
Definition consistent (s : WS.Sim) : Prop :=
  if WS.running s
  then exists h, WS.intervalId s = Some h /\ WS.timers s = [h]
  else WS.intervalId s = None /\ WS.timers s = [].

(** ** The collision loops *)

Section CollisionVocabulary.
Variable config : SimulatorConfig.

(** The index pairs in the order the two loops visit them. *)
Definition pairsOf (n : nat) : list (nat * nat) :=
  flat_map (fun i => map (fun j => (i, j)) (seq (i + 1) (n - (i + 1))))
    (seq 0 n).

Definition stepPair (st : list EntityState * list DTEvent) (p : nat * nat)
  : list EntityState * list DTEvent :=
  WS.collisionStep config (fst p) st (snd p).

(** The test of the loop, read on the array as it was handed in. *)
Definition nearAt (arr : list EntityState) (p : nat * nat) : bool :=
  match nth_error arr (fst p), nth_error arr (snd p) with
  | Some entity1, Some entity2 => WS.nearPair config entity1 entity2
  | _, _ => false
  end.

Definition eventAt (arr : list EntityState) (p : nat * nat) : list DTEvent :=
  match nth_error arr (fst p), nth_error arr (snd p) with
  | Some entity1, Some entity2 => [WS.collisionEvent entity1 entity2]
  | _, _ => []
  end.

Definition touches (k : nat) (p : nat * nat) : bool :=
  (fst p =? k)%nat || (snd p =? k)%nat.

(** The number of near pairs among [ps] that entity [k] belongs to. *)
Definition hits (arr : list EntityState) (ps : list (nat * nat)) (k : nat)
  : nat :=
  length (filter (fun p => nearAt arr p && touches k p) ps).

End CollisionVocabulary.

(** ** Events of a pair *)

(** A near-collision event that names both ids. *)
Definition refersToBoth (id1 id2 : string) (ev : DTEvent) : bool :=
  match ev_type ev with
  | nearCollision =>
      LN.includes (assetIds ev) id1 && LN.includes (assetIds ev) id2
  | _ => false
  end.

Definition pair_eqb (p q : nat * nat) : bool :=
  (fst p =? fst q)%nat && (snd p =? snd q)%nat.

(** ** Lanes and their occupants *)

(** The entities on a lane, and the congestion events raised for it. *)
Definition onLane (laneId : string) (e : EntityState) : bool :=
  match currentLaneId e with
  | Some l => String.eqb l laneId
  | None => false
  end.

Definition occupants (laneId : string) (arr : list EntityState)
  : list string :=
  map e_id (filter (onLane laneId) arr).

Definition congestionFor (laneId : string) (events : list DTEvent)
  : list DTEvent :=
  filter (fun ev =>
            match ev_type ev with
            | congestion => String.eqb (ev_zoneId ev) laneId
            | _ => false
            end) events.

Definition idsOf (m : list (string * list string)) (laneId : string)
  : list string :=
  match map_get m laneId with Some ids => ids | None => [] end.

(** The sentence of the specification read literally: an event for the lane
    exists if and only if the lane's occupancy meets the threshold. *)
Definition congestionEmitted (config : SimulatorConfig)
    (arr : list EntityState) (laneId : string) : Prop :=
  exists ev,
    In ev (snd (WS.checkProximityEvents config arr))
    /\ ev_type ev = congestion /\ ev_zoneId ev = laneId.

Definition meetsThreshold (config : SimulatorConfig)
    (arr : list EntityState) (laneId : string) : Prop :=
  congestionThreshold config <= INR (length (occupants laneId arr)).

(** ** Lane transitions *)

(** The sentence of the specification read literally: the transition test
    passes exactly when the progress the entity has been advanced to is at
    least 1. *)
Definition transitionExactlyAtOne (net : LaneNetwork) (e : EntityState)
    (deltaTime : R) : Prop :=
  forall adv,
    LN.advanceAlongLane net e deltaTime = Ok adv ->
    (WS.transitionTriggered adv
       (WS.setLaneProgress e (WS.storedProgress net e deltaTime)) = true
     <-> 1 <= WS.storedProgress net e deltaTime).

(** The entity as [updateLaneBasedMovement] has written it when it decides
    on the transition: at the advanced position and heading, with the
    progress it stores. *)
Definition advancedEntity (net : LaneNetwork) (e : EntityState)
    (deltaTime : R) (adv : LN.Advancement) : EntityState :=
  WS.setLaneProgress
    (WS.setHeading
       (WS.setPosition e (px (LN.position adv)) (py (LN.position adv)))
       (LN.adv_heading adv))
    (WS.storedProgress net e deltaTime).

(** The planned route goes on after the cursor. *)
Definition routeGoesOn (e : EntityState) : bool :=
  (Z.of_nat (routeIndex e) <? Z.of_nat (length (route e)) - 1)%Z.

(** The lane the planned route names next. *)
Definition plannedLane (e : EntityState) : option string :=
  if routeGoesOn e then JS.truthy (nth_error (route e) (routeIndex e + 1))
  else None.

(** The entity with its route cursor moved on, when the route goes on. *)
Definition stepped (e : EntityState) : EntityState :=
  if routeGoesOn e then WS.setRouteIndex e (routeIndex e + 1) else e.

(** Where the lane that a transition moves to comes from: it is the next
    lane of the planned route when the network has that lane; else the lane
    the navigator chooses; else, when the navigator chooses none, the second
    lane of a newly generated route from the current lane, or the current
    lane again when that route has no second lane. *)
Definition chosenNext (net : LaneNetwork) (e : EntityState) (g : Rng)
    (cur next : string) : Prop :=
  (plannedLane e = Some next /\ exists lane, LN.getLane net next = Some lane)
  \/ ((forall n, plannedLane e = Some n -> LN.getLane net n = None)
      /\ let asked := LN.chooseNextLane (WS.conns net) cur (stepped e) g in
         JS.truthy (fst asked) = Some next
         \/ (JS.truthy (fst asked) = None
             /\ next
                = match
                    JS.truthy
                      (nth_error
                         (fst (LN.generateRandomRoute (WS.conns net) cur 5
                                 (snd asked))) 1)
                  with
                  | Some n => n
                  | None => cur
                  end)).

(** ** Position reports *)

Section RecoveryVocabulary.
Variable config : SimulatorConfig.
Variable net : LaneNetwork.

(** A position record that reports what [updateEntity] made of an entity. *)
Definition reports (now : R) (e : EntityState) (p : WS.PositionTick) : Prop :=
  exists g0,
    let e1 := fst (WS.updateEntity config net now e (WS.deltaTimeOf config) g0)
    in WS.tick_id p = e_id e /\ WS.tick_type p = e_type e1
       /\ WS.tick_x p = e_x e1 /\ WS.tick_y p = e_y e1
       /\ WS.tick_speed p = speed e1 /\ WS.tick_heading p = heading e1.

(** The state the specification promises to a lane-mode entity after a
    reset: at the first point of a lane of the network, with progress 0 and
    a route that starts at that lane. *)
Definition atLaneStart (e' : EntityState) : Prop :=
  exists lane p0,
    In lane (lanes net) /\ LN.firstPoint lane = Some p0
    /\ currentLaneId e' = Some (lane_id lane)
    /\ e_x e' = px p0 /\ e_y e' = py p0
    /\ laneProgress e' = 0 /\ routeIndex e' = 0%nat
    /\ hd_error (route e') = Some (lane_id lane).

(** The sentence of the specification read literally: whatever exception the
    update of a lane-mode entity raises, [updateEntity] leaves the entity at
    the start of a lane. *)
Definition errorsResetToLaneStart (now : R) : Prop :=
  forall e deltaTime g msg g',
    rng_ok g ->
    WS.updateEntityBody config net now e deltaTime g = (Err msg, g') ->
    atLaneStart (fst (WS.updateEntity config net now e deltaTime g)).

End RecoveryVocabulary.

(** ** Concrete networks, configurations and entities *)

(** A network in which the id ["A"] is declared twice: the first lane ["A"]
    touches ["B"], the second one lies far away and is the one the map keeps
    for ["A"]. *)
Definition returnNet : LaneNetwork :=
  mkNetwork Meters
    [ mkLane "A" [mkPoint 0 0; mkPoint 1 0] None;
      mkLane "B" [mkPoint 2 0; mkPoint 3 0] None;
      mkLane "A" [mkPoint 100 0; mkPoint 101 0] None ].

Definition idleEntity (id : string) (lane : option string) : EntityState :=
  mkEntity id pallet 0 0 0 0 0 lane 0 None [] 0 0 None None.

(** The scenario of the specification: two entities one unit apart, a
    collision radius of 1.5, one of them moving at 0.5. *)
Definition scenarioConfig : SimulatorConfig :=
  mkConfig 100 1 0 2 0 (0.8, 2.2) (0.5, 1.8) (0.3, 1.5) 0.001 3 1.5.

Definition pallet1 : EntityState :=
  mkEntity "pallet-1" pallet 0 0 0.5 0 1 (Some "L1") 0 None [] 0 0 None None.

Definition pallet2 : EntityState :=
  mkEntity "pallet-2" pallet 1 0 0 0 2 (Some "L2") 0 None [] 0 0 None None.

Definition scenarioEntities : list EntityState := [pallet1; pallet2].

Definition zeroThresholdConfig : SimulatorConfig :=
  mkConfig 100 1 0 0 0 (0.8, 2.2) (0.5, 1.8) (0.3, 1.5) 0.001 0 1.5.

(** An entity whose lane id is the empty string. *)
Definition unnamedLaneEntity : EntityState :=
  mkEntity "pallet-1" pallet 0 0 0 0 0 (Some "") 0 None [] 0 0 None None.

Definition oneThresholdConfig : SimulatorConfig :=
  mkConfig 100 1 0 1 0 (0.8, 2.2) (0.5, 1.8) (0.3, 1.5) 0.001 1 1.5.

(** Two lanes that meet end to end and a third one far from both. *)
Definition chainNet : LaneNetwork :=
  mkNetwork Meters
    [ mkLane "A" [mkPoint 0 0; mkPoint 10 0] None;
      mkLane "B" [mkPoint 10 0; mkPoint 20 0] None;
      mkLane "C" [mkPoint 50 50; mkPoint 60 50] None ].

(** An entity on lane ["A"] whose route plans lane ["C"] next. *)
Definition plannedWalker : EntityState :=
  mkEntity "worker-1" worker 0 0 1 0 1 (Some "A") 1 None ["A"; "C"] 0 0 None
    None.

(** A lane all of whose points coincide, and an entity walking on it. *)
Definition pointLane : Lane :=
  mkLane "L0" [mkPoint 5 5; mkPoint 5 5] None.

Definition pointWalker : EntityState :=
  mkEntity "worker-1" worker 5 5 1 0 1 (Some "L0") 0 None ["L0"] 0 0 None
    None.

Definition pointNet : LaneNetwork := mkNetwork Meters [pointLane].

(** A lane half a unit long, and an entity at 85% of it. *)
Definition shortLane : Lane :=
  mkLane "S" [mkPoint 0 0; mkPoint 0.5 0] None.

Definition shortNet : LaneNetwork := mkNetwork Meters [shortLane].

Definition shortWalker : EntityState :=
  mkEntity "worker-1" worker 0 0 1 0 1 (Some "S") 0.85 None ["S"] 0 0 None
    None.

(** An entity on a lane the network does not have. *)
Definition strayWalker : EntityState :=
  mkEntity "worker-9" worker 0 0 1 0 1 (Some "Z") 0.5 None ["Z"] 0 0 None None.

(** A lane without points in front of the short lane, and an entity on it. *)
Definition hollowLane : Lane := mkLane "H" [] None.

Definition hollowNet : LaneNetwork := mkNetwork Meters [hollowLane; shortLane].

Definition hollowWalker : EntityState :=
  mkEntity "worker-7" worker 1 1 1 0 1 (Some "H") 0.5 None ["H"] 0 0 None None.

(** A network without lanes. *)
Definition emptyNet : LaneNetwork := mkNetwork Meters [].

(** An entity at rest on the short lane whose target speed three halvings
    have brought down to 0.0375. *)
Definition slowedWalker : EntityState :=
  mkEntity "worker-2" worker 0 0 0 0 0.0375 (Some "S") 0 None ["S"] 0 0 None
    None.

(** * Properties *)

(** ** Comparisons and array reads *)

Lemma lt_true (a b : R) : JS.lt a b = true <-> a < b.
Proof. unfold JS.lt; destruct (Rlt_dec a b); split; intros; try easy. Qed.

Lemma lt_false (a b : R) : JS.lt a b = false <-> b <= a.
Proof.
  unfold JS.lt; destruct (Rlt_dec a b); split; intros; try easy; lra.
Qed.

Lemma le_true (a b : R) : JS.le a b = true <-> a <= b.
Proof. unfold JS.le; destruct (Rle_dec a b); split; intros; try easy. Qed.

Lemma le_false (a b : R) : JS.le a b = false <-> b < a.
Proof.
  unfold JS.le; destruct (Rle_dec a b); split; intros; try easy; lra.
Qed.

Lemma ge_true (a b : R) : JS.ge a b = true <-> b <= a.
Proof. apply le_true. Qed.

Lemma ge_false (a b : R) : JS.ge a b = false <-> a < b.
Proof. apply le_false. Qed.

Lemma gt_true (a b : R) : JS.gt a b = true <-> b < a.
Proof. apply lt_true. Qed.

Lemma gt_false (a b : R) : JS.gt a b = false <-> a <= b.
Proof. apply lt_false. Qed.

Lemma eq_true (a b : R) : JS.eq a b = true <-> a = b.
Proof. unfold JS.eq; destruct (Req_dec_T a b); split; intros; easy. Qed.

Lemma eq_false (a b : R) : JS.eq a b = false <-> a <> b.
Proof. unfold JS.eq; destruct (Req_dec_T a b); split; intros; easy. Qed.

Lemma index_In {A : Type} (arr : list A) (k : Z) (a : A) :
  JS.index arr k = Some a -> In a arr.
Proof.
  unfold JS.index; destruct (k <? 0)%Z; [discriminate|].
  apply nth_error_In.
Qed.

Lemma randomElement_In {A : Type} (arr : list A) (g : Rng) (a : A) :
  fst (randomElement arr g) = Some a -> In a arr.
Proof. unfold randomElement, bind, random, ret; simpl. apply index_In. Qed.

Lemma truthy_Some (s : option string) (v : string) :
  JS.truthy s = Some v -> s = Some v /\ v <> "".
Proof.
  destruct s as [w|]; simpl; [|discriminate].
  destruct (String.eqb_spec w ""); [discriminate|].
  intros [= ->]; auto.
Qed.

Lemma includes_In (l : list string) (s : string) :
  LN.includes l s = true <-> In s l.
Proof.
  unfold LN.includes; rewrite existsb_exists; split.
  - intros (x & Hx & Heq); apply String.eqb_eq in Heq; subst; exact Hx.
  - intros H; exists s; split; [exact H | apply String.eqb_refl].
Qed.

(** [floor (r * n)] is an index below [n] for a draw [r] of [0, 1). *)
Lemma floor_draw_range (r : R) (n : nat) :
  0 <= r < 1 -> (0 < n)%nat ->
  (0 <= JS.floor (r * INR n) < Z.of_nat n)%Z.
Proof.
  intros [Hr0 Hr1] Hn; unfold JS.floor.
  destruct (base_Int_part (r * INR n)) as [Hlo Hhi].
  assert (Hpos : 0 < INR n) by (apply lt_0_INR; exact Hn).
  assert (H0 : 0 <= r * INR n) by (apply Rmult_le_pos; lra).
  assert (H1 : r * INR n < INR n) by nra.
  split.
  - apply le_IZR. 
    assert (-1 < IZR (Int_part (r * INR n))) by lra.
    apply lt_IZR in H. apply IZR_le. lia.
  - apply lt_IZR. rewrite <- INR_IZR_INZ. lra.
Qed.

Lemma randomElement_Some {A : Type} (arr : list A) (g : Rng) :
  rng_ok g -> arr <> [] ->
  exists a, fst (randomElement arr g) = Some a /\ In a arr.
Proof.
  intros Hg Hne.
  unfold randomElement, bind, random, ret; simpl.
  assert (Hlen : (0 < length arr)%nat)
    by (destruct arr; [contradiction | simpl; lia]).
  destruct (floor_draw_range (g 0%nat) (length arr) (Hg 0%nat) Hlen)
    as [Hlo Hhi].
  unfold JS.index.
  destruct (Z.ltb_spec (JS.floor (g 0%nat * INR (length arr))) 0); [lia|].
  destruct (nth_error arr (Z.to_nat (JS.floor (g 0%nat * INR (length arr)))))
    as [a|] eqn:E.
  - exists a; split; [reflexivity | eapply nth_error_In; exact E].
  - apply nth_error_None in E. lia.
Qed.

Lemma rng_ok_random (g : Rng) : rng_ok g -> rng_ok (snd (random g)).
Proof. intros H n; simpl; apply H. Qed.

(** ** Random routes *)

Section RouteFacts.
Variable conns : LN.ConnMap.

Lemma routeLoop_preserves (P : list string -> Prop) :
  (forall pre cur next,
      P (pre ++ [cur]) -> hop conns (pre ++ [cur]) cur next ->
      P ((pre ++ [cur]) ++ [next])) ->
  forall iters pre cur g,
    P (pre ++ [cur]) ->
    P (fst (LN.routeLoop conns iters (pre ++ [cur]) cur g)).
Proof.
  intros Hstep; induction iters as [|iters IH]; intros pre cur g HP.
  - exact HP.
  - simpl.
    destruct (LN.connectionsGet conns cur) as [|c0 cs] eqn:Hc; [exact HP|].
    cbn [length Nat.eqb]. unfold bind.
    set (valid := filter (LN.notBacktrack (pre ++ [cur])) (c0 :: cs)).
    destruct (Nat.ltb_spec 0 (length valid)) as [Hv|Hv].
    + destruct (randomElement valid g) as [nextLane g'] eqn:Hr.
      destruct (JS.truthy nextLane) as [next|] eqn:Ht; [|exact HP].
      apply truthy_Some in Ht; destruct Ht as [-> _].
      assert (Hin : In next valid)
        by (apply (randomElement_In valid g); rewrite Hr; reflexivity).
      apply IH.
      apply Hstep; [exact HP|].
      unfold hop; rewrite Hc; repeat split.
      * discriminate.
      * unfold valid in Hin; apply filter_In in Hin; tauto.
      * left; exact Hin.
    + destruct (randomElement (c0 :: cs) g) as [nextLane g'] eqn:Hr.
      destruct (JS.truthy nextLane) as [next|] eqn:Ht; [|exact HP].
      apply truthy_Some in Ht; destruct Ht as [-> _].
      assert (Hin : In next (c0 :: cs))
        by (apply (randomElement_In (c0 :: cs) g); rewrite Hr; reflexivity).
      apply IH.
      apply Hstep; [exact HP|].
      unfold hop; rewrite Hc; repeat split.
      * discriminate.
      * exact Hin.
      * right. fold valid. destruct valid; [reflexivity | simpl in Hv; lia].
Qed.

Lemma routeLoop_length (iters : nat) :
  forall route cur g,
    (length (fst (LN.routeLoop conns iters route cur g))
     <= length route + iters)%nat.
Proof.
  induction iters as [|iters IH]; intros route cur g; simpl; [lia|].
  destruct (length (LN.connectionsGet conns cur) =? 0)%nat; [simpl; lia|].
  unfold bind.
  destruct (0 <? _)%nat;
    destruct (randomElement _ g) as [nextLane g'];
    (destruct (JS.truthy nextLane) as [next|]; [|simpl; lia]);
    specialize (IH (route ++ [next]) next g');
    rewrite length_app in IH; simpl in IH; lia.
Qed.

Lemma nth_error_snoc_cases {A : Type} (l : list A) (x : A) (k : nat) (a : A) :
  nth_error (l ++ [x]) k = Some a ->
  ((k < length l)%nat /\ nth_error l k = Some a) \/ (k = length l /\ a = x).
Proof.
  intros H. destruct (Nat.lt_ge_cases k (length l)) as [Hlt|Hge].
  - left; split; [exact Hlt|]. rewrite nth_error_app1 in H; assumption.
  - right. rewrite nth_error_app2 in H by exact Hge.
    destruct (k - length l)%nat as [|m] eqn:E.
    + simpl in H; injection H as <-; split; [lia | reflexivity].
    + simpl in H; destruct m; discriminate.
Qed.

Lemma nth_error_last_snoc {A : Type} (l : list A) (x : A) :
  nth_error (l ++ [x]) (length l) = Some x.
Proof.
  rewrite nth_error_app2 by lia. rewrite Nat.sub_diag; reflexivity.
Qed.

Lemma linked_hop (pre : list string) (cur next : string) :
  linked conns (pre ++ [cur]) -> hop conns (pre ++ [cur]) cur next ->
  linked conns ((pre ++ [cur]) ++ [next]).
Proof.
  intros HP (_ & Hin & _) k a b Ha Hb.
  apply nth_error_snoc_cases in Hb; destruct Hb as [[Hlt Hb]|[Hk ->]].
  - apply (HP k a b); [|exact Hb].
    rewrite nth_error_app1 in Ha by lia; exact Ha.
  - rewrite length_app in Hk; simpl in Hk.
    assert (k = length pre) by lia; subst k.
    rewrite <- app_assoc in Ha; rewrite nth_error_app2 in Ha by lia.
    rewrite Nat.sub_diag in Ha; simpl in Ha; injection Ha as <-.
    exact Hin.
Qed.

Lemma stopsAtDeadEnd_hop (pre : list string) (cur next : string) :
  stopsAtDeadEnd conns (pre ++ [cur]) -> hop conns (pre ++ [cur]) cur next ->
  stopsAtDeadEnd conns ((pre ++ [cur]) ++ [next]).
Proof.
  intros HP (Hne & _ & _) k a Ha Hempty.
  apply nth_error_snoc_cases in Ha; destruct Ha as [[Hlt Ha]|[Hk ->]].
  - exfalso. pose proof (HP k a Ha Hempty) as Hlast.
    rewrite length_app in Hlast; simpl in Hlast.
    assert (k = length pre) by lia; subst k.
    rewrite nth_error_last_snoc in Ha; injection Ha as <-.
    contradiction.
  - rewrite length_app; simpl; lia.
Qed.

Lemma backtracks_hop (pre : list string) (cur next : string) :
  backtracksOnlyWhenForced conns (pre ++ [cur]) -> hop conns (pre ++ [cur]) cur next ->
  backtracksOnlyWhenForced conns ((pre ++ [cur]) ++ [next]).
Proof.
  intros HP (_ & _ & Hvalid) k a b c Ha Hb Hc Heq x Hx.
  apply nth_error_snoc_cases in Hc; destruct Hc as [[Hlt Hc]|[Hk ->]].
  - apply (HP k a b c); try assumption.
    + rewrite nth_error_app1 in Ha by lia; exact Ha.
    + rewrite nth_error_app1 in Hb by lia; exact Hb.
  - subst next.
    rewrite length_app in Hk; simpl in Hk.
    rewrite nth_error_app1 in Ha by (rewrite length_app; simpl; lia).
    rewrite nth_error_app1 in Hb by (rewrite length_app; simpl; lia).
    assert (Hp : length pre = S k) by lia.
    rewrite <- Hp in Hb.
    rewrite nth_error_last_snoc in Hb; injection Hb as <-.
    assert (Hlen : length (pre ++ [cur]) = S (S k))
      by (rewrite length_app; simpl; lia).
    assert (Hnb : forall y, LN.notBacktrack (pre ++ [cur]) y
                            = negb (String.eqb y a)).
    { intros y; unfold LN.notBacktrack. rewrite Hlen.
      replace (S (S k) - 2)%nat with k by lia. rewrite Ha.
      reflexivity. }
    destruct Hvalid as [Hin|Hnil].
    + apply filter_In in Hin; destruct Hin as [_ Hin].
      rewrite Hnb, String.eqb_refl in Hin; discriminate.
    + destruct (String.eqb_spec x a) as [->|Hneq]; [reflexivity|].
      exfalso.
      assert (Hf : In x (filter (LN.notBacktrack (pre ++ [cur]))
                           (LN.connectionsGet conns cur))).
      { apply filter_In; split; [exact Hx|]. rewrite Hnb.
        apply Bool.negb_true_iff, String.eqb_neq; exact Hneq. }
      rewrite Hnil in Hf; exact Hf.
Qed.

Lemma hd_hop (start : string) (pre : list string) (cur next : string) :
  hd_error (pre ++ [cur]) = Some start ->
  hd_error ((pre ++ [cur]) ++ [next]) = Some start.
Proof. destruct pre; simpl; auto. Qed.

End RouteFacts.

(** ** The connection map *)

Section MapFacts.
Context {V : Type}.

Lemma map_get_In (m : list (string * V)) (k : string) (v : V) :
  map_get m k = Some v -> In (k, v) m.
Proof.
  induction m as [|[k' v'] m IH]; simpl; [discriminate|].
  destruct (String.eqb_spec k' k) as [->|Hne].
  - intros [= ->]; left; reflexivity.
  - intros H; right; apply IH; exact H.
Qed.

Lemma In_map_get (m : list (string * V)) (k : string) (v : V) :
  NoDup (map fst m) -> In (k, v) m -> map_get m k = Some v.
Proof.
  induction m as [|[k' v'] m IH]; simpl; [contradiction|].
  intros Hnd [H|H].
  - injection H as -> ->. rewrite String.eqb_refl; reflexivity.
  - inversion Hnd as [|? ? Hnotin Hnd']; subst.
    destruct (String.eqb_spec k' k) as [->|Hne].
    + exfalso; apply Hnotin. apply (in_map fst) in H; exact H.
    + apply IH; assumption.
Qed.

Lemma map_set_keys (m : list (string * V)) (k : string) (v : V) (k' : string) :
  In k' (map fst (map_set m k v)) <-> k' = k \/ In k' (map fst m).
Proof.
  induction m as [|[k0 v0] m IH]; simpl.
  - intuition.
  - destruct (String.eqb_spec k0 k) as [->|Hne]; simpl.
    + intuition.
    + rewrite IH; intuition.
Qed.

Lemma map_set_NoDup (m : list (string * V)) (k : string) (v : V) :
  NoDup (map fst m) -> NoDup (map fst (map_set m k v)).
Proof.
  induction m as [|[k0 v0] m IH]; simpl; intros Hnd.
  - constructor; [intros []| constructor].
  - inversion Hnd as [|? ? Hnotin Hnd']; subst.
    destruct (String.eqb_spec k0 k) as [->|Hne]; simpl.
    + constructor; assumption.
    + constructor; [|apply IH; exact Hnd'].
      rewrite map_set_keys; intros [->|H]; [apply Hne; reflexivity|].
      apply Hnotin; exact H.
Qed.

Lemma map_get_set_same (m : list (string * V)) (k : string) (v : V) :
  map_get (map_set m k v) k = Some v.
Proof.
  induction m as [|[k0 v0] m IH]; simpl.
  - rewrite String.eqb_refl; reflexivity.
  - destruct (String.eqb_spec k0 k) as [->|Hne]; simpl.
    + rewrite String.eqb_refl; reflexivity.
    + destruct (String.eqb_spec k0 k); [contradiction | exact IH].
Qed.

Lemma map_get_set_other (m : list (string * V)) (k k' : string) (v : V) :
  k' <> k -> map_get (map_set m k v) k' = map_get m k'.
Proof.
  intros Hne; induction m as [|[k0 v0] m IH]; simpl.
  - destruct (String.eqb_spec k k'); [subst; contradiction | reflexivity].
  - destruct (String.eqb_spec k0 k) as [->|Hne0]; simpl.
    + destruct (String.eqb_spec k k'); [subst; contradiction | reflexivity].
    + destruct (String.eqb_spec k0 k'); [reflexivity | exact IH].
Qed.

End MapFacts.

Lemma buildLoop_NoDup (all todo : list Lane) (acc : LN.ConnMap) :
  NoDup (map fst acc) -> NoDup (map fst (LN.buildLoop all todo acc)).
Proof.
  revert acc; induction todo as [|lane todo IH]; intros acc Hnd; simpl.
  - exact Hnd.
  - destruct (LN.firstPoint lane), (LN.lastPoint lane); try (apply IH; exact Hnd).
    apply IH, map_set_NoDup, Hnd.
Qed.

Lemma buildLaneConnections_NoDup (net : LaneNetwork) :
  NoDup (map fst (LN.buildLaneConnections net)).
Proof. apply buildLoop_NoDup; constructor. Qed.

Lemma connectionsGet_In (m : LN.ConnMap) (other cur : string) :
  In cur (LN.connectionsGet m other) ->
  exists c, In (other, c) m /\ In cur c.
Proof.
  unfold LN.connectionsGet.
  destruct (map_get m other) as [c|] eqn:E; [|contradiction].
  intros H; exists c; split; [apply map_get_In; exact E | exact H].
Qed.

Lemma findReturnLane_Some (m : LN.ConnMap) (cur l : string) :
  LN.findReturnLane m cur = Some l ->
  exists c, In (l, c) m /\ In cur c /\ l <> cur.
Proof.
  induction m as [|[k c] m IH]; simpl; [discriminate|].
  destruct (LN.includes c cur && negb (String.eqb k cur)) eqn:E.
  - intros [= ->]. apply andb_prop in E; destruct E as [Hi Hn].
    exists c; repeat split.
    + left; reflexivity.
    + apply includes_In; exact Hi.
    + apply Bool.negb_true_iff, String.eqb_neq in Hn; exact Hn.
  - intros H; destruct (IH H) as (c' & Hin & Hc & Hne).
    exists c'; split; [right; exact Hin | split; assumption].
Qed.

Lemma findReturnLane_None (m : LN.ConnMap) (cur : string) :
  LN.findReturnLane m cur = None ->
  forall l c, In (l, c) m -> In cur c -> l = cur.
Proof.
  induction m as [|[k c] m IH]; simpl; [intros _ l c []|].
  destruct (LN.includes c cur && negb (String.eqb k cur)) eqn:E;
    [discriminate|].
  intros Hnone l c' [Heq|Hin] Hc.
  - injection Heq as -> ->.
    apply includes_In in Hc; rewrite Hc in E; simpl in E.
    apply Bool.negb_false_iff, String.eqb_eq in E; exact E.
  - apply (IH Hnone l c'); assumption.
Qed.

(** C6: on a lane without connections in the built lane graph,
    [chooseNextLane] returns another lane that lists the current lane as a
    connection whenever there is one, and returns null only when no lane of
    the graph lists the current lane. *)
Theorem chooseNextLane_dead_end_reverses
    (net : LaneNetwork) (cur : string) (e : EntityState) (g : Rng) :
  LN.connectionsGet (LN.buildLaneConnections net) cur = [] ->
  ((exists other,
       In cur (LN.connectionsGet (LN.buildLaneConnections net) other)) ->
   exists next,
     fst (LN.chooseNextLane (LN.buildLaneConnections net) cur e g) = Some next
     /\ next <> cur
     /\ In cur (LN.connectionsGet (LN.buildLaneConnections net) next))
  /\
  (fst (LN.chooseNextLane (LN.buildLaneConnections net) cur e g) = None ->
   forall other,
     ~ In cur (LN.connectionsGet (LN.buildLaneConnections net) other)).
Proof.
  intros Hdead.
  pose proof (buildLaneConnections_NoDup net) as Hnd.
  set (m := LN.buildLaneConnections net) in *.
  assert (Hchoose : fst (LN.chooseNextLane m cur e g)
                    = LN.findReturnLane m cur).
  { unfold LN.chooseNextLane; rewrite Hdead; reflexivity. }
  rewrite Hchoose; split.
  - intros (other & Hother).
    destruct (LN.findReturnLane m cur) as [next|] eqn:Hf.
    + exists next. destruct (findReturnLane_Some m cur next Hf)
        as (c & Hin & Hc & Hne).
      repeat split; [exact Hne|].
      unfold LN.connectionsGet; rewrite (In_map_get m next c Hnd Hin).
      exact Hc.
    + exfalso. destruct (connectionsGet_In m other cur Hother)
        as (c & Hin & Hc).
      pose proof (findReturnLane_None m cur Hf other c Hin Hc) as ->.
      rewrite Hdead in Hother; exact Hother.
  - intros Hnone other Hother.
    destruct (connectionsGet_In m other cur Hother) as (c & Hin & Hc).
    pose proof (findReturnLane_None m cur Hnone other c Hin Hc) as ->.
    rewrite Hdead in Hother; exact Hother.
Qed.

(** C10: a random route is not empty, starts at the start lane, is no longer
    than requested, and every step of it follows a connection of the built
    lane graph.  (It holds for every start lane id, in the network or not.) *)
Theorem generateRandomRoute_follows_connections
    (net : LaneNetwork) (startLaneId : string) (len : nat) (g : Rng) :
  (1 <= len)%nat ->
  let r := fst (LN.generateRandomRoute (LN.buildLaneConnections net)
                  startLaneId len g) in
  r <> []
  /\ hd_error r = Some startLaneId
  /\ (length r <= len)%nat
  /\ forall k a b,
       nth_error r k = Some a -> nth_error r (S k) = Some b ->
       In b (LN.connectionsGet (LN.buildLaneConnections net) a).
Proof.
  intros Hlen r; subst r; unfold LN.generateRandomRoute.
  set (m := LN.buildLaneConnections net).
  change [startLaneId] with ([] ++ [startLaneId]).
  assert (Hhd : hd_error (fst (LN.routeLoop m (len - 1) ([] ++ [startLaneId])
                                 startLaneId g)) = Some startLaneId).
  { apply (routeLoop_preserves m (fun r => hd_error r = Some startLaneId)).
    - intros pre cur next H _; apply hd_hop; exact H.
    - reflexivity. }
  repeat split.
  - intros Hnil; rewrite Hnil in Hhd; discriminate.
  - exact Hhd.
  - pose proof (routeLoop_length m (len - 1) ([] ++ [startLaneId])
                  startLaneId g) as H.
    simpl in H |- *; lia.
  - apply (routeLoop_preserves m (linked m)).
    + apply linked_hop.
    + intros k a b Ha Hb; destruct k; discriminate.
Qed.

(** C7: in a random route over the built lane graph, a lane equal to the lane
    two positions before it appears only when the lane in between has no
    other connection, and a lane with no connection ends the route. *)
Theorem generateRandomRoute_no_immediate_backtrack
    (net : LaneNetwork) (startLaneId : string) (len : nat) (g : Rng) :
  let m := LN.buildLaneConnections net in
  let r := fst (LN.generateRandomRoute m startLaneId len g) in
  (forall k a b c,
      nth_error r k = Some a -> nth_error r (S k) = Some b ->
      nth_error r (S (S k)) = Some c ->
      (exists x, In x (LN.connectionsGet m b) /\ x <> a) -> c <> a)
  /\ (forall k a b c,
        nth_error r k = Some a -> nth_error r (S k) = Some b ->
        nth_error r (S (S k)) = Some c -> c = a ->
        forall x, In x (LN.connectionsGet m b) -> x = a)
  /\ (forall k a,
        nth_error r k = Some a -> LN.connectionsGet m a = [] ->
        S k = length r).
Proof.
  intros m r; subst r; unfold LN.generateRandomRoute.
  change [startLaneId] with ([] ++ [startLaneId]).
  assert (Hb : backtracksOnlyWhenForced m
                 (fst (LN.routeLoop m (len - 1) ([] ++ [startLaneId])
                         startLaneId g))).
  { apply (routeLoop_preserves m (backtracksOnlyWhenForced m)).
    - apply backtracks_hop.
    - intros k a b c Ha Hb; destruct k; discriminate. }
  repeat split.
  - intros k a b c Ha Hbb Hc (x & Hx & Hne) Heq.
    apply Hne. apply (Hb k a b c Ha Hbb Hc Heq x Hx).
  - exact Hb.
  - apply (routeLoop_preserves m (stopsAtDeadEnd m)).
    + apply stopsAtDeadEnd_hop.
    + intros k a Ha _. destruct k; [reflexivity|].
      destruct k; discriminate.
Qed.

(** ** Evaluating distances on concrete points *)

Lemma sqrt_lt_bound (x r : R) : 0 <= x -> 0 < r -> x < r * r -> sqrt x < r.
Proof.
  intros Hx Hr H. rewrite <- (sqrt_square r) by lra.
  apply sqrt_lt_1_alt; lra.
Qed.

Lemma sqrt_ge_bound (x r : R) : 0 <= r -> r * r <= x -> r <= sqrt x.
Proof.
  intros Hr H. rewrite <- (sqrt_square r) at 1 by lra.
  apply sqrt_le_1_alt; exact H.
Qed.

Lemma sum_squares_nonneg (a b : R) : 0 <= a ^ 2 + b ^ 2.
Proof. nra. Qed.

Lemma distance_near (p q : LanePoint) (r : R) :
  0 < r -> (px p - px q) ^ 2 + (py p - py q) ^ 2 < r * r ->
  JS.lt (LN.distance p q) r = true.
Proof.
  intros Hr H; apply lt_true, sqrt_lt_bound; auto using sum_squares_nonneg.
Qed.

Lemma distance_far (p q : LanePoint) (r : R) :
  0 <= r -> r * r <= (px p - px q) ^ 2 + (py p - py q) ^ 2 ->
  JS.lt (LN.distance p q) r = false.
Proof. intros Hr H; apply lt_false, sqrt_ge_bound; assumption. Qed.

(** Rewrites every endpoint test of a concrete network to its value. *)
Ltac settle_distances :=
  repeat match goal with
  | |- context [JS.lt (LN.distance ?p ?q) ?r] =>
      first
        [ rewrite (distance_near p q r) by (unfold LN.connectionRadius; simpl; lra)
        | rewrite (distance_far p q r) by (unfold LN.connectionRadius; simpl; lra) ]
  end.

Lemma returnNet_connections :
  LN.buildLaneConnections returnNet = [("A", []); ("B", ["A"])].
Proof.
  cbv -[LN.distance JS.lt IZR Rdiv LN.connectionRadius].
  settle_distances. reflexivity.
Qed.

Example returnNet_reverses :
  fst (LN.chooseNextLane (LN.buildLaneConnections returnNet) "A"
         (idleEntity "pallet-1" (Some "A")) (fun _ => 0)) = Some "B".
Proof. rewrite returnNet_connections; reflexivity. Qed.

Lemma chooseNextLane_dead_end_reverses_witness :
  LN.connectionsGet (LN.buildLaneConnections returnNet) "A" = []
  /\ ((exists other,
          In "A" (LN.connectionsGet (LN.buildLaneConnections returnNet) other))
      -> exists next,
        fst (LN.chooseNextLane (LN.buildLaneConnections returnNet) "A"
               (idleEntity "pallet-1" (Some "A")) (fun _ => 0)) = Some next
        /\ next <> "A"
        /\ In "A" (LN.connectionsGet (LN.buildLaneConnections returnNet) next))
  /\ (fst (LN.chooseNextLane (LN.buildLaneConnections returnNet) "A"
             (idleEntity "pallet-1" (Some "A")) (fun _ => 0)) = None ->
      forall other,
        ~ In "A" (LN.connectionsGet (LN.buildLaneConnections returnNet) other)).
Proof.
  assert (Hdead : LN.connectionsGet (LN.buildLaneConnections returnNet) "A"
                  = [])
    by (rewrite returnNet_connections; reflexivity).
  split; [exact Hdead|].
  exact (chooseNextLane_dead_end_reverses returnNet "A"
           (idleEntity "pallet-1" (Some "A")) (fun _ => 0) Hdead).
Defined.

Lemma generateRandomRoute_follows_connections_witness :
  (1 <= 3)%nat
  /\ let r := fst (LN.generateRandomRoute (LN.buildLaneConnections returnNet)
                     "B" 3 (fun _ => 0)) in
     r <> []
     /\ hd_error r = Some "B"
     /\ (length r <= 3)%nat
     /\ forall k a b,
          nth_error r k = Some a -> nth_error r (S k) = Some b ->
          In b (LN.connectionsGet (LN.buildLaneConnections returnNet) a).
Proof.
  split; [lia|].
  apply (generateRandomRoute_follows_connections returnNet "B" 3 (fun _ => 0)).
  lia.
Defined.

(** ** Start and stop *)

Lemma start_running (s : WS.Sim) : WS.running (WS.start s) = true.
Proof. unfold WS.start; destruct (WS.running s) eqn:E; [exact E | reflexivity]. Qed.

Lemma stop_not_running (s : WS.Sim) : WS.running (WS.stop s) = false.
Proof.
  unfold WS.stop; destruct (WS.running s) eqn:E; simpl; [|exact E].
  destruct (WS.intervalId s); reflexivity.
Qed.

Lemma start_consistent (s : WS.Sim) : consistent s -> consistent (WS.start s).
Proof.
  unfold consistent, WS.start; destruct (WS.running s) eqn:E; intros H.
  - rewrite E; exact H.
  - simpl. destruct H as [_ Ht]. exists (WS.nextTimer s); rewrite Ht; auto.
Qed.

Lemma stop_consistent (s : WS.Sim) : consistent s -> consistent (WS.stop s).
Proof.
  unfold consistent, WS.stop; destruct (WS.running s) eqn:E; intros H; simpl.
  - destruct H as (h & Hi & Ht). rewrite Hi; simpl. rewrite Ht; simpl.
    rewrite Nat.eqb_refl; auto.
  - rewrite E; exact H.
Qed.

Lemma run_consistent (calls : list WS.Call) : consistent (WS.run calls).
Proof.
  unfold WS.run.
  assert (H0 : consistent WS.newSim) by (split; reflexivity).
  revert H0; generalize WS.newSim.
  induction calls as [|c calls IH]; intros s Hs; simpl; [exact Hs|].
  apply IH. destruct c; simpl; auto using start_consistent, stop_consistent.
Qed.

(** C9: [start] on a running simulator and [stop] on a stopped one change
    nothing, so calling either twice is calling it once; whatever calls were
    made before, one interval at most is armed (one position batch per
    period), and after [stop] the flag is down, the handle forgotten and the
    interval cleared. *)
Theorem start_stop_idempotent :
  (forall s, if WS.running s then WS.start s = s else WS.stop s = s)
  /\ (forall s, WS.start (WS.start s) = WS.start s)
  /\ (forall s, WS.stop (WS.stop s) = WS.stop s)
  /\ (forall calls,
        WS.batchesPerInterval (WS.run calls)
        = (if WS.running (WS.run calls) then 1 else 0)%nat
        /\ WS.batchesPerInterval (WS.start (WS.start (WS.run calls))) = 1%nat
        /\ WS.running (WS.stop (WS.run calls)) = false
        /\ WS.intervalId (WS.stop (WS.run calls)) = None
        /\ WS.timers (WS.stop (WS.run calls)) = []).
Proof.
  assert (Hnoop : forall s, if WS.running s then WS.start s = s
                            else WS.stop s = s).
  { intros s; destruct (WS.running s) eqn:E.
    - unfold WS.start; rewrite E; reflexivity.
    - unfold WS.stop; rewrite E; reflexivity. }
  assert (Hss : forall s, WS.start (WS.start s) = WS.start s).
  { intros s. pose proof (Hnoop (WS.start s)) as H.
    rewrite start_running in H; exact H. }
  assert (Hpp : forall s, WS.stop (WS.stop s) = WS.stop s).
  { intros s. pose proof (Hnoop (WS.stop s)) as H.
    rewrite stop_not_running in H; exact H. }
  repeat split; auto.
  - pose proof (run_consistent calls) as H; unfold consistent in H.
    unfold WS.batchesPerInterval.
    destruct (WS.running (WS.run calls)).
    + destruct H as (h & _ & ->); reflexivity.
    + destruct H as (_ & ->); reflexivity.
  - rewrite Hss.
    pose proof (start_consistent _ (run_consistent calls)) as H.
    unfold consistent in H; rewrite start_running in H.
    destruct H as (h & _ & Ht); unfold WS.batchesPerInterval; rewrite Ht.
    reflexivity.
  - apply stop_not_running.
  - pose proof (stop_consistent _ (run_consistent calls)) as H.
    unfold consistent in H; rewrite stop_not_running in H; tauto.
  - pose proof (stop_consistent _ (run_consistent calls)) as H.
    unfold consistent in H; rewrite stop_not_running in H; tauto.
Qed.

Example start_twice_one_loop :
  WS.timers (WS.run [WS.CallStart; WS.CallStart]) = [0%nat]
  /\ WS.run [WS.CallStart; WS.CallStart] = WS.run [WS.CallStart].
Proof. split; reflexivity. Qed.

(** ** The collision pass *)

Section CollisionFacts.
Variable config : SimulatorConfig.

Lemma nth_error_updateAt (f : EntityState -> EntityState)
    (arr : list EntityState) (k m : nat) :
  nth_error (WS.updateAt k f arr) m
  = if (m =? k)%nat then option_map f (nth_error arr m) else nth_error arr m.
Proof.
  revert k m; induction arr as [|e arr IH]; intros k m.
  - destruct k, m; simpl; try reflexivity; destruct (_ =? _)%nat; reflexivity.
  - destruct k, m; simpl; try reflexivity. apply IH.
Qed.

Lemma length_updateAt (f : EntityState -> EntityState)
    (arr : list EntityState) (k : nat) :
  length (WS.updateAt k f arr) = length arr.
Proof.
  revert k; induction arr as [|e arr IH]; intros [|k]; simpl; auto.
Qed.

(** Slowing an entity down touches its target speed and nothing else. *)
Lemma slowDown_iter_fields (h : nat) (e : EntityState) :
  let e' := Nat.iter h WS.slowDown e in
  e_id e' = e_id e /\ e_x e' = e_x e /\ e_y e' = e_y e
  /\ speed e' = speed e /\ zoneId e' = zoneId e
  /\ currentLaneId e' = currentLaneId e
  /\ targetSpeed e' = targetSpeed e * 0.5 ^ h.
Proof.
  induction h as [|h IH]; simpl.
  - repeat split; lra.
  - destruct IH as (H1 & H2 & H3 & H4 & H5 & H6 & H7).
    repeat split; try assumption. rewrite H7; lra.
Qed.

Lemma nearPair_iter (a b : nat) (e1 e2 : EntityState) :
  WS.nearPair config (Nat.iter a WS.slowDown e1) (Nat.iter b WS.slowDown e2)
  = WS.nearPair config e1 e2.
Proof.
  destruct (slowDown_iter_fields a e1) as (_ & Hx1 & Hy1 & Hs1 & _).
  destruct (slowDown_iter_fields b e2) as (_ & Hx2 & Hy2 & Hs2 & _).
  unfold WS.nearPair, WS.pairDistance.
  rewrite Hx1, Hy1, Hs1, Hx2, Hy2, Hs2; reflexivity.
Qed.

Lemma collisionEvent_iter (a b : nat) (e1 e2 : EntityState) :
  WS.collisionEvent (Nat.iter a WS.slowDown e1) (Nat.iter b WS.slowDown e2)
  = WS.collisionEvent e1 e2.
Proof.
  destruct (slowDown_iter_fields a e1) as (Hi1 & Hx1 & Hy1 & Hs1 & Hz1 & _).
  destruct (slowDown_iter_fields b e2) as (Hi2 & Hx2 & Hy2 & Hs2 & Hz2 & _).
  unfold WS.collisionEvent, WS.pairDistance.
  rewrite Hi1, Hx1, Hy1, Hs1, Hz1, Hi2, Hx2, Hy2, Hs2, Hz2; reflexivity.
Qed.

Lemma fold_left_flat_map {A B C : Type} (f : A -> C -> A) (g : B -> list C)
    (l : list B) (a : A) :
  fold_left f (flat_map g l) a
  = fold_left (fun acc x => fold_left f (g x) acc) l a.
Proof.
  revert a; induction l as [|x l IH]; intros a; simpl; [reflexivity|].
  rewrite fold_left_app; apply IH.
Qed.

Lemma fold_left_map_in {A B C : Type} (f : A -> C -> A) (h : B -> C)
    (l : list B) (a : A) :
  fold_left f (map h l) a = fold_left (fun acc x => f acc (h x)) l a.
Proof. revert a; induction l as [|x l IH]; intros a; simpl; auto. Qed.

Lemma fold_left_pointwise {A B : Type} (f g : A -> B -> A) (l : list B) :
  (forall a x, f a x = g a x) ->
  forall a, fold_left f l a = fold_left g l a.
Proof.
  intros H; induction l as [|x l IH]; intros a; simpl; [reflexivity|].
  rewrite H; apply IH.
Qed.

Lemma collisionPass_pairs (arr : list EntityState) :
  WS.collisionPass config arr
  = fold_left (stepPair config) (pairsOf (length arr)) (arr, []).
Proof.
  unfold WS.collisionPass, pairsOf. rewrite fold_left_flat_map.
  apply fold_left_pointwise. intros st i.
  unfold WS.collisionInner. rewrite fold_left_map_in. reflexivity.
Qed.

Lemma pairs_invariant (arr : list EntityState) (ps : list (nat * nat)) :
  (forall p, In p ps -> fst p <> snd p) ->
  let st := fold_left (stepPair config) ps (arr, []) in
  length (fst st) = length arr
  /\ (forall k e, nth_error arr k = Some e ->
        nth_error (fst st) k = Some (Nat.iter (hits config arr ps k) WS.slowDown e))
  /\ snd st = flat_map (eventAt arr) (filter (nearAt config arr) ps).
Proof.
  induction ps as [|p ps IH] using rev_ind; intros Hdistinct.
  - simpl; repeat split; auto.
  - assert (Hps : forall q, In q ps -> fst q <> snd q)
      by (intros q Hq; apply Hdistinct, in_or_app; left; exact Hq).
    assert (Hp : fst p <> snd p)
      by (apply Hdistinct, in_or_app; right; left; reflexivity).
    specialize (IH Hps). rewrite fold_left_app. simpl fold_left.
    destruct (fold_left (stepPair config) ps (arr, [])) as [cur evs].
    simpl in IH; destruct IH as (Hlen & Hcur & Hevs).
    destruct p as [i j]; simpl in Hp.
    unfold stepPair, WS.collisionStep; simpl fst; simpl snd.
    assert (Hhits : forall k, hits config arr (ps ++ [(i, j)]) k
               = (hits config arr ps k
                  + (if nearAt config arr (i, j) && touches k (i, j) then 1 else 0))%nat).
    { intros k; unfold hits; rewrite filter_app, length_app; simpl.
      destruct (nearAt config arr (i, j) && touches k (i, j)); reflexivity. }
    rewrite filter_app, flat_map_app; simpl filter.
    destruct (nth_error arr i) as [e1|] eqn:E1.
    2:{ assert (Hn : nearAt config arr (i, j) = false)
          by (unfold nearAt; simpl; rewrite E1; reflexivity).
        assert (Hc : nth_error cur i = None)
          by (apply nth_error_None; rewrite Hlen; apply nth_error_None, E1).
        rewrite Hc, Hn; simpl; rewrite app_nil_r.
        repeat split; auto.
        intros k e Hk; rewrite Hhits, Hn; simpl; rewrite Nat.add_0_r; auto. }
    destruct (nth_error arr j) as [e2|] eqn:E2.
    2:{ assert (Hn : nearAt config arr (i, j) = false)
          by (unfold nearAt; simpl; rewrite E1, E2; reflexivity).
        assert (Hc : nth_error cur j = None)
          by (apply nth_error_None; rewrite Hlen; apply nth_error_None, E2).
        rewrite Hc, Hn; simpl; rewrite app_nil_r.
        destruct (nth_error cur i) as [c1|]; repeat split; auto;
          intros k e Hk; rewrite Hhits, Hn; simpl; rewrite Nat.add_0_r; auto. }
    rewrite (Hcur i e1 E1), (Hcur j e2 E2), nearPair_iter.
    assert (Hn : nearAt config arr (i, j) = WS.nearPair config e1 e2)
      by (unfold nearAt; simpl; rewrite E1, E2; reflexivity).
    rewrite Hn. destruct (WS.nearPair config e1 e2) eqn:Enear.
    + simpl fst; simpl snd. repeat split.
      * rewrite !length_updateAt; exact Hlen.
      * intros k e Hk. rewrite !nth_error_updateAt, Hhits, Hn.
        unfold touches; simpl fst; simpl snd.
        rewrite (Hcur k e Hk).
        destruct (Nat.eqb_spec k j) as [->|Hkj].
        -- destruct (Nat.eqb_spec j i) as [Hji|_];
             [exfalso; apply Hp; symmetry; exact Hji|].
           destruct (Nat.eqb_spec i j) as [Hij|_];
             [exfalso; apply Hp; exact Hij|].
           rewrite Nat.eqb_refl; simpl. rewrite Nat.add_1_r; reflexivity.
        -- destruct (Nat.eqb_spec k i) as [->|Hki].
           ++ rewrite Nat.eqb_refl; simpl. rewrite Nat.add_1_r; reflexivity.
           ++ destruct (Nat.eqb_spec i k) as [Hik|_];
                [exfalso; apply Hki; symmetry; exact Hik|].
              destruct (Nat.eqb_spec j k) as [Hjk|_];
                [exfalso; apply Hkj; symmetry; exact Hjk|].
              simpl. rewrite Nat.add_0_r; reflexivity.
      * rewrite Hevs, collisionEvent_iter. f_equal.
        cbn [flat_map]. unfold eventAt; simpl fst; simpl snd.
        rewrite E1, E2. reflexivity.
    + simpl; rewrite app_nil_r. repeat split; auto.
      intros k e Hk; rewrite Hhits, Hn; simpl; rewrite Nat.add_0_r; auto.
Qed.

Lemma pairsOf_spec (n i j : nat) :
  In (i, j) (pairsOf n) <-> (i < j < n)%nat.
Proof.
  unfold pairsOf; rewrite in_flat_map; split.
  - intros (x & Hx & Hin). apply in_map_iff in Hin.
    destruct Hin as (y & Heq & Hy). injection Heq as -> ->.
    apply in_seq in Hx, Hy. lia.
  - intros H. exists i; split; [apply in_seq; lia|].
    apply in_map_iff; exists j; split; [reflexivity | apply in_seq; lia].
Qed.

Lemma NoDup_map_pair (i : nat) (l : list nat) :
  NoDup l -> NoDup (map (fun j => (i, j)) l).
Proof.
  induction 1 as [|x l Hnotin Hnd IH]; simpl; constructor; [|exact IH].
  intros Hin; apply in_map_iff in Hin.
  destruct Hin as (y & [= ->] & Hy); contradiction.
Qed.

Lemma pairsOf_NoDup (n : nat) : NoDup (pairsOf n).
Proof.
  unfold pairsOf.
  assert (H : forall l, NoDup l ->
            NoDup (flat_map
                     (fun i => map (fun j => (i, j))
                                 (seq (i + 1) (n - (i + 1)))) l)).
  { induction l as [|x l IH]; intros Hnd; simpl; [constructor|].
    inversion Hnd as [|? ? Hnotin Hnd']; subst.
    apply NoDup_app; repeat split.
    - apply NoDup_map_pair, seq_NoDup.
    - apply IH; exact Hnd'.
    - intros [a b] Ha Hb. apply in_map_iff in Ha.
      destruct Ha as (y & [= <- <-] & _).
      apply in_flat_map in Hb. destruct Hb as (z & Hz & Hin).
      apply in_map_iff in Hin. destruct Hin as (w & [= <- _] & _).
      apply Hnotin; exact Hz. }
  apply H, seq_NoDup.
Qed.

End CollisionFacts.

(** ** Near-collision events *)

Lemma pair_eqb_spec (p q : nat * nat) : pair_eqb p q = true <-> p = q.
Proof.
  destruct p as [a b], q as [c d]; unfold pair_eqb; simpl.
  rewrite andb_true_iff, !Nat.eqb_eq. split.
  - intros [-> ->]; reflexivity.
  - intros [= -> ->]; auto.
Qed.

Section Counting.
Context {A : Type} (eqb : A -> A -> bool) (c : A -> bool).
Hypothesis eqb_eq : forall a b, eqb a b = true <-> a = b.

Lemma filter_absent (x : A) (l : list A) :
  ~ In x l -> filter (fun a => c a && eqb a x) l = [].
Proof.
  induction l as [|z l IH]; intros Hx; simpl; [reflexivity|].
  destruct (eqb z x) eqn:E.
  - exfalso; apply Hx; left; apply eqb_eq; exact E.
  - rewrite andb_false_r. apply IH; intros H; apply Hx; right; exact H.
Qed.

Lemma count_selected (x : A) (l : list A) :
  NoDup l -> In x l ->
  length (filter (fun a => c a && eqb a x) l) = if c x then 1%nat else 0%nat.
Proof.
  induction 1 as [|y l Hnotin Hnd IH]; intros Hin; [contradiction|].
  simpl. destruct Hin as [->|Hin].
  - assert (E : eqb x x = true) by (apply eqb_eq; reflexivity).
    rewrite E, andb_true_r, (filter_absent x l Hnotin).
    destruct (c x); reflexivity.
  - destruct (eqb y x) eqn:E.
    + apply eqb_eq in E; subst; contradiction.
    + rewrite andb_false_r. apply IH; exact Hin.
Qed.

End Counting.

Section ProximityFacts.
Variable config : SimulatorConfig.
Variable arr : list EntityState.
Hypothesis distinct_ids : NoDup (map e_id arr).

Lemma same_id_same_index (a i : nat) (ea ei : EntityState) :
  nth_error arr a = Some ea -> nth_error arr i = Some ei ->
  e_id ea = e_id ei -> a = i.
Proof.
  intros Ha Hi Heq.
  apply (proj1 (NoDup_nth_error (map e_id arr)) distinct_ids).
  - rewrite length_map. apply nth_error_Some; rewrite Ha; discriminate.
  - rewrite !nth_error_map, Ha, Hi; simpl; rewrite Heq; reflexivity.
Qed.

Lemma refersToBoth_collisionEvent (a b i j : nat) (ea eb e1 e2 : EntityState) :
  (a < b)%nat -> (i < j)%nat ->
  nth_error arr a = Some ea -> nth_error arr b = Some eb ->
  nth_error arr i = Some e1 -> nth_error arr j = Some e2 ->
  refersToBoth (e_id e1) (e_id e2) (WS.collisionEvent ea eb)
  = pair_eqb (a, b) (i, j).
Proof.
  intros Hab Hij Ha Hb Hi Hj.
  unfold refersToBoth, WS.collisionEvent, LN.includes; simpl.
  rewrite !orb_false_r.
  destruct (pair_eqb (a, b) (i, j)) eqn:E.
  - apply pair_eqb_spec in E; injection E as -> ->.
    rewrite Ha in Hi; injection Hi as ->.
    rewrite Hb in Hj; injection Hj as ->.
    rewrite !String.eqb_refl; simpl. rewrite orb_true_r; reflexivity.
  - apply not_true_iff_false; intros H; apply not_true_iff_false in E.
    apply E, pair_eqb_spec.
    apply andb_prop in H; destruct H as [H1 H2].
    apply orb_prop in H1, H2.
    assert (Hai : forall x y ex ey,
               nth_error arr x = Some ex -> nth_error arr y = Some ey ->
               String.eqb (e_id ey) (e_id ex) = true -> x = y).
    { intros x y ex ey Hx Hy Heq; apply String.eqb_eq in Heq.
      apply (same_id_same_index x y ex ey Hx Hy); symmetry; exact Heq. }
    destruct H1 as [H1|H1], H2 as [H2|H2].
    + pose proof (Hai _ _ _ _ Ha Hi H1); pose proof (Hai _ _ _ _ Ha Hj H2).
      lia.
    + pose proof (Hai _ _ _ _ Ha Hi H1) as <-.
      pose proof (Hai _ _ _ _ Hb Hj H2) as <-. reflexivity.
    + pose proof (Hai _ _ _ _ Hb Hi H1); pose proof (Hai _ _ _ _ Ha Hj H2).
      lia.
    + pose proof (Hai _ _ _ _ Hb Hi H1); pose proof (Hai _ _ _ _ Hb Hj H2).
      lia.
Qed.

Lemma count_collision_events (i j : nat) (e1 e2 : EntityState)
    (ps : list (nat * nat)) :
  (i < j)%nat -> nth_error arr i = Some e1 -> nth_error arr j = Some e2 ->
  (forall p, In p ps -> (fst p < snd p)%nat) ->
  filter (refersToBoth (e_id e1) (e_id e2))
    (flat_map (eventAt arr) (filter (nearAt config arr) ps))
  = flat_map (eventAt arr)
      (filter (fun p => nearAt config arr p && pair_eqb p (i, j)) ps).
Proof.
  intros Hij Hi Hj; induction ps as [|[a b] ps IH]; intros Hlt;
    [reflexivity|].
  assert (Hab : (a < b)%nat) by (apply (Hlt (a, b)); left; reflexivity).
  assert (IH' := IH (fun p Hp => Hlt p (or_intror Hp))).
  simpl filter.
  destruct (nearAt config arr (a, b)) eqn:En; [|exact IH'].
  unfold nearAt in En; simpl in En.
  destruct (nth_error arr a) as [ea|] eqn:Ea; [|discriminate].
  destruct (nth_error arr b) as [eb|] eqn:Eb; [|discriminate].
  cbn [flat_map]. rewrite filter_app, IH'.
  assert (Hev : eventAt arr (a, b) = [WS.collisionEvent ea eb])
    by (unfold eventAt; simpl; rewrite Ea, Eb; reflexivity).
  rewrite Hev; simpl filter.
  rewrite (refersToBoth_collisionEvent a b i j ea eb e1 e2); auto.
  simpl andb. destruct (pair_eqb (a, b) (i, j)); simpl.
  - rewrite Hev; reflexivity.
  - reflexivity.
Qed.

Lemma congestion_not_collision (occ : list (string * list string))
    (id1 id2 : string) :
  filter (refersToBoth id1 id2) (WS.congestionEvents config occ) = [].
Proof.
  induction occ as [|[l ids] occ IH]; simpl; [reflexivity|].
  destruct (JS.ge _ _); simpl; exact IH.
Qed.

End ProximityFacts.

(** C4: with the entities of the map (distinct ids) in an array, every pair
    that is closer than the collision radius while one of the two moves
    faster than 0.1 gets exactly one near-collision event naming both ids,
    every other pair gets none, and an entity's target speed leaves the
    detector multiplied by 0.5 once for every such pair it belongs to. *)
Theorem proximity_events_per_pair
    (config : SimulatorConfig) (arr : list EntityState) :
  NoDup (map e_id arr) ->
  (forall e1 e2,
      WS.nearPair config e1 e2 = true <->
      WS.pairDistance e1 e2 < collisionRadius config
      /\ (0.1 < speed e1 \/ 0.1 < speed e2))
  /\ (forall i j e1 e2,
        (i < j)%nat ->
        nth_error arr i = Some e1 -> nth_error arr j = Some e2 ->
        length (filter (refersToBoth (e_id e1) (e_id e2))
                  (snd (WS.checkProximityEvents config arr)))
        = if WS.nearPair config e1 e2 then 1%nat else 0%nat)
  /\ (forall k e,
        nth_error arr k = Some e ->
        exists e',
          nth_error (fst (WS.checkProximityEvents config arr)) k = Some e'
          /\ e_id e' = e_id e
          /\ targetSpeed e'
             = targetSpeed e
               * 0.5 ^ hits config arr (pairsOf (length arr)) k).
Proof.
  intros Hnd.
  assert (Hdistinct : forall p, In p (pairsOf (length arr)) -> fst p <> snd p).
  { intros [a b] Hp; apply pairsOf_spec in Hp; simpl; lia. }
  pose proof (pairs_invariant config arr (pairsOf (length arr)) Hdistinct)
    as Hinv.
  unfold WS.checkProximityEvents. rewrite collisionPass_pairs.
  destruct (fold_left (stepPair config) (pairsOf (length arr)) (arr, []))
    as [cur evs].
  simpl in Hinv; destruct Hinv as (Hlen & Hcur & Hevs).
  simpl fst; simpl snd. split; [|split].
  - intros e1 e2; unfold WS.nearPair.
    rewrite andb_true_iff, orb_true_iff, lt_true, !gt_true. tauto.
  - intros i j e1 e2 Hij Hi Hj.
    rewrite filter_app, (congestion_not_collision config), app_nil_r, Hevs.
    rewrite (count_collision_events config arr Hnd i j e1 e2); auto.
    2:{ intros [a b] Hp; apply pairsOf_spec in Hp; simpl; lia. }
    assert (Hin : In (i, j) (pairsOf (length arr))).
    { apply pairsOf_spec; split; [exact Hij|].
      apply nth_error_Some; rewrite Hj; discriminate. }
    assert (Hlenflat : forall ps,
               (forall p, In p ps -> nearAt config arr p = true) ->
               length (flat_map (eventAt arr) ps) = length ps).
    { induction ps as [|p ps IH]; intros Hall; simpl; [reflexivity|].
      rewrite length_app, IH by (intros q Hq; apply Hall; right; exact Hq).
      assert (Hp : nearAt config arr p = true) by (apply Hall; left; auto).
      unfold nearAt in Hp; unfold eventAt.
      destruct (nth_error arr (fst p)); [|discriminate].
      destruct (nth_error arr (snd p)); [|discriminate]. reflexivity. }
    rewrite Hlenflat.
    2:{ intros p Hp; apply filter_In in Hp; destruct Hp as [_ Hp].
        apply andb_prop in Hp; tauto. }
    rewrite (count_selected pair_eqb (nearAt config arr) pair_eqb_spec
               (i, j) _ (pairsOf_NoDup _) Hin).
    unfold nearAt; simpl; rewrite Hi, Hj; reflexivity.
  - intros k e Hk. eexists; split; [apply Hcur; exact Hk|].
    destruct (slowDown_iter_fields
                (hits config arr (pairsOf (length arr)) k) e)
      as (Hid & _ & _ & _ & _ & _ & Hts).
    split; assumption.
Qed.

Lemma scenario_distinct_ids : NoDup (map e_id scenarioEntities).
Proof.
  simpl; repeat constructor; simpl; intuition discriminate.
Qed.

Lemma proximity_events_per_pair_witness :
  NoDup (map e_id scenarioEntities)
  /\ forall i j e1 e2,
       (i < j)%nat ->
       nth_error scenarioEntities i = Some e1 ->
       nth_error scenarioEntities j = Some e2 ->
       length (filter (refersToBoth (e_id e1) (e_id e2))
                 (snd (WS.checkProximityEvents scenarioConfig
                         scenarioEntities)))
       = if WS.nearPair scenarioConfig e1 e2 then 1%nat else 0%nat.
Proof.
  split; [exact scenario_distinct_ids|].
  exact (proj1 (proj2 (proximity_events_per_pair scenarioConfig
                         scenarioEntities scenario_distinct_ids))).
Defined.

Lemma scenario_near : WS.nearPair scenarioConfig pallet1 pallet2 = true.
Proof.
  unfold WS.nearPair, WS.pairDistance; simpl.
  apply andb_true_intro; split.
  - apply lt_true, sqrt_lt_bound; try apply sum_squares_nonneg; lra.
  - apply orb_true_intro; left; apply gt_true; lra.
Qed.

Lemma collisionPass_two (config : SimulatorConfig) (a b : EntityState) :
  WS.nearPair config a b = true ->
  WS.collisionPass config [a; b]
  = ([WS.slowDown a; WS.slowDown b], [WS.collisionEvent a b]).
Proof.
  intros H; unfold WS.collisionPass, WS.collisionInner; simpl.
  rewrite H; reflexivity.
Qed.

Example scenario_one_event_and_halved :
  WS.checkProximityEvents scenarioConfig scenarioEntities
  = ([WS.slowDown pallet1; WS.slowDown pallet2],
     [WS.collisionEvent pallet1 pallet2])
  /\ assetIds (WS.collisionEvent pallet1 pallet2) = ["pallet-1"; "pallet-2"]
  /\ targetSpeed (WS.slowDown pallet1) = 1 * 0.5
  /\ targetSpeed (WS.slowDown pallet2) = 2 * 0.5.
Proof.
  split; [|repeat split].
  unfold WS.checkProximityEvents, scenarioEntities.
  rewrite (collisionPass_two _ _ _ scenario_near).
  assert (Hocc : WS.laneOccupancy [WS.slowDown pallet1; WS.slowDown pallet2]
                 = [("L1", ["pallet-1"]); ("L2", ["pallet-2"])])
    by reflexivity.
  rewrite Hocc; unfold WS.congestionEvents.
  rewrite !(proj2 (ge_false _ _)) by (simpl; lra).
  reflexivity.
Qed.

(** ** Congestion events *)

Section CongestionFacts.
Variable config : SimulatorConfig.

Lemma occupancyStep_get (m : list (string * list string)) (e : EntityState)
    (l laneId : string) :
  JS.truthy (currentLaneId e) = Some l ->
  map_get (WS.occupancyStep m e) laneId
  = if String.eqb l laneId then Some (idsOf m l ++ [e_id e])
    else map_get m laneId.
Proof.
  intros Ht; unfold WS.occupancyStep, map_has, idsOf; rewrite Ht.
  destruct (map_get m l) as [ids|] eqn:E.
  - rewrite E. destruct (String.eqb_spec l laneId) as [<-|Hne].
    + apply map_get_set_same.
    + apply map_get_set_other; congruence.
  - rewrite map_get_set_same.
    destruct (String.eqb_spec l laneId) as [<-|Hne].
    + apply map_get_set_same.
    + rewrite !map_get_set_other by congruence. reflexivity.
Qed.

Lemma occupancyStep_NoDup (m : list (string * list string))
    (e : EntityState) :
  NoDup (map fst m) -> NoDup (map fst (WS.occupancyStep m e)).
Proof.
  intros Hnd; unfold WS.occupancyStep.
  destruct (JS.truthy (currentLaneId e)) as [l|]; [|exact Hnd].
  destruct (map_has m l).
  - destruct (map_get m l); [apply map_set_NoDup|]; exact Hnd.
  - destruct (map_get (map_set m l []) l);
      [apply map_set_NoDup|]; apply map_set_NoDup; exact Hnd.
Qed.

Lemma laneOccupancy_fold_NoDup (arr : list EntityState)
    (m : list (string * list string)) :
  NoDup (map fst m) -> NoDup (map fst (fold_left WS.occupancyStep arr m)).
Proof.
  revert m; induction arr as [|e arr IH]; intros m Hnd; simpl; [exact Hnd|].
  apply IH, occupancyStep_NoDup, Hnd.
Qed.

Lemma onLane_truthy (laneId l : string) (e : EntityState) :
  laneId <> "" -> JS.truthy (currentLaneId e) = Some l ->
  onLane laneId e = String.eqb l laneId.
Proof.
  intros _ Ht; apply truthy_Some in Ht; destruct Ht as [Hc _].
  unfold onLane; rewrite Hc; reflexivity.
Qed.

Lemma onLane_falsy (laneId : string) (e : EntityState) :
  laneId <> "" -> JS.truthy (currentLaneId e) = None ->
  onLane laneId e = false.
Proof.
  intros Hne Ht; unfold onLane.
  destruct (currentLaneId e) as [l|]; [|reflexivity].
  simpl in Ht. destruct (String.eqb_spec l ""); [|discriminate].
  subst l. apply String.eqb_neq; congruence.
Qed.

Lemma occupancy_fold_get (arr : list EntityState) :
  forall (m : list (string * list string)) (laneId : string),
    laneId <> "" ->
    map_get (fold_left WS.occupancyStep arr m) laneId
    = match map_get m laneId, occupants laneId arr with
      | None, [] => None
      | _, _ => Some (idsOf m laneId ++ occupants laneId arr)
      end.
Proof.
  induction arr as [|e arr IH]; intros m laneId Hne.
  - simpl; unfold idsOf, occupants; simpl.
    destruct (map_get m laneId); [rewrite app_nil_r|]; reflexivity.
  - simpl fold_left. rewrite (IH _ laneId Hne).
    unfold occupants; simpl filter.
    destruct (JS.truthy (currentLaneId e)) as [l|] eqn:Ht.
    + rewrite (onLane_truthy laneId l e Hne Ht).
      pose proof (occupancyStep_get m e l laneId Ht) as Hget.
      assert (Hids : idsOf (WS.occupancyStep m e) laneId
                     = if String.eqb l laneId then idsOf m l ++ [e_id e]
                       else idsOf m laneId).
      { unfold idsOf at 1; rewrite Hget.
        destruct (String.eqb l laneId); reflexivity. }
      rewrite Hget, Hids.
      destruct (String.eqb_spec l laneId) as [->|Hl].
      * simpl map. rewrite <- app_assoc; simpl.
        destruct (map_get m laneId); reflexivity.
      * reflexivity.
    + rewrite (onLane_falsy laneId e Hne Ht).
      unfold WS.occupancyStep; rewrite Ht. reflexivity.
Qed.

Lemma occupancy_fold_get_empty (arr : list EntityState) :
  forall (m : list (string * list string)),
    map_get (fold_left WS.occupancyStep arr m) "" = map_get m "".
Proof.
  induction arr as [|e arr IH]; intros m; simpl; [reflexivity|].
  rewrite IH. destruct (JS.truthy (currentLaneId e)) as [l|] eqn:Ht.
  - rewrite (occupancyStep_get m e l "" Ht).
    apply truthy_Some in Ht; destruct Ht as [_ Hl].
    destruct (String.eqb_spec l ""); [contradiction | reflexivity].
  - unfold WS.occupancyStep; rewrite Ht; reflexivity.
Qed.

Lemma map_get_absent {V : Type} (m : list (string * V)) (k : string) :
  ~ In k (map fst m) -> map_get m k = None.
Proof.
  induction m as [|[k' v] m IH]; simpl; intros H; [reflexivity|].
  destruct (String.eqb_spec k' k) as [->|_]; [exfalso; auto|].
  apply IH; intros Hin; apply H; right; exact Hin.
Qed.

Lemma congestionFor_events (occ : list (string * list string))
    (laneId : string) :
  NoDup (map fst occ) ->
  congestionFor laneId (WS.congestionEvents config occ)
  = match map_get occ laneId with
    | Some ids =>
        if JS.ge (INR (length ids)) (congestionThreshold config)
        then [WS.congestionEvent config laneId ids]
        else []
    | None => []
    end.
Proof.
  induction occ as [|[k ids] occ IH]; intros Hnd; [reflexivity|].
  inversion Hnd as [|? ? Hnotin Hnd']; subst.
  specialize (IH Hnd'). simpl.
  destruct (String.eqb_spec k laneId) as [->|Hk].
  - rewrite (map_get_absent occ laneId Hnotin) in IH.
    destruct (JS.ge (INR (length ids)) (congestionThreshold config));
      [|exact IH].
    unfold congestionFor in *; simpl. rewrite String.eqb_refl, IH.
    reflexivity.
  - destruct (JS.ge (INR (length ids)) (congestionThreshold config));
      [|exact IH].
    unfold congestionFor in *; simpl.
    destruct (String.eqb_spec k laneId); [contradiction | exact IH].
Qed.

Lemma occupancyStep_key (m : list (string * list string))
    (e e' : EntityState) :
  currentLaneId e' = currentLaneId e -> e_id e' = e_id e ->
  WS.occupancyStep m e' = WS.occupancyStep m e.
Proof. intros H1 H2; unfold WS.occupancyStep; rewrite H1, H2; reflexivity. Qed.

Lemma laneOccupancy_keys (a b : list EntityState) :
  length b = length a ->
  (forall k e, nth_error a k = Some e ->
     exists e', nth_error b k = Some e'
                /\ currentLaneId e' = currentLaneId e /\ e_id e' = e_id e) ->
  WS.laneOccupancy b = WS.laneOccupancy a.
Proof.
  unfold WS.laneOccupancy; generalize (@nil (string * list string)).
  revert b; induction a as [|e a IH]; intros [|e' b] m Hlen Hpt;
    try discriminate; [reflexivity|].
  simpl. destruct (Hpt 0%nat e eq_refl) as (e0 & [= <-] & H1 & H2).
  rewrite (occupancyStep_key m e e' H1 H2).
  apply IH; [simpl in Hlen; lia|].
  intros k x Hk; exact (Hpt (S k) x Hk).
Qed.

Lemma collision_events_not_congestion (arr : list EntityState)
    (ps : list (nat * nat)) (laneId : string) :
  congestionFor laneId (flat_map (eventAt arr) ps) = [].
Proof.
  induction ps as [|p ps IH]; simpl; [reflexivity|].
  unfold congestionFor in *; rewrite filter_app, IH, app_nil_r.
  unfold eventAt. destruct (nth_error arr (fst p)); [|reflexivity].
  destruct (nth_error arr (snd p)); reflexivity.
Qed.

End CongestionFacts.

(** C5, as the code has it: a lane id gets a congestion event exactly when
    it is non-empty, at least one entity is on it, and the number of entities
    on it meets the threshold; the event is then the only one for the lane and
    lists the lane's occupants, in the order of the entity map. *)
Theorem congestion_events_by_occupancy
    (config : SimulatorConfig) (arr : list EntityState) (laneId : string) :
  congestionFor laneId (snd (WS.checkProximityEvents config arr))
  = if negb (String.eqb laneId "")
       && (0 <? length (occupants laneId arr))%nat
       && JS.ge (INR (length (occupants laneId arr)))
            (congestionThreshold config)
    then [mkEvent congestion (occupants laneId arr) laneId
            (PCongestion (length (occupants laneId arr))
               (congestionThreshold config))]
    else [].
Proof.
  assert (Hdistinct : forall p, In p (pairsOf (length arr)) -> fst p <> snd p).
  { intros [a b] Hp; apply pairsOf_spec in Hp; simpl; lia. }
  pose proof (pairs_invariant config arr (pairsOf (length arr)) Hdistinct)
    as Hinv.
  unfold WS.checkProximityEvents. rewrite collisionPass_pairs.
  destruct (fold_left (stepPair config) (pairsOf (length arr)) (arr, []))
    as [cur evs].
  simpl in Hinv; destruct Hinv as (Hlen & Hcur & Hevs). simpl snd.
  assert (Hocc : WS.laneOccupancy cur = WS.laneOccupancy arr).
  { apply laneOccupancy_keys; [exact Hlen|].
    intros k e Hk; eexists; split; [apply Hcur; exact Hk|].
    destruct (slowDown_iter_fields
                (hits config arr (pairsOf (length arr)) k) e)
      as (Hid & _ & _ & _ & _ & Hl & _).
    split; assumption. }
  unfold congestionFor at 1; rewrite filter_app.
  fold (congestionFor laneId evs).
  fold (congestionFor laneId
          (WS.congestionEvents config (WS.laneOccupancy cur))).
  rewrite Hevs, collision_events_not_congestion, Hocc; simpl app.
  rewrite congestionFor_events
    by (apply laneOccupancy_fold_NoDup; constructor).
  unfold WS.laneOccupancy.
  destruct (String.eqb_spec laneId "") as [->|Hne]; simpl negb.
  - rewrite occupancy_fold_get_empty; reflexivity.
  - rewrite (occupancy_fold_get arr [] laneId Hne).
    unfold idsOf; simpl map_get; simpl app.
    destruct (occupants laneId arr) as [|id ids]; [reflexivity|].
    simpl andb. reflexivity.
Qed.

(** With a threshold of 0 a lane nobody is on meets the threshold and gets no
    event; with a threshold of 1 an entity whose lane id is the empty string
    fills that lane and gets no event either. *)
Lemma congestion_iff_counterexample :
  ~ (congestionEmitted zeroThresholdConfig [] "L1"
     <-> meetsThreshold zeroThresholdConfig [] "L1")
  /\ ~ (congestionEmitted oneThresholdConfig [unnamedLaneEntity] ""
        <-> meetsThreshold oneThresholdConfig [unnamedLaneEntity] "").
Proof.
  split; intros [_ H].
  - assert (Hm : meetsThreshold zeroThresholdConfig [] "L1")
      by (unfold meetsThreshold; simpl; lra).
    destruct (H Hm) as (ev & Hin & _).
    change (snd (WS.checkProximityEvents zeroThresholdConfig []))
      with (@nil DTEvent) in Hin.
    exact Hin.
  - assert (Hm : meetsThreshold oneThresholdConfig [unnamedLaneEntity] "")
      by (unfold meetsThreshold; simpl; lra).
    destruct (H Hm) as (ev & Hin & _).
    change (snd (WS.checkProximityEvents oneThresholdConfig
                   [unnamedLaneEntity]))
      with (@nil DTEvent) in Hin.
    exact Hin.
Qed.

(** ** Lane lengths *)

Lemma segmentsLength_nonneg (pts : list LanePoint) :
  0 <= LN.segmentsLength pts.
Proof.
  destruct pts as [|p pts]; [simpl; lra|].
  revert p; induction pts as [|p2 rest IH]; intros p1; [simpl; lra|].
  change (0 <= LN.distance p1 p2 + LN.segmentsLength (p2 :: rest)).
  pose proof (sqrt_pos ((px p1 - px p2) ^ 2 + (py p1 - py p2) ^ 2)).
  specialize (IH p2). unfold LN.distance; lra.
Qed.

Lemma simulator_length_floored (lane : Lane) :
  1 <= WS.calculateLaneLength lane.
Proof. unfold WS.calculateLaneLength; apply Rmax_r. Qed.

Lemma simulator_length_same (lane : Lane) :
  1 <= LN.calculateLaneLength lane ->
  WS.calculateLaneLength lane = LN.calculateLaneLength lane.
Proof.
  intros H; unfold WS.calculateLaneLength, LN.calculateLaneLength in *.
  apply Rmax_left; exact H.
Qed.

Lemma distance_self (p : LanePoint) : LN.distance p p = 0.
Proof.
  unfold LN.distance.
  replace ((px p - px p) ^ 2 + (py p - py p) ^ 2) with 0 by ring.
  apply sqrt_0.
Qed.

(** ** Lane movement *)

Lemma endpoints_exist (lane : Lane) :
  points lane <> [] ->
  exists first last,
    LN.firstPoint lane = Some first /\ LN.lastPoint lane = Some last.
Proof.
  intros Hne; unfold LN.firstPoint, LN.lastPoint, JS.index.
  destruct (points lane) as [|p pts] eqn:E; [contradiction|].
  exists p.
  destruct (Z.ltb_spec (Z.of_nat (length (p :: pts)) - 1) 0) as [H|H];
    [simpl length in H; lia|].
  destruct (nth_error (p :: pts) (Z.to_nat (Z.of_nat (length (p :: pts)) - 1)))
    as [q|] eqn:Eq.
  - exists q; split; reflexivity.
  - apply nth_error_None in Eq. simpl length in *; lia.
Qed.

Lemma getPositionAtProgress_total (lane : Lane) (q : JS.xnum) :
  points lane <> [] ->
  exists pos, LN.getPositionAtProgress lane q = Ok pos.
Proof.
  intros Hne; destruct (endpoints_exist lane Hne) as (first & last & Hf & Hl).
  unfold LN.getPositionAtProgress; rewrite Hf, Hl.
  destruct (JS.xle q 0); [eauto|].
  destruct (JS.xge q 1); [eauto|].
  destruct q; simpl; eauto.
  destruct (_ >=? _)%Z; [eauto|].
  destruct (JS.index _ _); [|eauto].
  destruct (JS.index _ _); eauto.
Qed.

Lemma advanceAlongLane_total (net : LaneNetwork) (e : EntityState)
    (deltaTime : R) (cur : string) (lane : Lane) :
  currentLaneId e = Some cur -> LN.getLane net cur = Some lane ->
  points lane <> [] ->
  exists pos,
    LN.advanceAlongLane net e deltaTime
    = Ok (LN.mkAdvancement pos
            (LN.getHeadingAtProgress lane
               (JS.xmin 1 (LN.advancedProgress lane e deltaTime)))
            (JS.xge (JS.xmin 1 (LN.advancedProgress lane e deltaTime)) 1)).
Proof.
  intros Hc Hl Hne; unfold LN.advanceAlongLane; rewrite Hc, Hl.
  destruct (getPositionAtProgress_total lane
              (JS.xmin 1 (LN.advancedProgress lane e deltaTime)) Hne)
    as (pos & ->).
  exists pos; reflexivity.
Qed.

(** C2, at the failing input: the length [advanceAlongLane] divides by is the
    navigator's, which is 0 on a lane of coincident points, and the progress
    increment comes out as [Infinity] (the call then reports the end of the
    lane); only the simulator's own length is floored (at 1). *)
Theorem navigator_length_not_floored :
  LN.calculateLaneLength pointLane = 0
  /\ JS.div (speed pointWalker * 0.1) (LN.calculateLaneLength pointLane)
     = JS.XPosInf
  /\ LN.advancedProgress pointLane pointWalker 0.1 = JS.XPosInf
  /\ (exists adv,
        LN.advanceAlongLane pointNet pointWalker 0.1 = Ok adv
        /\ LN.reachedEnd adv = true)
  /\ WS.calculateLaneLength pointLane = 1.
Proof.
  assert (H0 : LN.calculateLaneLength pointLane = 0).
  { unfold LN.calculateLaneLength, pointLane.
    cbn [points LN.segmentsLength]. rewrite distance_self; lra. }
  assert (Hdiv : JS.div (speed pointWalker * 0.1)
                   (LN.calculateLaneLength pointLane) = JS.XPosInf).
  { rewrite H0; unfold JS.div; simpl.
    destruct (Req_dec_T 0 0) as [_|Hne]; [|contradiction].
    destruct (Rlt_dec 0 (1 * 0.1)) as [_|Hn]; [reflexivity | exfalso; lra]. }
  assert (Hinf : LN.advancedProgress pointLane pointWalker 0.1 = JS.XPosInf)
    by (unfold LN.advancedProgress; rewrite Hdiv; reflexivity).
  repeat split.
  - exact H0.
  - exact Hdiv.
  - exact Hinf.
  - destruct (advanceAlongLane_total pointNet pointWalker 0.1 "L0" pointLane)
      as (pos & Hadv); try reflexivity; [discriminate|].
    eexists; split; [exact Hadv|].
    cbn [LN.reachedEnd]. rewrite Hinf. cbn [JS.xmin JS.xge].
    apply ge_true; lra.
  - unfold WS.calculateLaneLength.
    change (LN.segmentsLength (points pointLane))
      with (LN.calculateLaneLength pointLane).
    rewrite H0; apply Rmax_right; lra.
Qed.

(** A property of the value of a computation, whatever the random source. *)
Lemma always_bind {A B : Type} (P : B -> Prop) (m : M A) (f : A -> M B) :
  (forall a g, P (fst (f a g))) -> forall g, P (fst (bind m f g)).
Proof. intros H g; unfold bind; destruct (m g) as [a g']; apply H. Qed.

Lemma bind_eval {A B : Type} (m : M A) (f : A -> M B) (g : Rng) :
  bind m f g = f (fst (m g)) (snd (m g)).
Proof. unfold bind; destruct (m g); reflexivity. Qed.

Section LaneMovementFacts.
Variable config : SimulatorConfig.
Variable net : LaneNetwork.

Lemma transition_resets_progress (e : EntityState) (g : Rng) (cur : string) :
  JS.truthy (currentLaneId e) = Some cur ->
  laneProgress (fst (WS.transitionToNextLane config net e g)) = 0.
Proof.
  intros Ht; unfold WS.transitionToNextLane; rewrite Ht.
  destruct (if (_ <? _)%Z then _ else _) as [e1 planned].
  set (P := fun x : EntityState => laneProgress x = 0).
  revert g; apply (always_bind P); intros nextLaneId.
  apply (always_bind P); intros [e3 next].
  apply (always_bind P); intros r.
  destruct (JS.lt r 0.3); [|intros g; reflexivity].
  apply (always_bind P); intros v g; reflexivity.
Qed.

Lemma transition_sets_lane (e : EntityState) (g : Rng) (cur : string) :
  JS.truthy (currentLaneId e) = Some cur ->
  exists next,
    currentLaneId (fst (WS.transitionToNextLane config net e g)) = Some next.
Proof.
  intros Ht; unfold WS.transitionToNextLane; rewrite Ht.
  destruct (if (_ <? _)%Z then _ else _) as [e1 planned].
  set (P := fun x : EntityState => exists next, currentLaneId x = Some next).
  revert g; apply (always_bind P); intros nextLaneId.
  apply (always_bind P); intros [e3 next].
  apply (always_bind P); intros r.
  destruct (JS.lt r 0.3); [|intros g; exists next; reflexivity].
  apply (always_bind P); intros v g; exists next; reflexivity.
Qed.

Lemma reset_progress (e : EntityState) (g : Rng) :
  e_type e <> forklift ->
  laneProgress (fst (WS.resetEntityToValidLane net e g)) = 0
  \/ laneProgress (fst (WS.resetEntityToValidLane net e g)) = laneProgress e.
Proof.
  intros Hty; unfold WS.resetEntityToValidLane.
  set (P := fun x : EntityState =>
              laneProgress x = 0 \/ laneProgress x = laneProgress e).
  destruct (e_type e); [contradiction| |];
    (revert g; apply (always_bind P); intros [lane|];
     [|intros g; right; reflexivity];
     destruct (LN.firstPoint lane) as [p0|]; [|intros g; right; reflexivity];
     apply (always_bind P); intros newRoute g; left; reflexivity).
Qed.

Lemma storedProgress_moved (e : EntityState) (deltaTime x y h : R) :
  WS.storedProgress net (WS.setHeading (WS.setPosition e x y) h) deltaTime
  = WS.storedProgress net e deltaTime.
Proof. reflexivity. Qed.

Lemma storedProgress_nonneg (e : EntityState) (deltaTime : R) :
  0 <= laneProgress e -> 0 <= speed e * deltaTime ->
  0 <= WS.storedProgress net e deltaTime.
Proof.
  intros Hp Hd; unfold WS.storedProgress.
  destruct (currentLaneId e) as [cur|]; [|exact Hp].
  destruct (LN.getLane net cur) as [lane|]; [|exact Hp].
  pose proof (simulator_length_floored lane) as Hlen.
  assert (0 <= speed e * deltaTime / WS.calculateLaneLength lane).
  { apply Rmult_le_pos; [exact Hd|].
    apply Rlt_le, Rinv_0_lt_compat; lra. }
  lra.
Qed.

(** What [updateLaneBasedMovement] leaves in [laneProgress] once
    [advanceAlongLane] has returned. *)
Lemma updateLane_progress (e : EntityState) (deltaTime : R) (g : Rng)
    (cur : string) (adv : LN.Advancement) :
  JS.truthy (currentLaneId e) = Some cur ->
  LN.advanceAlongLane net e deltaTime = Ok adv ->
  exists e',
    fst (WS.updateLaneBasedMovement config net e deltaTime g) = Ok e'
    /\ laneProgress e'
       = (if LN.reachedEnd adv
             || JS.ge (WS.storedProgress net e deltaTime) 1
          then 0 else WS.storedProgress net e deltaTime)
    /\ (LN.reachedEnd adv || JS.ge (WS.storedProgress net e deltaTime) 1
        = true ->
        exists next, currentLaneId e' = Some next).
Proof.
  intros Ht Hadv; unfold WS.updateLaneBasedMovement, JS.is_truthy.
  rewrite Ht, Hadv; cbn [negb].
  rewrite storedProgress_moved.
  set (e2 := WS.setLaneProgress _ (WS.storedProgress net e deltaTime)).
  assert (Htrig : WS.transitionTriggered adv e2
                  = LN.reachedEnd adv
                    || JS.ge (WS.storedProgress net e deltaTime) 1)
    by reflexivity.
  rewrite Htrig.
  destruct (LN.reachedEnd adv || JS.ge (WS.storedProgress net e deltaTime) 1).
  - rewrite bind_eval.
    pose proof (transition_resets_progress e2 g cur Ht) as H0.
    pose proof (transition_sets_lane e2 g cur Ht) as Hl.
    rewrite bind_eval. eexists; split; [reflexivity|].
    split; [exact H0 | intros _; exact Hl].
  - rewrite !bind_eval. eexists; split; [reflexivity|].
    split; [reflexivity | discriminate].
Qed.

End LaneMovementFacts.

Lemma updateEntity_lane (config : SimulatorConfig) (net : LaneNetwork)
    (now : R) (e : EntityState) (deltaTime : R) (g : Rng) :
  e_type e <> forklift ->
  fst (WS.updateEntity config net now e deltaTime g)
  = match fst (WS.updateLaneBasedMovement config net e deltaTime g) with
    | Ok e' =>
        WS.setZoneId e'
          (Some (WS.orUnknown
                   (Some (WS.getZoneFromPosition (e_x e') (e_y e')))))
    | Err _ =>
        fst (WS.resetEntityToValidLane net e
               (snd (WS.updateLaneBasedMovement config net e deltaTime g)))
    end.
Proof.
  intros Hty; unfold WS.updateEntity, WS.updateEntityBody.
  rewrite !bind_eval.
  destruct (e_type e); [contradiction| |];
    destruct (WS.updateLaneBasedMovement config net e deltaTime g)
      as [[e'|msg] g']; reflexivity.
Qed.

Lemma storedProgress_on (net : LaneNetwork) (e : EntityState)
    (deltaTime : R) (cur : string) (lane : Lane) :
  currentLaneId e = Some cur -> LN.getLane net cur = Some lane ->
  WS.storedProgress net e deltaTime
  = laneProgress e + speed e * deltaTime / WS.calculateLaneLength lane.
Proof.
  intros Hc Hl; unfold WS.storedProgress; rewrite Hc, Hl; reflexivity.
Qed.

Lemma ge_Rmin_one (a : R) : JS.ge (Rmin 1 a) 1 = JS.ge a 1.
Proof.
  destruct (JS.ge a 1) eqn:E.
  - apply ge_true in E; apply ge_true. rewrite Rmin_left; lra.
  - apply ge_false in E; apply ge_false. rewrite Rmin_right; lra.
Qed.

Lemma advancedProgress_finite (lane : Lane) (e : EntityState) (deltaTime : R) :
  LN.calculateLaneLength lane <> 0 ->
  LN.advancedProgress lane e deltaTime
  = JS.XFin (laneProgress e
             + speed e * deltaTime / LN.calculateLaneLength lane).
Proof.
  intros Hne; unfold LN.advancedProgress, JS.div.
  destruct (Req_dec_T (LN.calculateLaneLength lane) 0); [contradiction|].
  reflexivity.
Qed.

Lemma shortLane_length : LN.calculateLaneLength shortLane = 0.5.
Proof.
  unfold LN.calculateLaneLength, shortLane; cbn [points LN.segmentsLength].
  unfold LN.distance; cbn [px py].
  replace ((0 - 0.5) ^ 2 + (0 - 0) ^ 2) with (0.5 * 0.5) by lra.
  rewrite sqrt_square; lra.
Qed.

Lemma shortLane_floored : WS.calculateLaneLength shortLane = 1.
Proof.
  unfold WS.calculateLaneLength.
  change (LN.segmentsLength (points shortLane))
    with (LN.calculateLaneLength shortLane).
  rewrite shortLane_length; apply Rmax_right; lra.
Qed.

(** On the short lane the navigator reaches the end of the lane
    (0.85 + 0.1 / 0.5) while the entity's own progress, advanced over the
    floored length, is only 0.95. *)
Lemma transition_below_one_counterexample :
  ~ transitionExactlyAtOne shortNet shortWalker 0.1.
Proof.
  intros H.
  destruct (advanceAlongLane_total shortNet shortWalker 0.1 "S" shortLane)
    as (pos & Hadv); try reflexivity; [discriminate|].
  specialize (H _ Hadv).
  assert (Hstored : WS.storedProgress shortNet shortWalker 0.1 = 0.95).
  { rewrite (storedProgress_on shortNet shortWalker 0.1 "S" shortLane
               eq_refl eq_refl), shortLane_floored.
    simpl; lra. }
  rewrite Hstored in H.
  assert (Hend : JS.xge (JS.xmin 1 (LN.advancedProgress shortLane shortWalker
                                      0.1)) 1 = true).
  { rewrite advancedProgress_finite by (rewrite shortLane_length; lra).
    rewrite shortLane_length.
    cbn [JS.xmin JS.xge]. rewrite ge_Rmin_one. apply ge_true.
    simpl; lra. }
  assert (Htrig : WS.transitionTriggered
                    (LN.mkAdvancement pos
                       (LN.getHeadingAtProgress shortLane
                          (JS.xmin 1 (LN.advancedProgress shortLane
                                        shortWalker 0.1)))
                       (JS.xge (JS.xmin 1 (LN.advancedProgress shortLane
                                             shortWalker 0.1)) 1))
                    (WS.setLaneProgress shortWalker 0.95) = true).
  { unfold WS.transitionTriggered; cbn [LN.reachedEnd].
    rewrite Hend; reflexivity. }
  apply H in Htrig. lra.
Qed.

(** ** Snapping to the path network *)

Lemma clamp_unit (q : R) : 0 <= Rmax 0 (Rmin 1 q) <= 1.
Proof.
  split; [apply Rmax_l|].
  apply Rmax_lub; [lra | apply Rmin_l].
Qed.

Lemma zeroLength_false (segment : PV.PathSegment) :
  PV.zeroLength segment = false ->
  (px (PV.seg_end segment) - px (PV.seg_start segment))
  * (px (PV.seg_end segment) - px (PV.seg_start segment))
  + (py (PV.seg_end segment) - py (PV.seg_start segment))
    * (py (PV.seg_end segment) - py (PV.seg_start segment)) <> 0.
Proof. unfold PV.zeroLength; cbv zeta; apply eq_false. Qed.

(** The clamped projection of a point on a segment lies on that segment. *)
Lemma projection_on_segment (point : LanePoint) (segment : PV.PathSegment) :
  PV.zeroLength segment = false ->
  PV.distanceToLineSegment (PV.projection point segment)
    (PV.seg_start segment) (PV.seg_end segment) = 0.
Proof.
  intros Hz; apply zeroLength_false in Hz.
  unfold PV.distanceToLineSegment, PV.projection; cbv zeta; cbn [px py].
  set (sx := px (PV.seg_start segment)) in *.
  set (sy := py (PV.seg_start segment)) in *.
  set (C := px (PV.seg_end segment) - sx) in *.
  set (D := py (PV.seg_end segment) - sy) in *.
  set (t := Rmax 0 (Rmin 1 _)).
  pose proof (clamp_unit
                (((px point - sx) * C + (py point - sy) * D) / (C * C + D * D)))
    as Ht.
  fold t in Ht.
  rewrite (proj2 (eq_false _ _) Hz).
  replace (((sx + t * C - sx) * C + (sy + t * D - sy) * D) / (C * C + D * D))
    with t by (field; exact Hz).
  rewrite (proj2 (lt_false _ _)) by lra.
  rewrite (proj2 (gt_false _ _)) by lra.
  replace ((sx + t * C - (sx + t * C)) * (sx + t * C - (sx + t * C))
           + (sy + t * D - (sy + t * D)) * (sy + t * D - (sy + t * D)))
    with 0 by ring.
  apply sqrt_0.
Qed.

(** The distance [snapToNearestPath] compares is the distance
    [distanceToLineSegment] returns. *)
Lemma projectionDistance_eq (point : LanePoint) (segment : PV.PathSegment) :
  PV.zeroLength segment = false ->
  PV.projectionDistance point segment
  = PV.distanceToLineSegment point (PV.seg_start segment)
      (PV.seg_end segment).
Proof.
  intros Hz; apply zeroLength_false in Hz.
  unfold PV.projectionDistance, PV.distanceToLineSegment, PV.projection;
    cbv zeta; cbn [px py].
  set (sx := px (PV.seg_start segment)) in *.
  set (sy := py (PV.seg_start segment)) in *.
  set (C := px (PV.seg_end segment) - sx) in *.
  set (D := py (PV.seg_end segment) - sy) in *.
  set (q := ((px point - sx) * C + (py point - sy) * D) / (C * C + D * D)).
  rewrite (proj2 (eq_false _ _) Hz).
  destruct (JS.lt q 0) eqn:E0.
  - apply lt_true in E0.
    rewrite (Rmax_left 0 (Rmin 1 q))
      by (apply Rle_trans with q; [apply Rmin_r | lra]).
    f_equal; ring.
  - apply lt_false in E0. destruct (JS.gt q 1) eqn:E1.
    + apply gt_true in E1.
      rewrite (Rmin_left 1 q), (Rmax_right 0 1) by lra.
      f_equal; unfold C, D, sx, sy; ring.
    + apply gt_false in E1.
      rewrite (Rmin_right 1 q), (Rmax_right 0 q) by lra.
      f_equal; ring.
Qed.

Section SnapFacts.
Variable paths : list PV.PathSegment.

Lemma snapLoop_cases (point : LanePoint) :
  forall (ps : list PV.PathSegment) (closest : LanePoint) (m : R),
    (PV.snapLoop ps point closest m = closest
     /\ forall segment, In segment ps -> PV.zeroLength segment = false ->
          m <= PV.projectionDistance point segment)
    \/ (exists segment,
          In segment ps /\ PV.zeroLength segment = false
          /\ PV.snapLoop ps point closest m = PV.projection point segment
          /\ PV.projectionDistance point segment < m).
Proof.
  induction ps as [|s ps IH]; intros closest m; simpl.
  - left; split; [reflexivity | intros ? []].
  - destruct (PV.zeroLength s) eqn:Ez.
    + destruct (IH closest m) as [[Heq Hall]|(seg & Hin & Hz & Heq & Hlt)].
      * left; split; [exact Heq|].
        intros seg [<-|Hin] Hz; [congruence | auto].
      * right; exists seg; auto.
    + destruct (JS.lt (PV.projectionDistance point s) m) eqn:El.
      * apply lt_true in El.
        destruct (IH (PV.projection point s) (PV.projectionDistance point s))
          as [[Heq Hall]|(seg & Hin & Hz & Heq & Hlt)].
        -- right; exists s; auto.
        -- right; exists seg; repeat split; auto; lra.
      * apply lt_false in El.
        destruct (IH closest m) as [[Heq Hall]|(seg & Hin & Hz & Heq & Hlt)].
        -- left; split; [exact Heq|].
           intros seg [<-|Hin] Hz; [exact El | auto].
        -- right; exists seg; auto.
Qed.

Lemma snap_on_path (point : LanePoint) (maxDistance tolerance : R) :
  0 <= tolerance ->
  (exists segment,
      In segment paths /\ PV.zeroLength segment = false
      /\ PV.projectionDistance point segment < maxDistance) ->
  PV.isOnValidPathIn paths
    (PV.snapToNearestPathIn paths point maxDistance) tolerance = true.
Proof.
  intros Htol (s0 & Hin0 & Hz0 & Hlt0).
  unfold PV.snapToNearestPathIn.
  destruct (snapLoop_cases point paths point maxDistance)
    as [[_ Hall]|(seg & Hin & Hz & Heq & _)].
  - specialize (Hall s0 Hin0 Hz0); lra.
  - rewrite Heq. unfold PV.isOnValidPathIn. apply existsb_exists.
    exists seg; split; [exact Hin|].
    apply le_true. rewrite projection_on_segment by exact Hz. exact Htol.
Qed.

Lemma snap_unchanged (point : LanePoint) (maxDistance : R) :
  (forall segment,
      In segment paths -> PV.zeroLength segment = false ->
      maxDistance <= PV.projectionDistance point segment) ->
  PV.snapToNearestPathIn paths point maxDistance = point.
Proof.
  intros Hall; unfold PV.snapToNearestPathIn.
  destruct (snapLoop_cases point paths point maxDistance)
    as [[Heq _]|(seg & Hin & Hz & _ & Hlt)]; [exact Heq|].
  specialize (Hall seg Hin Hz); lra.
Qed.

End SnapFacts.

Lemma warehouse_paths_nonzero :
  forall segment,
    In segment PV.WAREHOUSE_PATHS -> PV.zeroLength segment = false.
Proof.
  intros segment Hin; unfold PV.WAREHOUSE_PATHS in Hin; simpl in Hin.
  repeat (destruct Hin as [<-|Hin];
          [unfold PV.zeroLength; cbv zeta; cbn [px py PV.seg_start PV.seg_end];
           apply eq_false; lra|]).
  contradiction.
Qed.

(** C3, as the code has it (in exact arithmetic): for a tolerance that is not
    negative, snapping a point that has a path segment closer than the snap
    distance lands on a valid path; a point with no segment that close is
    returned unchanged. *)
Theorem snap_lands_on_path_when_in_reach
    (point : LanePoint) (maxDistance tolerance : R) :
  0 <= tolerance ->
  ((exists segment,
       In segment PV.WAREHOUSE_PATHS
       /\ PV.distanceToLineSegment point (PV.seg_start segment)
            (PV.seg_end segment) < maxDistance) ->
   PV.isOnValidPath (PV.snapToNearestPath point maxDistance) tolerance = true)
  /\ ((forall segment,
          In segment PV.WAREHOUSE_PATHS ->
          maxDistance <= PV.distanceToLineSegment point (PV.seg_start segment)
                           (PV.seg_end segment)) ->
      PV.snapToNearestPath point maxDistance = point).
Proof.
  intros Htol; split.
  - intros (seg & Hin & Hlt).
    apply snap_on_path; [exact Htol|].
    exists seg; repeat split; auto using warehouse_paths_nonzero.
    rewrite projectionDistance_eq by auto using warehouse_paths_nonzero.
    exact Hlt.
  - intros Hall. apply snap_unchanged.
    intros seg Hin Hz. rewrite projectionDistance_eq by exact Hz. auto.
Qed.

Lemma snap_lands_on_path_when_in_reach_witness :
  0 <= 0.5
  /\ ((exists segment,
          In segment PV.WAREHOUSE_PATHS
          /\ PV.distanceToLineSegment (mkPoint 5 8) (PV.seg_start segment)
               (PV.seg_end segment) < 2) ->
      PV.isOnValidPath (PV.snapToNearestPath (mkPoint 5 8) 2) 0.5 = true)
  /\ ((forall segment,
          In segment PV.WAREHOUSE_PATHS ->
          2 <= PV.distanceToLineSegment (mkPoint 5 8) (PV.seg_start segment)
                 (PV.seg_end segment)) ->
      PV.snapToNearestPath (mkPoint 5 8) 2 = mkPoint 5 8).
Proof.
  assert (H : 0 <= 0.5) by lra.
  split; [exact H|].
  exact (snap_lands_on_path_when_in_reach (mkPoint 5 8) 2 0.5 H).
Defined.

(** Every path segment lies below [y = 19.5]. *)
Lemma warehouse_paths_below :
  forall segment,
    In segment PV.WAREHOUSE_PATHS ->
    py (PV.seg_start segment) <= 19.5 /\ py (PV.seg_end segment) <= 19.5.
Proof.
  intros segment Hin; unfold PV.WAREHOUSE_PATHS in Hin; simpl in Hin.
  repeat (destruct Hin as [<-|Hin]; [simpl; lra|]).
  contradiction.
Qed.

Lemma projectionDistance_above (point : LanePoint) (segment : PV.PathSegment)
    (top : R) :
  py (PV.seg_start segment) <= top -> py (PV.seg_end segment) <= top ->
  top <= py point ->
  py point - top <= PV.projectionDistance point segment.
Proof.
  intros Hs He Hp.
  unfold PV.projectionDistance, PV.projection; cbv zeta; cbn [px py].
  set (t := Rmax 0 (Rmin 1 _)).
  pose proof (clamp_unit
    (((px point - px (PV.seg_start segment))
      * (px (PV.seg_end segment) - px (PV.seg_start segment))
      + (py point - py (PV.seg_start segment))
        * (py (PV.seg_end segment) - py (PV.seg_start segment)))
     / ((px (PV.seg_end segment) - px (PV.seg_start segment))
        * (px (PV.seg_end segment) - px (PV.seg_start segment))
        + (py (PV.seg_end segment) - py (PV.seg_start segment))
          * (py (PV.seg_end segment) - py (PV.seg_start segment))))) as Ht.
  fold t in Ht.
  set (sy := py (PV.seg_start segment)) in *.
  set (ey := py (PV.seg_end segment)) in *.
  assert (Hy : sy + t * (ey - sy) <= top) by nra.
  apply sqrt_ge_bound; [lra|].
  set (dx := px point - _). 
  assert (0 <= dx ^ 2) by nra.
  assert ((py point - top) * (py point - top)
          <= (py point - (sy + t * (ey - sy))) ^ 2) by nra.
  lra.
Qed.

(** Read literally, the sentence fails on a point far from every path: with
    a snap distance of 1 the point (100, 100) is returned as it is, and it is
    not within 0.5 of any path. *)
Lemma snap_far_point_counterexample :
  ~ (forall (point : LanePoint) (tolerance maxDistance : R),
        tolerance <> 0 -> tolerance < maxDistance ->
        PV.isOnValidPath (PV.snapToNearestPath point maxDistance) tolerance
        = true).
Proof.
  intros H. specialize (H (mkPoint 100 100) 0.5 1).
  assert (Hfar : forall segment,
             In segment PV.WAREHOUSE_PATHS ->
             80.5 <= PV.projectionDistance (mkPoint 100 100) segment).
  { intros seg Hin. destruct (warehouse_paths_below seg Hin) as [Hs He].
    pose proof (projectionDistance_above (mkPoint 100 100) seg 19.5 Hs He)
      as Hb.
    simpl in Hb; lra. }
  assert (Hsnap : PV.snapToNearestPath (mkPoint 100 100) 1 = mkPoint 100 100).
  { apply snap_unchanged. intros seg Hin _. specialize (Hfar seg Hin); lra. }
  rewrite Hsnap in H.
  assert (Hoff : PV.isOnValidPath (mkPoint 100 100) 0.5 = false).
  { unfold PV.isOnValidPath, PV.isOnValidPathIn.
    apply not_true_iff_false; intros Hex; apply existsb_exists in Hex.
    destruct Hex as (seg & Hin & Hle). apply le_true in Hle.
    rewrite <- projectionDistance_eq in Hle
      by (apply warehouse_paths_nonzero; exact Hin).
    specialize (Hfar seg Hin); lra. }
  rewrite Hoff in H. 
  assert (Ht : false = true) by (apply H; lra).
  discriminate.
Qed.

(** ** Recovery from a failed update *)

Lemma generateRandomRoute_hd (conns : LN.ConnMap) (startLaneId : string)
    (len : nat) (g : Rng) :
  hd_error (fst (LN.generateRandomRoute conns startLaneId len g))
  = Some startLaneId.
Proof.
  unfold LN.generateRandomRoute.
  change [startLaneId] with ([] ++ [startLaneId]).
  apply (routeLoop_preserves conns (fun r => hd_error r = Some startLaneId)).
  - intros pre cur next H _; apply hd_hop; exact H.
  - reflexivity.
Qed.

Section RecoveryFacts.
Variable config : SimulatorConfig.
Variable net : LaneNetwork.

Lemma setPathLineTarget_id (e : EntityState) (lines : list WS.PathLine)
    (g : Rng) :
  e_id (fst (WS.setPathLineTarget e lines g)) = e_id e.
Proof.
  unfold WS.setPathLineTarget.
  destruct (WS.getCurrentPathLine e lines) as [[y xs xe|x ys ye]|];
    [| |reflexivity];
    rewrite !bind_eval; reflexivity.
Qed.

Lemma updateForklift_id (now : R) (e : EntityState) (deltaTime : R) (g : Rng) :
  e_id (fst (WS.updateForkliftGridMovement now e deltaTime g)) = e_id e.
Proof.
  unfold WS.updateForkliftGridMovement.
  destruct (negb (WS.isOnStrictPath e WS.pathLines)).
  - rewrite setPathLineTarget_id; reflexivity.
  - rewrite bind_eval.
    set (m := match targetPosition e with Some _ => _ | None => _ end).
    assert (Hm : e_id (fst (m g)) = e_id e).
    { unfold m; destruct (targetPosition e) as [t|];
        [destruct (WS.hasReachedTarget e t)|];
        try apply setPathLineTarget_id; reflexivity. }
    cbn [ret fst]. rewrite <- Hm.
    destruct (targetPosition (fst (m g))) as [t|]; [|reflexivity].
    destruct (JS.gt _ 0.05); reflexivity.
Qed.

Lemma transition_id (e : EntityState) (g : Rng) :
  e_id (fst (WS.transitionToNextLane config net e g)) = e_id e.
Proof.
  unfold WS.transitionToNextLane.
  destruct (JS.truthy (currentLaneId e)) as [cur|]; [|reflexivity].
  destruct (if (_ <? _)%Z then _ else _) as [e1 planned] eqn:E1.
  assert (H1 : e_id e1 = e_id e).
  { destruct (_ <? _)%Z; injection E1 as <- _; reflexivity. }
  rewrite <- H1.
  set (P := fun x : EntityState => e_id x = e_id e1).
  revert g; apply (always_bind P); intros nextLaneId.
  intros g. rewrite bind_eval.
  set (st := fst (_ g)).
  assert (Hst : e_id (fst st) = e_id e1).
  { unfold st. destruct (JS.truthy nextLaneId); [reflexivity|].
    rewrite bind_eval; reflexivity. }
  destruct st as [e3 next]; simpl in Hst.
  rewrite bind_eval. destruct (JS.lt _ 0.3); [|exact Hst].
  unfold WS.randomSpeed; rewrite !bind_eval; exact Hst.
Qed.

Lemma updateLane_id (e : EntityState) (deltaTime : R) (g : Rng) :
  match fst (WS.updateLaneBasedMovement config net e deltaTime g) with
  | Ok e' => e_id e' = e_id e
  | Err _ => True
  end.
Proof.
  unfold WS.updateLaneBasedMovement.
  destruct (negb (JS.is_truthy (currentLaneId e))); [reflexivity|].
  destruct (LN.advanceAlongLane net e deltaTime) as [adv|msg];
    [|exact I].
  rewrite !bind_eval; cbn [ret fst].
  destruct (WS.transitionTriggered adv _); [|reflexivity].
  cbn [e_id WS.setSpeed]. rewrite transition_id; reflexivity.
Qed.

Lemma reset_id (e : EntityState) (g : Rng) :
  e_id (fst (WS.resetEntityToValidLane net e g)) = e_id e.
Proof.
  unfold WS.resetEntityToValidLane.
  set (P := fun x : EntityState => e_id x = e_id e).
  destruct (e_type e);
    [rewrite bind_eval; reflexivity | |];
    (revert g; apply (always_bind P); intros [lane|];
     [|intros g; reflexivity];
     destruct (LN.firstPoint lane) as [p0|]; [|intros g; reflexivity];
     apply (always_bind P); intros newRoute g; reflexivity).
Qed.

Lemma updateEntity_id (now : R) (e : EntityState) (deltaTime : R) (g : Rng) :
  e_id (fst (WS.updateEntity config net now e deltaTime g)) = e_id e.
Proof.
  unfold WS.updateEntity, WS.updateEntityBody. rewrite !bind_eval.
  destruct (e_type e).
  - rewrite bind_eval; cbn [ret fst snd e_id WS.setZoneId].
    apply updateForklift_id.
  - pose proof (updateLane_id e deltaTime g) as H.
    destruct (WS.updateLaneBasedMovement config net e deltaTime g)
      as [[e'|msg] g']; cbn [ret fst snd] in *;
      [exact H | apply reset_id].
  - pose proof (updateLane_id e deltaTime g) as H.
    destruct (WS.updateLaneBasedMovement config net e deltaTime g)
      as [[e'|msg] g']; cbn [ret fst snd] in *;
      [exact H | apply reset_id].
Qed.

Lemma generateRandomEvent_id (now : R) (e : EntityState) (g : Rng) :
  e_id (fst (fst (WS.generateRandomEvent now e g))) = e_id e.
Proof.
  unfold WS.generateRandomEvent.
  destruct (JS.lt (now - lastEventTime e) 30000); [reflexivity|].
  rewrite bind_eval.
  destruct (fst (randomElement _ g)); [|reflexivity].
  unfold WS.generateEventReason; rewrite !bind_eval; reflexivity.
Qed.

Lemma tickLoop_ids (now : R) (todo : list EntityState) :
  forall g,
    map e_id (fst (fst (fst (WS.tickLoop config net now todo g))))
    = map e_id todo
    /\ map WS.tick_id (snd (fst (fst (WS.tickLoop config net now todo g))))
       = map e_id todo.
Proof.
  induction todo as [|e todo IH]; intros g; [split; reflexivity|].
  cbn [WS.tickLoop]. rewrite !bind_eval.
  set (g1 := snd (WS.updateEntity config net now e _ g)).
  set (e1 := fst (WS.updateEntity config net now e _ g)).
  assert (H1 : e_id e1 = e_id e) by apply updateEntity_id.
  set (gen := if JS.lt _ _ then _ else _).
  set (g3 := snd (random (snd (random g1)))).
  assert (H2 : e_id (fst (fst (gen g3))) = e_id e).
  { unfold gen; destruct (JS.lt _ _);
      [rewrite generateRandomEvent_id|]; exact H1. }
  destruct (fst (gen g3)) as [e2 event] eqn:Egen; simpl in H2.
  rewrite bind_eval.
  destruct (IH (snd (gen g3))) as [IHa IHp].
  destruct (fst (WS.tickLoop config net now todo (snd (gen g3))))
    as [[arr positions] events].
  cbn [ret fst snd map WS.tick_id] in *.
  rewrite IHa, IHp, H1, H2. split; reflexivity.
Qed.

Lemma tickLoop_reports (now : R) (todo : list EntityState) :
  forall g,
    Forall2 (reports config net now) todo
      (snd (fst (fst (WS.tickLoop config net now todo g)))).
Proof.
  induction todo as [|e todo IH]; intros g; [constructor|].
  cbn [WS.tickLoop]. rewrite !bind_eval.
  set (g1 := snd (WS.updateEntity config net now e _ g)).
  set (gen := if JS.lt _ _ then _ else _).
  set (g3 := snd (random (snd (random g1)))).
  destruct (fst (gen g3)) as [e2 event].
  rewrite bind_eval.
  specialize (IH (snd (gen g3))).
  destruct (fst (WS.tickLoop config net now todo (snd (gen g3))))
    as [[arr positions] events].
  cbn [ret fst snd] in *.
  constructor; [|exact IH].
  exists g; cbn [WS.tick_id WS.tick_type WS.tick_x WS.tick_y WS.tick_speed
                 WS.tick_heading].
  repeat split; try reflexivity. apply updateEntity_id.
Qed.

End RecoveryFacts.

(** Where an exception of the [try] block comes from: the lane-mode update
    of an entity whose lane the network does not have or has without points,
    before anything was drawn or written. *)
Lemma updateEntityBody_throws (config : SimulatorConfig) (net : LaneNetwork)
    (now : R) (e : EntityState) (deltaTime : R) (g g' : Rng) (msg : string) :
  WS.updateEntityBody config net now e deltaTime g = (Err msg, g') ->
  g' = g /\ e_type e <> forklift
  /\ exists cur,
       JS.truthy (currentLaneId e) = Some cur
       /\ (LN.getLane net cur = None
           \/ exists lane, LN.getLane net cur = Some lane /\ points lane = []).
Proof.
  unfold WS.updateEntityBody. rewrite bind_eval.
  assert (Hlane :
    (let m := WS.updateLaneBasedMovement config net e deltaTime in
     match fst (m g) with
     | Ok e' =>
         ret (Ok (WS.setZoneId e'
                    (Some (WS.orUnknown
                             (Some (WS.getZoneFromPosition (e_x e')
                                      (e_y e')))))))
     | Err msg0 => ret (Err msg0)
     end (snd (m g))) = (Err msg, g') ->
    g' = g
    /\ exists cur,
         JS.truthy (currentLaneId e) = Some cur
         /\ (LN.getLane net cur = None
             \/ exists lane,
                  LN.getLane net cur = Some lane /\ points lane = [])).
  { cbv zeta. unfold WS.updateLaneBasedMovement, JS.is_truthy.
    destruct (JS.truthy (currentLaneId e)) as [cur|] eqn:Ht;
      cbn [negb]; [|discriminate].
    destruct (LN.advanceAlongLane net e deltaTime) as [adv|msg0] eqn:Hadv.
    - rewrite !bind_eval; discriminate.
    - cbn [ret fst snd]. intros [= _ <-]. split; [reflexivity|].
      exists cur; split; [reflexivity|].
      destruct (truthy_Some _ _ Ht) as [Hcur _].
      destruct (LN.getLane net cur) as [lane|] eqn:Hlane; [|left; reflexivity].
      right; exists lane; split; [reflexivity|].
      destruct (points lane) as [|p pts] eqn:Hpts; [reflexivity|].
      exfalso.
      destruct (advanceAlongLane_total net e deltaTime cur lane Hcur Hlane)
        as (pos & Hok); [rewrite Hpts; discriminate|].
      rewrite Hok in Hadv; discriminate. }
  destruct (e_type e) eqn:Hty.
  - rewrite bind_eval; discriminate.
  - intros H; destruct (Hlane H) as [Hg Hc].
    split; [exact Hg|]. split; [discriminate | exact Hc].
  - intros H; destruct (Hlane H) as [Hg Hc].
    split; [exact Hg|]. split; [discriminate | exact Hc].
Qed.

Lemma checkProximity_ids (config : SimulatorConfig) (arr : list EntityState) :
  map e_id (fst (WS.checkProximityEvents config arr)) = map e_id arr.
Proof.
  assert (Hdistinct : forall p, In p (pairsOf (length arr)) -> fst p <> snd p).
  { intros [a b] Hp; apply pairsOf_spec in Hp; simpl; lia. }
  pose proof (pairs_invariant config arr (pairsOf (length arr)) Hdistinct)
    as Hinv.
  unfold WS.checkProximityEvents. rewrite collisionPass_pairs.
  destruct (fold_left (stepPair config) (pairsOf (length arr)) (arr, []))
    as [cur evs].
  simpl in Hinv; destruct Hinv as (Hlen & Hcur & _). simpl fst.
  apply nth_error_ext; intros k. rewrite !nth_error_map.
  destruct (nth_error arr k) as [e|] eqn:E.
  - rewrite (Hcur k e E); simpl.
    destruct (slowDown_iter_fields
                (hits config arr (pairsOf (length arr)) k) e) as (-> & _).
    reflexivity.
  - assert (Hnone : nth_error cur k = None)
      by (apply nth_error_None; rewrite Hlen; apply nth_error_None, E).
    rewrite Hnone; reflexivity.
Qed.

(** C8, as the code has it: an exception raised while one entity is updated
    (it can only come from the lane-mode update, on a lane the network lacks
    or has without points, before the entity was written to) is answered by
    the reset of that entity; the reset leaves a grid-mode entity on one of
    the fixed grid positions with its target cleared; for a lane-mode entity
    it draws a lane from the network and, when the lane drawn has a point,
    leaves the entity at the first point of that lane, with progress 0 and
    a new route generated from that lane, and when the network has no lane
    or the lane drawn has no point it leaves the entity as it was; and the
    tick runs [updateEntity] on every entity and reports what it made of it,
    whatever happened to the others. *)
Theorem entity_errors_are_contained
    (config : SimulatorConfig) (net : LaneNetwork) (now : R) :
  (forall e deltaTime g msg g',
      WS.updateEntityBody config net now e deltaTime g = (Err msg, g') ->
      WS.updateEntity config net now e deltaTime g
      = WS.resetEntityToValidLane net e g
      /\ e_type e <> forklift
      /\ exists cur,
           JS.truthy (currentLaneId e) = Some cur
           /\ (LN.getLane net cur = None
               \/ exists lane,
                    LN.getLane net cur = Some lane /\ points lane = []))
  /\ (forall e g,
        e_type e = forklift ->
        In (mkPoint (e_x (fst (WS.resetEntityToValidLane net e g)))
                    (e_y (fst (WS.resetEntityToValidLane net e g))))
           (WS.safePosition :: WS.gridPositions)
        /\ targetPosition (fst (WS.resetEntityToValidLane net e g)) = None)
  /\ (forall e g,
        e_type e <> forklift -> rng_ok g ->
        (lanes net = [] -> fst (WS.resetEntityToValidLane net e g) = e)
        /\ (lanes net <> [] ->
            exists lane,
              In lane (lanes net)
              /\ fst (randomElement (lanes net) g) = Some lane
              /\ (points lane = [] ->
                  fst (WS.resetEntityToValidLane net e g) = e)
              /\ (points lane <> [] ->
                  exists p0,
                    LN.firstPoint lane = Some p0
                    /\ currentLaneId (fst (WS.resetEntityToValidLane net e g))
                       = Some (lane_id lane)
                    /\ e_x (fst (WS.resetEntityToValidLane net e g)) = px p0
                    /\ e_y (fst (WS.resetEntityToValidLane net e g)) = py p0
                    /\ laneProgress (fst (WS.resetEntityToValidLane net e g))
                       = 0
                    /\ routeIndex (fst (WS.resetEntityToValidLane net e g))
                       = 0%nat
                    /\ route (fst (WS.resetEntityToValidLane net e g))
                       = fst (LN.generateRandomRoute (WS.conns net)
                               (lane_id lane) 5 (snd (random g)))
                    /\ hd_error
                         (route (fst (WS.resetEntityToValidLane net e g)))
                       = Some (lane_id lane))))
  /\ (forall arr g,
        Forall2 (reports config net now) arr
          (snd (fst (fst (WS.tick config net now arr g))))
        /\ map e_id (fst (fst (fst (WS.tick config net now arr g))))
           = map e_id arr).
Proof.
  split; [|split; [|split]].
  - intros e deltaTime g msg g' Hbody.
    destruct (updateEntityBody_throws config net now e deltaTime g g' msg
                Hbody) as (Hg & Hty & Hcause).
    split; [|split; assumption].
    unfold WS.updateEntity. rewrite bind_eval, Hbody, Hg. reflexivity.
  - intros e g Hty. unfold WS.resetEntityToValidLane; rewrite Hty.
    rewrite bind_eval; cbn [ret fst e_x e_y targetPosition WS.setSpeed
                              WS.setTargetPosition WS.setPosition].
    split; [|reflexivity].
    set (k := JS.floor _).
    destruct (0 <? length WS.gridPositions)%nat; [|left; reflexivity].
    destruct ((k >=? 0)%Z && (k <? Z.of_nat (length WS.gridPositions))%Z);
      [|left; reflexivity].
    destruct (JS.index WS.gridPositions k) as [p|] eqn:E;
      [|left; reflexivity].
    right. apply index_In in E. destruct p; exact E.
  - intros e g Hty Hg. split.
    + intros Hnil. unfold WS.resetEntityToValidLane, LN.getAllLanes.
      rewrite Hnil.
      assert (Hpick : fst (randomElement (@nil Lane) g) = None).
      { destruct (fst (randomElement (@nil Lane) g)) as [a|] eqn:E;
          [|reflexivity].
        destruct (randomElement_In _ _ _ E). }
      destruct (e_type e); [contradiction| |];
        rewrite bind_eval, Hpick; reflexivity.
    + intros Hne.
      destruct (randomElement_Some (LN.getAllLanes net) g Hg Hne)
        as (lane & Hpick & Hin).
      exists lane. split; [exact Hin|]. split; [exact Hpick|]. split.
      * intros Hnil. unfold WS.resetEntityToValidLane.
        assert (Hp0 : LN.firstPoint lane = None)
          by (unfold LN.firstPoint; rewrite Hnil; reflexivity).
        destruct (e_type e); [contradiction| |];
          rewrite bind_eval, Hpick, Hp0; reflexivity.
      * intros Hpt. unfold WS.resetEntityToValidLane.
        destruct (endpoints_exist lane Hpt) as (p0 & q & Hp0 & _).
        exists p0.
        destruct (e_type e); [contradiction| |];
          rewrite bind_eval, Hpick, Hp0, bind_eval;
          cbn [ret fst];
          repeat split; auto; apply generateRandomRoute_hd.
  - intros arr g. unfold WS.tick. rewrite bind_eval.
    destruct (tickLoop_ids config net now arr g) as [Ha _].
    pose proof (tickLoop_reports config net now arr g) as Hr.
    destruct (fst (WS.tickLoop config net now arr g))
      as [[arr1 positions] events].
    pose proof (checkProximity_ids config arr1) as Hc.
    destruct (WS.checkProximityEvents config arr1) as [arr2 proximity].
    cbn [ret fst snd] in *. rewrite Hc, Ha. split; [exact Hr | reflexivity].
Qed.

Lemma entity_errors_are_contained_witness :
  WS.updateEntityBody scenarioConfig shortNet 0 strayWalker 0.1 (fun _ => 0)
  = (Err "Lane not found: Z", fun _ => 0)
  /\ WS.updateEntity scenarioConfig shortNet 0 strayWalker 0.1 (fun _ => 0)
     = WS.resetEntityToValidLane shortNet strayWalker (fun _ => 0)
  /\ rng_ok (fun _ => 0)
  /\ lanes shortNet <> []
  /\ atLaneStart shortNet
       (fst (WS.resetEntityToValidLane shortNet strayWalker (fun _ => 0))).
Proof.
  assert (Hbody : WS.updateEntityBody scenarioConfig shortNet 0 strayWalker
                    0.1 (fun _ => 0)
                  = (Err "Lane not found: Z", fun _ => 0)) by reflexivity.
  assert (Hty : e_type strayWalker <> forklift) by discriminate.
  assert (Hg : rng_ok (fun _ => 0)) by (intros n; lra).
  assert (Hne : lanes shortNet <> []) by discriminate.
  destruct (entity_errors_are_contained scenarioConfig shortNet 0)
    as (Hcatch & _ & Hlane & _).
  split; [exact Hbody|].
  split; [exact (proj1 (Hcatch _ _ _ _ _ Hbody))|].
  split; [exact Hg|]. split; [exact Hne|].
  destruct (proj2 (Hlane strayWalker (fun _ => 0) Hty Hg) Hne)
    as (lane & Hin & _ & _ & Hplaced).
  assert (Hpt : points lane <> [])
    by (destruct Hin as [<-|[]]; discriminate).
  destruct (Hplaced Hpt) as (p0 & Hp0 & Hc & Hx & Hy & Hp & Hi & _ & Hr).
  exists lane, p0. repeat split; assumption.
Defined.

Lemma generateRandomRoute_no_immediate_backtrack_witness :
  let m := LN.buildLaneConnections returnNet in
  let r := fst (LN.generateRandomRoute m "B" 4 (fun _ => 0)) in
  (forall k a b c,
      nth_error r k = Some a -> nth_error r (S k) = Some b ->
      nth_error r (S (S k)) = Some c ->
      (exists x, In x (LN.connectionsGet m b) /\ x <> a) -> c <> a)
  /\ (forall k a b c,
        nth_error r k = Some a -> nth_error r (S k) = Some b ->
        nth_error r (S (S k)) = Some c -> c = a ->
        forall x, In x (LN.connectionsGet m b) -> x = a)
  /\ (forall k a,
        nth_error r k = Some a -> LN.connectionsGet m a = [] ->
        S k = length r).
Proof.
  exact (generateRandomRoute_no_immediate_backtrack returnNet "B" 4
           (fun _ => 0)).
Defined.

(** * Further properties of the navigator *)

(** ** The lane graph *)

Lemma distance_sym (p q : LanePoint) : LN.distance p q = LN.distance q p.
Proof. unfold LN.distance; f_equal; ring. Qed.

Lemma touching_sym (a b : Lane) : touching a b -> touching b a.
Proof.
  intros (sa & ea & sb & eb & H1 & H2 & H3 & H4 & H).
  exists sb, eb, sa, ea. repeat split; try assumption.
  rewrite (distance_sym sb sa), (distance_sym sb ea),
    (distance_sym eb sa), (distance_sym eb ea). tauto.
Qed.

Lemma connectionsOf_spec (self : string) (s e : LanePoint)
    (others : list Lane) (b : string) :
  In b (LN.connectionsOf self s e others) <->
  exists lb sb eb,
    In lb others /\ lane_id lb = b /\ b <> self
    /\ LN.firstPoint lb = Some sb /\ LN.lastPoint lb = Some eb
    /\ (LN.distance s sb < LN.connectionRadius
        \/ LN.distance s eb < LN.connectionRadius
        \/ LN.distance e sb < LN.connectionRadius
        \/ LN.distance e eb < LN.connectionRadius).
Proof.
  induction others as [|o others IH]; simpl.
  - split; [intros [] | intros (lb & _ & _ & [] & _)].
  - assert (Hrest : (exists lb sb eb,
               In lb others /\ lane_id lb = b /\ b <> self
               /\ LN.firstPoint lb = Some sb /\ LN.lastPoint lb = Some eb
               /\ (LN.distance s sb < LN.connectionRadius
                   \/ LN.distance s eb < LN.connectionRadius
                   \/ LN.distance e sb < LN.connectionRadius
                   \/ LN.distance e eb < LN.connectionRadius))
             -> exists lb sb eb,
               (o = lb \/ In lb others) /\ lane_id lb = b /\ b <> self
               /\ LN.firstPoint lb = Some sb /\ LN.lastPoint lb = Some eb
               /\ (LN.distance s sb < LN.connectionRadius
                   \/ LN.distance s eb < LN.connectionRadius
                   \/ LN.distance e sb < LN.connectionRadius
                   \/ LN.distance e eb < LN.connectionRadius)).
    { intros (lb & sb & eb & Hin & H); exists lb, sb, eb; tauto. }
    destruct (String.eqb_spec self (lane_id o)) as [Hself|Hself].
    + rewrite IH; split; [exact Hrest|].
      intros (lb & sb & eb & [<-|Hin] & Hid & Hne & H).
      * congruence.
      * exists lb, sb, eb; tauto.
    + destruct (LN.firstPoint o) as [os|] eqn:Ef.
      2:{ rewrite IH; split; [exact Hrest|].
          intros (lb & sb & eb & [<-|Hin] & Hid & Hne & Hf & H);
            [congruence | exists lb, sb, eb; tauto]. }
      destruct (LN.lastPoint o) as [oe|] eqn:El.
      2:{ rewrite IH; split; [exact Hrest|].
          intros (lb & sb & eb & [<-|Hin] & Hid & Hne & Hf & Hl & H);
            [congruence | exists lb, sb, eb; tauto]. }
      destruct (JS.lt (LN.distance s os) LN.connectionRadius
                || JS.lt (LN.distance s oe) LN.connectionRadius
                || JS.lt (LN.distance e os) LN.connectionRadius
                || JS.lt (LN.distance e oe) LN.connectionRadius) eqn:Ec.
      * simpl; rewrite IH; split.
        -- intros [<-|H]; [|apply Hrest; exact H].
           exists o, os, oe. repeat split; auto.
           rewrite !orb_true_iff, !lt_true in Ec; tauto.
        -- intros (lb & sb & eb & [<-|Hin] & Hid & Hne & H);
             [left; exact Hid | right; exists lb, sb, eb; tauto].
      * rewrite IH; split; [exact Hrest|].
        intros (lb & sb & eb & [<-|Hin] & Hid & Hne & Hf & Hl & H);
          [|exists lb, sb, eb; tauto].
        exfalso. rewrite Ef in Hf; rewrite El in Hl.
        injection Hf as <-; injection Hl as <-.
        rewrite !orb_false_iff, !lt_false in Ec. lra.
Qed.

(** Where the entries of the built map come from. *)
Lemma buildLoop_entries (all todo : list Lane) :
  forall (acc : LN.ConnMap) (k : string) (v : list string),
    In (k, v) (LN.buildLoop all todo acc) ->
    In (k, v) acc
    \/ exists lane s e,
         In lane todo /\ lane_id lane = k
         /\ LN.firstPoint lane = Some s /\ LN.lastPoint lane = Some e
         /\ v = LN.connectionsOf k s e all.
Proof.
  induction todo as [|lane todo IH]; intros acc k v Hin; simpl in Hin.
  - left; exact Hin.
  - assert (Hlift : (exists l s e,
               In l todo /\ lane_id l = k
               /\ LN.firstPoint l = Some s /\ LN.lastPoint l = Some e
               /\ v = LN.connectionsOf k s e all)
             -> exists l s e,
               In l (lane :: todo) /\ lane_id l = k
               /\ LN.firstPoint l = Some s /\ LN.lastPoint l = Some e
               /\ v = LN.connectionsOf k s e all).
    { intros (l & s & e & Hl & H); exists l, s, e; split; [right|]; tauto. }
    destruct (LN.firstPoint lane) as [s|] eqn:Ef;
      [|destruct (IH _ _ _ Hin) as [H|H]; [left; exact H | right; auto]].
    destruct (LN.lastPoint lane) as [e|] eqn:El;
      [|destruct (IH _ _ _ Hin) as [H|H]; [left; exact H | right; auto]].
    destruct (IH _ _ _ Hin) as [H|H]; [|right; auto].
    clear Hin IH Hlift.
    assert (Hset : forall (m : LN.ConnMap) k0 v0,
               In (k, v) (map_set m k0 v0) ->
               In (k, v) m \/ (k = k0 /\ v = v0)).
    { induction m as [|[k1 v1] m IHm]; intros k0 v0; simpl.
      - intros [[= -> ->]|[]]; right; auto.
      - destruct (String.eqb k1 k0); simpl.
        + intros [[= -> ->]|Hm]; [right; auto | left; right; exact Hm].
        + intros [Hm|Hm]; [left; left; exact Hm|].
          destruct (IHm _ _ Hm) as [Hm'|Hm']; [left; right|right]; auto. }
    destruct (Hset _ _ _ H) as [Hacc|[-> ->]]; [left; exact Hacc|].
    right; exists lane, s, e. repeat split; auto. left; reflexivity.
Qed.

Lemma buildLoop_other (all todo : list Lane) :
  forall (acc : LN.ConnMap) (a : string),
    ~ In a (map lane_id todo) ->
    map_get (LN.buildLoop all todo acc) a = map_get acc a.
Proof.
  induction todo as [|lane todo IH]; intros acc a Hnot; simpl;
    [reflexivity|].
  assert (Hrest : ~ In a (map lane_id todo))
    by (intros H; apply Hnot; right; exact H).
  assert (Hne : a <> lane_id lane)
    by (intros ->; apply Hnot; left; reflexivity).
  destruct (LN.firstPoint lane), (LN.lastPoint lane);
    rewrite IH by exact Hrest; try reflexivity.
  apply map_get_set_other; exact Hne.
Qed.

Lemma buildLoop_own (all todo : list Lane) :
  forall (acc : LN.ConnMap) (lane : Lane) (s e : LanePoint),
    NoDup (map lane_id todo) -> In lane todo ->
    LN.firstPoint lane = Some s -> LN.lastPoint lane = Some e ->
    map_get (LN.buildLoop all todo acc) (lane_id lane)
    = Some (LN.connectionsOf (lane_id lane) s e all).
Proof.
  induction todo as [|l todo IH]; intros acc lane s e Hnd Hin Hf Hl;
    [contradiction|].
  inversion Hnd as [|? ? Hnotin Hnd']; subst. simpl.
  destruct Hin as [->|Hin].
  - rewrite Hf, Hl, buildLoop_other by exact Hnotin.
    apply map_get_set_same.
  - destruct (LN.firstPoint l), (LN.lastPoint l); apply IH; assumption.
Qed.

Lemma connectionsGet_entry (m : LN.ConnMap) (a b : string) :
  In b (LN.connectionsGet m a) ->
  exists v, map_get m a = Some v /\ In b v.
Proof.
  unfold LN.connectionsGet; destruct (map_get m a) as [v|];
    [eauto | contradiction].
Qed.

Lemma connections_origin (net : LaneNetwork) (a b : string) :
  In b (LN.connectionsGet (LN.buildLaneConnections net) a) ->
  a <> b
  /\ (exists la, In la (lanes net) /\ lane_id la = a /\ points la <> [])
  /\ (exists lb, In lb (lanes net) /\ lane_id lb = b /\ points lb <> []).
Proof.
  intros H. destruct (connectionsGet_entry _ _ _ H) as (v & Hget & Hb).
  apply map_get_In in Hget.
  destruct (buildLoop_entries (lanes net) (lanes net) [] a v Hget)
    as [[]|(la & s & e & Hla & Hid & Hf & Hl & ->)].
  apply connectionsOf_spec in Hb.
  destruct Hb as (lb & sb & eb & Hlb & Hidb & Hne & Hfb & Hlb' & _).
  assert (Hpts : forall l p, LN.firstPoint l = Some p -> points l <> []).
  { intros l p Hp Hnil; unfold LN.firstPoint in Hp; rewrite Hnil in Hp.
    discriminate. }
  split; [congruence|]. split.
  - exists la; repeat split; eauto.
  - exists lb; repeat split; eauto.
Qed.

(** X1: whatever the network, a lane never lists itself as a connection, and
    every connection recorded for a lane id is the id of another lane of the
    network that has points, recorded for the id of a lane that has points. *)
Theorem connections_are_other_lanes
    (net : LaneNetwork) (a b : string) :
  In b (LN.connectionsGet (LN.buildLaneConnections net) a) ->
  a <> b
  /\ (exists la, In la (lanes net) /\ lane_id la = a /\ points la <> [])
  /\ (exists lb, In lb (lanes net) /\ lane_id lb = b /\ points lb <> []).
Proof. apply connections_origin. Qed.

Lemma chainNet_connections :
  LN.buildLaneConnections chainNet = [("A", ["B"]); ("B", ["A"]); ("C", [])].
Proof.
  cbv -[LN.distance JS.lt IZR Rdiv LN.connectionRadius].
  settle_distances. reflexivity.
Qed.

Lemma connections_are_other_lanes_witness :
  In "B" (LN.connectionsGet (LN.buildLaneConnections chainNet) "A")
  /\ "A" <> "B"
  /\ (exists la, In la (lanes chainNet) /\ lane_id la = "A" /\ points la <> [])
  /\ (exists lb, In lb (lanes chainNet) /\ lane_id lb = "B" /\ points lb <> []).
Proof.
  assert (H : In "B" (LN.connectionsGet (LN.buildLaneConnections chainNet) "A"))
    by (rewrite chainNet_connections; left; reflexivity).
  split; [exact H|].
  exact (connections_are_other_lanes chainNet "A" "B" H).
Defined.

Lemma connections_touching (net : LaneNetwork) (a b : string) :
  NoDup (laneIds net) ->
  (In b (LN.connectionsGet (LN.buildLaneConnections net) a) <->
   a <> b
   /\ exists la lb,
        In la (lanes net) /\ In lb (lanes net)
        /\ lane_id la = a /\ lane_id lb = b /\ touching la lb).
Proof.
  intros Hnd; split.
  - intros H. destruct (connectionsGet_entry _ _ _ H) as (v & Hget & Hb).
    apply map_get_In in Hget.
    destruct (buildLoop_entries (lanes net) (lanes net) [] a v Hget)
      as [[]|(la & s & e & Hla & Hid & Hf & Hl & ->)].
    apply connectionsOf_spec in Hb.
    destruct Hb as (lb & sb & eb & Hlb & Hidb & Hne & Hfb & Hlb' & Hclose).
    split; [congruence|].
    exists la, lb. repeat split; try assumption.
    exists s, e, sb, eb. repeat split; assumption.
  - intros (Hne & la & lb & Hla & Hlb & Hida & Hidb
            & sa & ea & sb & eb & Hfa & Hea & Hfb & Heb & Hclose).
    unfold LN.connectionsGet, LN.buildLaneConnections. subst a.
    rewrite (buildLoop_own (lanes net) (lanes net) [] la sa ea Hnd Hla Hfa Hea).
    apply connectionsOf_spec. exists lb, sb, eb.
    repeat split; try assumption. congruence.
Qed.

Lemma connections_sym (net : LaneNetwork) (a b : string) :
  NoDup (laneIds net) ->
  In b (LN.connectionsGet (LN.buildLaneConnections net) a) ->
  In a (LN.connectionsGet (LN.buildLaneConnections net) b).
Proof.
  intros Hnd H. apply (connections_touching net a b Hnd) in H.
  destruct H as (Hne & la & lb & Hla & Hlb & Hida & Hidb & Ht).
  apply (connections_touching net b a Hnd). split; [congruence|].
  exists lb, la. repeat split; try assumption. apply touching_sym; exact Ht.
Qed.

(** X2: in a network whose lane ids are distinct, [b] is recorded as a
    connection of [a] exactly when [a] and [b] are different lanes of the
    network with an endpoint of one within 3 units of an endpoint of the
    other; the recorded connections are therefore symmetric. *)
Theorem connections_characterised (net : LaneNetwork) (a b : string) :
  NoDup (laneIds net) ->
  (In b (LN.connectionsGet (LN.buildLaneConnections net) a) <->
   a <> b
   /\ exists la lb,
        In la (lanes net) /\ In lb (lanes net)
        /\ lane_id la = a /\ lane_id lb = b /\ touching la lb)
  /\ (In b (LN.connectionsGet (LN.buildLaneConnections net) a) ->
      In a (LN.connectionsGet (LN.buildLaneConnections net) b)).
Proof.
  intros Hnd; split;
    [apply connections_touching | apply connections_sym]; exact Hnd.
Qed.

Lemma chainNet_distinct : NoDup (laneIds chainNet).
Proof.
  unfold laneIds; simpl.
  repeat constructor; simpl; intuition discriminate.
Qed.

Lemma connections_characterised_witness :
  NoDup (laneIds chainNet)
  /\ (In "B" (LN.connectionsGet (LN.buildLaneConnections chainNet) "A") <->
      "A" <> "B"
      /\ exists la lb,
           In la (lanes chainNet) /\ In lb (lanes chainNet)
           /\ lane_id la = "A" /\ lane_id lb = "B" /\ touching la lb)
  /\ (In "B" (LN.connectionsGet (LN.buildLaneConnections chainNet) "A") ->
      In "A" (LN.connectionsGet (LN.buildLaneConnections chainNet) "B")).
Proof.
  split; [exact chainNet_distinct|].
  exact (connections_characterised chainNet "A" "B" chainNet_distinct).
Defined.

(** X3: in a network whose lane ids are distinct, a lane without connections
    is listed by no other lane, so [chooseNextLane] returns null for it and
    draws no random number: the search for a lane to return to never
    succeeds. *)
Theorem chooseNextLane_isolated_lane
    (net : LaneNetwork) (cur : string) (e : EntityState) (g : Rng) :
  NoDup (laneIds net) ->
  LN.connectionsGet (LN.buildLaneConnections net) cur = [] ->
  LN.chooseNextLane (LN.buildLaneConnections net) cur e g = (None, g).
Proof.
  intros Hnd Hdead. unfold LN.chooseNextLane; rewrite Hdead; simpl.
  unfold ret; f_equal.
  destruct (LN.findReturnLane (LN.buildLaneConnections net) cur) as [l|] eqn:Hf;
    [|reflexivity].
  exfalso.
  destruct (findReturnLane_Some _ _ _ Hf) as (c & Hin & Hc & Hne).
  assert (Hl : In cur (LN.connectionsGet (LN.buildLaneConnections net) l)).
  { unfold LN.connectionsGet.
    rewrite (In_map_get _ l c (buildLaneConnections_NoDup net) Hin).
    exact Hc. }
  apply (connections_sym net l cur Hnd) in Hl.
  rewrite Hdead in Hl; exact Hl.
Qed.

Lemma chooseNextLane_isolated_lane_witness :
  NoDup (laneIds chainNet)
  /\ LN.connectionsGet (LN.buildLaneConnections chainNet) "C" = []
  /\ LN.chooseNextLane (LN.buildLaneConnections chainNet) "C"
       (idleEntity "pallet-1" (Some "C")) (fun _ => 0) = (None, fun _ => 0).
Proof.
  assert (Hdead : LN.connectionsGet (LN.buildLaneConnections chainNet) "C" = [])
    by (rewrite chainNet_connections; reflexivity).
  split; [exact chainNet_distinct|]. split; [exact Hdead|].
  exact (chooseNextLane_isolated_lane chainNet "C"
           (idleEntity "pallet-1" (Some "C")) (fun _ => 0)
           chainNet_distinct Hdead).
Defined.

(** ** Choosing the next lane *)

Lemma randomElement_rng {A : Type} (arr : list A) (g : Rng) :
  snd (randomElement arr g) = snd (random g).
Proof. reflexivity. Qed.

Lemma truthy_nonempty (v : string) : v <> "" -> JS.truthy (Some v) = Some v.
Proof.
  intros H; simpl. destruct (String.eqb_spec v ""); [contradiction|reflexivity].
Qed.

(** X4: on a lane that has connections, [chooseNextLane] returns the lane
    planned next in the route, without drawing a random number, whenever that
    lane is one of the connections; and with draws in [0, 1) and no empty
    lane id among the connections it always returns one of the connections,
    never null. *)
Theorem chooseNextLane_follows_plan
    (conns : LN.ConnMap) (cur : string) (e : EntityState) (g : Rng) :
  LN.connectionsGet conns cur <> [] ->
  (forall planned,
      nth_error (route e) (routeIndex e + 1) = Some planned ->
      planned <> "" ->
      In planned (LN.connectionsGet conns cur) ->
      LN.chooseNextLane conns cur e g = (Some planned, g))
  /\ (rng_ok g -> ~ In "" (LN.connectionsGet conns cur) ->
      exists next,
        fst (LN.chooseNextLane conns cur e g) = Some next
        /\ In next (LN.connectionsGet conns cur)).
Proof.
  intros Hne. unfold LN.chooseNextLane.
  destruct (LN.connectionsGet conns cur) as [|c0 cs] eqn:Hc;
    [contradiction|].
  cbn [length Nat.eqb]. change (0 <? S (length cs))%nat with true. split.
  - intros planned Hnth Hnonempty Hin.
    assert (Hlt : (routeIndex e + 1 <? length (route e))%nat = true).
    { apply Nat.ltb_lt, nth_error_Some. rewrite Hnth; discriminate. }
    rewrite Hlt, Hnth, (truthy_nonempty planned Hnonempty).
    apply includes_In in Hin; rewrite Hin. reflexivity.
  - intros Hg Hids.
    destruct (if (routeIndex e + 1 <? length (route e))%nat
              then match JS.truthy (nth_error (route e) (routeIndex e + 1)) with
                   | Some plannedNext =>
                       if LN.includes (c0 :: cs) plannedNext
                       then Some plannedNext else None
                   | None => None
                   end
              else None) as [plannedNext|] eqn:Hp.
    + exists plannedNext; split; [reflexivity|].
      destruct (routeIndex e + 1 <? length (route e))%nat; [|discriminate].
      destruct (JS.truthy (nth_error (route e) (routeIndex e + 1)));
        [|discriminate].
      destruct (LN.includes (c0 :: cs) s) eqn:Hi; [|discriminate].
      injection Hp as <-. apply includes_In; exact Hi.
    + destruct (randomElement_Some (c0 :: cs) g Hg) as (a & Ha & Hin);
        [discriminate|].
      exists a; split; [|exact Hin].
      unfold bind. destruct (randomElement (c0 :: cs) g) as [c g'] eqn:Hr.
      simpl in Ha; subst c. simpl fst.
      apply truthy_nonempty. intros ->; apply Hids; exact Hin.
Qed.

Lemma chooseNextLane_follows_plan_witness :
  LN.connectionsGet [("A", ["B"; "C"])] "A" <> []
  /\ (forall planned,
         nth_error (route plannedWalker) (routeIndex plannedWalker + 1)
         = Some planned ->
         planned <> "" ->
         In planned (LN.connectionsGet [("A", ["B"; "C"])] "A") ->
         LN.chooseNextLane [("A", ["B"; "C"])] "A" plannedWalker (fun _ => 0)
         = (Some planned, fun _ => 0))
  /\ (rng_ok (fun _ => 0) ->
      ~ In "" (LN.connectionsGet [("A", ["B"; "C"])] "A") ->
      exists next,
        fst (LN.chooseNextLane [("A", ["B"; "C"])] "A" plannedWalker
               (fun _ => 0)) = Some next
        /\ In next (LN.connectionsGet [("A", ["B"; "C"])] "A")).
Proof.
  assert (H : LN.connectionsGet [("A", ["B"; "C"])] "A" <> [])
    by (simpl; discriminate).
  split; [exact H|].
  exact (chooseNextLane_follows_plan [("A", ["B"; "C"])] "A" plannedWalker
           (fun _ => 0) H).
Defined.

(** ** Routes of full length *)

Lemma routeLoop_full (conns : LN.ConnMap) :
  (forall a, ~ In "" (LN.connectionsGet conns a)) ->
  forall iters pre cur g,
    rng_ok g ->
    let r := fst (LN.routeLoop conns iters (pre ++ [cur]) cur g) in
    length r = (length (pre ++ [cur]) + iters)%nat
    \/ exists lastLane,
         nth_error r (length r - 1) = Some lastLane
         /\ LN.connectionsGet conns lastLane = [].
Proof.
  intros Hids; induction iters as [|iters IH]; intros pre cur g Hg.
  - left; simpl; lia.
  - simpl.
    destruct (LN.connectionsGet conns cur) as [|c0 cs] eqn:Hc.
    + right; exists cur; simpl; split; [|exact Hc].
      rewrite length_app; simpl.
      replace (length pre + 1 - 1)%nat with (length pre) by lia.
      apply nth_error_last_snoc.
    + cbn [length Nat.eqb]. unfold bind.
      set (valid := filter (LN.notBacktrack (pre ++ [cur])) (c0 :: cs)).
      assert (Hstep : forall arr : list string,
                 arr <> [] -> (forall x, In x arr -> In x (c0 :: cs)) ->
                 let r := fst (let (a, g') := randomElement arr g in
                               match JS.truthy a with
                               | Some next =>
                                   LN.routeLoop conns iters
                                     ((pre ++ [cur]) ++ [next]) next
                               | None => ret (pre ++ [cur])
                               end g') in
                 length r = (length (pre ++ [cur]) + S iters)%nat
                 \/ exists lastLane,
                      nth_error r (length r - 1) = Some lastLane
                      /\ LN.connectionsGet conns lastLane = []).
      { intros arr Hne Hsub.
        destruct (randomElement_Some arr g Hg Hne) as (a & Ha & Hin).
        pose proof (randomElement_rng arr g) as Hrng.
        destruct (randomElement arr g) as [c g'].
        simpl in Ha, Hrng; subst c g'.
        rewrite truthy_nonempty.
        2:{ intros ->. apply (Hids cur). rewrite Hc. apply Hsub; exact Hin. }
        pose proof (IH (pre ++ [cur]) a (snd (random g))
                      (rng_ok_random g Hg)) as H.
        cbv zeta in H |- *.
        destruct H as [H|H]; [left|right; exact H].
        change (fun n : nat => g (S n)) with (snd (random g)).
        rewrite H, !length_app; simpl; lia. }
      destruct (Nat.ltb_spec 0 (length valid)) as [Hv|Hv].
      * apply Hstep.
        -- intros Hnil; rewrite Hnil in Hv; simpl in Hv; lia.
        -- intros x Hx; unfold valid in Hx; apply filter_In in Hx; tauto.
      * apply Hstep; [discriminate | auto].
Qed.

(** X5: over the lane graph of a network without an empty lane id, and with
    draws in [0, 1), a random route has exactly the requested length unless
    its last lane has no connections. *)
Theorem generateRandomRoute_full_length
    (net : LaneNetwork) (startLaneId : string) (len : nat) (g : Rng) :
  rng_ok g -> ~ In "" (laneIds net) -> (1 <= len)%nat ->
  let m := LN.buildLaneConnections net in
  let r := fst (LN.generateRandomRoute m startLaneId len g) in
  length r = len
  \/ exists lastLane,
       nth_error r (length r - 1) = Some lastLane
       /\ LN.connectionsGet m lastLane = [].
Proof.
  intros Hg Hids Hlen m r; subst r; unfold LN.generateRandomRoute.
  assert (Hconn : forall a, ~ In "" (LN.connectionsGet m a)).
  { intros a H. apply connections_origin in H.
    destruct H as (_ & _ & lb & Hlb & Hid & _).
    apply Hids. unfold laneIds. rewrite <- Hid. apply in_map; exact Hlb. }
  destruct (routeLoop_full m Hconn (len - 1) [] startLaneId g Hg) as [H|H].
  - left. simpl in H |- *. lia.
  - right; exact H.
Qed.

Lemma chainNet_named : ~ In "" (laneIds chainNet).
Proof. unfold laneIds; simpl; intuition discriminate. Qed.

Lemma zero_rng_ok : rng_ok (fun _ => 0).
Proof. intros n; lra. Qed.

Lemma generateRandomRoute_full_length_witness :
  rng_ok (fun _ => 0) /\ ~ In "" (laneIds chainNet) /\ (1 <= 4)%nat
  /\ let m := LN.buildLaneConnections chainNet in
     let r := fst (LN.generateRandomRoute m "A" 4 (fun _ => 0)) in
     length r = 4%nat
     \/ exists lastLane,
          nth_error r (length r - 1) = Some lastLane
          /\ LN.connectionsGet m lastLane = [].
Proof.
  split; [exact zero_rng_ok|]. split; [exact chainNet_named|].
  split; [lia|].
  apply (generateRandomRoute_full_length chainNet "A" 4 (fun _ => 0)
           zero_rng_ok chainNet_named).
  lia.
Defined.

(** ** The nearest point of a lane *)

Lemma clamp_cases (q : R) :
  (q <= 0 /\ Rmax 0 (Rmin 1 q) = 0)
  \/ (1 <= q /\ Rmax 0 (Rmin 1 q) = 1)
  \/ (0 <= q <= 1 /\ Rmax 0 (Rmin 1 q) = q).
Proof.
  unfold Rmax, Rmin.
  destruct (Rle_dec 1 q); destruct (Rle_dec 0 _);
    first [ left; split; lra
          | right; left; split; lra
          | right; right; split; lra ].
Qed.

Lemma distance_nonzero (a b : LanePoint) :
  LN.distance a b <> 0 ->
  0 < (px b - px a) * (px b - px a) + (py b - py a) * (py b - py a)
  /\ LN.distance a b * LN.distance a b
     = (px b - px a) * (px b - px a) + (py b - py a) * (py b - py a).
Proof.
  intros Hnz. unfold LN.distance in *.
  assert (Hsq : (px a - px b) ^ 2 + (py a - py b) ^ 2
                = (px b - px a) * (px b - px a)
                  + (py b - py a) * (py b - py a)) by ring.
  rewrite Hsq in Hnz |- *.
  assert (H0 : 0 <= (px b - px a) * (px b - px a)
                    + (py b - py a) * (py b - py a)).
  { pose proof (Rle_0_sqr (px b - px a)) as H1.
    pose proof (Rle_0_sqr (py b - py a)) as H2.
    unfold Rsqr in H1, H2. lra. }
  split.
  - destruct H0 as [H0|H0]; [exact H0|].
    rewrite <- H0, sqrt_0 in Hnz. contradiction.
  - apply sqrt_sqrt. exact H0.
Qed.

(** The clamped projection is the point of the segment nearest to
    [position]. *)
Lemma segmentParameter_minimal (p a b : LanePoint) (u : R) :
  LN.distance a b <> 0 -> 0 <= u <= 1 ->
  LN.distance p (LN.pointAt a b (LN.segmentParameter p a b))
  <= LN.distance p (LN.pointAt a b u).
Proof.
  intros Hnz Hu. destruct (distance_nonzero a b Hnz) as [HL Hsq].
  unfold LN.segmentParameter. rewrite Hsq.
  set (C := px b - px a) in *. set (D := py b - py a) in *.
  set (A := px p - px a). set (B := py p - py a).
  set (q := (A * C + B * D) / (C * C + D * D)).
  assert (Hq : q * (C * C + D * D) = A * C + B * D)
    by (unfold q; field; lra).
  unfold LN.distance, LN.pointAt; cbn [px py]. fold C D.
  apply sqrt_le_1_alt.
  assert (Hdiff : forall t,
             ((px p - (px a + u * C)) ^ 2 + (py p - (py a + u * D)) ^ 2)
             - ((px p - (px a + t * C)) ^ 2 + (py p - (py a + t * D)) ^ 2)
             = (C * C + D * D) * ((u - t) * (u + t - 2 * q))).
  { intros t.
    replace ((px p - (px a + u * C)) ^ 2 + (py p - (py a + u * D)) ^ 2
             - ((px p - (px a + t * C)) ^ 2 + (py p - (py a + t * D)) ^ 2))
      with ((u - t) * ((u + t) * (C * C + D * D) - 2 * (A * C + B * D)))
      by (unfold A, B; ring).
    rewrite <- Hq; ring. }
  generalize (Hdiff (Rmax 0 (Rmin 1 q))).
  destruct (clamp_cases q) as [[Hc ->]|[[Hc ->]|[Hc ->]]]; intros Hd.
  - assert (0 <= (u - 0) * (u + 0 - 2 * q))
      by (apply Rmult_le_pos; lra).
    assert (0 <= (C * C + D * D) * ((u - 0) * (u + 0 - 2 * q)))
      by (apply Rmult_le_pos; lra).
    lra.
  - assert (0 <= (u - 1) * (u + 1 - 2 * q)).
    { replace ((u - 1) * (u + 1 - 2 * q))
        with ((1 - u) * (2 * q - 1 - u)) by ring.
      apply Rmult_le_pos; lra. }
    assert (0 <= (C * C + D * D) * ((u - 1) * (u + 1 - 2 * q)))
      by (apply Rmult_le_pos; lra).
    lra.
  - assert (0 <= (u - q) * (u + q - 2 * q)).
    { replace ((u - q) * (u + q - 2 * q)) with (Rsqr (u - q))
        by (unfold Rsqr; ring).
      apply Rle_0_sqr. }
    assert (0 <= (C * C + D * D) * ((u - q) * (u + q - 2 * q)))
      by (apply Rmult_le_pos; lra).
    lra.
Qed.

Lemma segmentParameter_unit (p a b : LanePoint) :
  0 <= LN.segmentParameter p a b <= 1.
Proof. apply clamp_unit. Qed.

(** What the loop keeps: a property of the initial value that every
    candidate has. *)
Lemma nearestLoop_preserves (P : LN.NearestOnLane -> Prop)
    (position : LanePoint) (count : nat) :
  forall pts i best,
    P best ->
    (forall k a b,
        nth_error pts k = Some a -> nth_error pts (S k) = Some b ->
        LN.distance a b <> 0 ->
        P (LN.mkNearest
             (Some (LN.pointAt a b (LN.segmentParameter position a b)))
             ((INR (i + k) + LN.segmentParameter position a b)
              / (INR count - 1))
             (Some (LN.distance position
                      (LN.pointAt a b (LN.segmentParameter position a b)))))) ->
    P (LN.nearestLoop position count i pts best).
Proof.
  induction pts as [|a pts IH]; intros i best Hbest Hcand; [exact Hbest|].
  destruct pts as [|b rest]; [exact Hbest|].
  assert (Hrest : forall k a' b',
             nth_error (b :: rest) k = Some a' ->
             nth_error (b :: rest) (S k) = Some b' ->
             LN.distance a' b' <> 0 ->
             P (LN.mkNearest
                  (Some (LN.pointAt a' b' (LN.segmentParameter position a' b')))
                  ((INR (S i + k) + LN.segmentParameter position a' b')
                   / (INR count - 1))
                  (Some (LN.distance position
                           (LN.pointAt a' b'
                              (LN.segmentParameter position a' b')))))).
  { intros k a' b' Ha Hb Hnz.
    replace (S i + k)%nat with (i + S k)%nat by lia.
    apply Hcand; assumption. }
  cbn [LN.nearestLoop].
  destruct (JS.eq (LN.distance a b) 0) eqn:Hz; [apply IH; assumption|].
  apply eq_false in Hz.
  destruct (LN.closerThan _ _); apply IH; try assumption.
  replace i with (i + 0)%nat at 1 by lia.
  apply Hcand; [reflexivity | reflexivity | exact Hz].
Qed.


Lemma div_unit (x y : R) : 0 <= x <= y -> 0 < y -> 0 <= x / y <= 1.
Proof.
  intros Hx Hy. unfold Rdiv.
  pose proof (Rinv_0_lt_compat y Hy) as Hinv. split.
  - apply Rmult_le_pos; lra.
  - apply (Rmult_le_reg_r y); [exact Hy|].
    rewrite Rmult_assoc, Rinv_l by lra. lra.
Qed.

Lemma segment_within (pts : list LanePoint) (k : nat) (b : LanePoint) (t : R) :
  nth_error pts (S k) = Some b -> 0 <= t <= 1 ->
  0 <= INR k + t <= INR (length pts) - 1 /\ 0 < INR (length pts) - 1.
Proof.
  intros Hb Ht.
  assert (Hlt : (S k < length pts)%nat)
    by (apply nth_error_Some; rewrite Hb; discriminate).
  apply le_INR in Hlt. rewrite !S_INR in Hlt.
  pose proof (pos_INR k). repeat split; lra.
Qed.


Lemma nearest_found (position : LanePoint) (lane : Lane) :
  LN.nearestPointOnSpecificLane position lane
  = LN.mkNearest (LN.firstPoint lane) 0 None
  \/ foundOnSegment position (points lane)
       (LN.nearestPointOnSpecificLane position lane).
Proof.
  unfold LN.nearestPointOnSpecificLane.
  apply (nearestLoop_preserves
           (fun res => res = LN.mkNearest (LN.firstPoint lane) 0 None
                       \/ foundOnSegment position (points lane) res)).
  - left; reflexivity.
  - intros k a b Ha Hb Hnz. right.
    exists k, a, b, (LN.segmentParameter position a b).
    repeat split; try assumption; apply segmentParameter_unit.
Qed.


(** ** Progress and position *)

Lemma floor_unique (x : R) (z : Z) :
  IZR z <= x < IZR z + 1 -> JS.floor x = z.
Proof.
  intros [Hlo Hhi]. unfold JS.floor.
  destruct (base_Int_part x) as [H1 H2].
  assert (Ha : IZR (Int_part x) < IZR (z + 1))
    by (rewrite plus_IZR; lra).
  assert (Hb : IZR z < IZR (Int_part x + 1))
    by (rewrite plus_IZR; lra).
  apply lt_IZR in Ha, Hb. lia.
Qed.

Lemma index_nat {A : Type} (arr : list A) (k : nat) :
  JS.index arr (Z.of_nat k) = nth_error arr k.
Proof.
  unfold JS.index.
  destruct (Z.ltb_spec (Z.of_nat k) 0); [lia|].
  rewrite Nat2Z.id; reflexivity.
Qed.

Lemma pointAt_start (a b : LanePoint) : LN.pointAt a b 0 = a.
Proof.
  destruct a as [ax ay]; unfold LN.pointAt; cbn [px py]; f_equal; ring.
Qed.

Lemma pointAt_end (a b : LanePoint) : LN.pointAt a b 1 = b.
Proof.
  destruct a as [ax ay], b as [bx by_]; unfold LN.pointAt; cbn [px py];
    f_equal; ring.
Qed.

(** The position at progress [(k + t) / (n - 1)] is the point at fraction
    [t] of segment [k]. *)
Lemma position_at_segment (lane : Lane) (k : nat) (a b : LanePoint) (t : R) :
  nth_error (points lane) k = Some a ->
  nth_error (points lane) (S k) = Some b ->
  0 <= t <= 1 ->
  LN.getPositionAtProgress lane
    (JS.XFin ((INR k + t) / (INR (length (points lane)) - 1)))
  = Ok (LN.pointAt a b t).
Proof.
  intros Ha Hb Ht.
  destruct (segment_within (points lane) k b t Hb Ht) as [Hrange Hpos].
  assert (Hlt : (S k < length (points lane))%nat)
    by (apply nth_error_Some; rewrite Hb; discriminate).
  assert (Hprod : (INR k + t) / (INR (length (points lane)) - 1)
                  * (INR (length (points lane)) - 1) = INR k + t)
    by (field; lra).
  destruct (div_unit _ _ Hrange Hpos) as [Hr0 Hr1].
  assert (Hlast : LN.lastPoint lane
                  = nth_error (points lane) (length (points lane) - 1)).
  { unfold LN.lastPoint.
    replace (Z.of_nat (length (points lane)) - 1)%Z
      with (Z.of_nat (length (points lane) - 1)) by lia.
    apply index_nat. }
  assert (Hfirst : LN.firstPoint lane = nth_error (points lane) 0)
    by (unfold LN.firstPoint; apply (index_nat (points lane) 0)).
  destruct (nth_error (points lane) 0) as [first|] eqn:Ef.
  2:{ apply nth_error_None in Ef; lia. }
  destruct (nth_error (points lane) (length (points lane) - 1))
    as [last|] eqn:El.
  2:{ apply nth_error_None in El; lia. }
  unfold LN.getPositionAtProgress. rewrite Hfirst, Hlast.
  cbn [JS.xle JS.xge].
  destruct (JS.le _ 0) eqn:Hle.
  { apply le_true in Hle.
    assert (Hzero : INR k + t = 0).
    { apply Rle_antisym; [|lra].
      rewrite <- Hprod. rewrite <- (Rmult_0_l (INR (length (points lane)) - 1)).
      apply Rmult_le_compat_r; lra. }
    pose proof (pos_INR k) as Hk.
    assert (Hk0 : INR k = 0) by lra. assert (Ht0 : t = 0) by lra.
    change 0 with (INR 0) in Hk0. apply INR_eq in Hk0. subst k t.
    rewrite pointAt_start. congruence. }
  destruct (JS.ge _ 1) eqn:Hge.
  { apply ge_true in Hge.
    assert (Hone : INR k + t = INR (length (points lane)) - 1).
    { apply Rle_antisym; [lra|].
      rewrite <- Hprod.
      rewrite <- (Rmult_1_l (INR (length (points lane)) - 1)) at 1.
      apply Rmult_le_compat_r; lra. }
    pose proof (le_INR _ _ Hlt) as Hlt'. rewrite !S_INR in Hlt'.
    assert (Ht1 : t = 1) by lra.
    assert (Hk1 : INR (S k) = INR (length (points lane) - 1)).
    { rewrite S_INR, minus_INR by lia. simpl INR. lra. }
    apply INR_eq in Hk1. subst t.
    rewrite pointAt_end. rewrite <- Hk1 in El. congruence. }
  apply le_false in Hle. apply ge_false in Hge.
  unfold LN.segmentIndexAt. rewrite Hprod.
  destruct Ht as [Ht0 [Ht1|Ht1]].
  - rewrite (floor_unique (INR k + t) (Z.of_nat k))
      by (rewrite <- INR_IZR_INZ; lra).
    destruct (Z.geb_spec (Z.of_nat k) (Z.of_nat (length (points lane)) - 1));
      [lia|].
    replace (Z.of_nat k + 1)%Z with (Z.of_nat (S k)) by lia.
    rewrite !index_nat, Ha, Hb.
    unfold LN.pointAt. rewrite <- INR_IZR_INZ.
    f_equal. f_equal; ring.
  - subst t.
    assert (Hlt2 : (S (S k) < length (points lane))%nat).
    { apply INR_lt. rewrite !S_INR.
      assert (Hx : (INR k + 1) / (INR (length (points lane)) - 1)
                   * (INR (length (points lane)) - 1)
                   < 1 * (INR (length (points lane)) - 1))
        by (apply Rmult_lt_compat_r; lra).
      rewrite Hprod in Hx. lra. }
    rewrite (floor_unique (INR k + 1) (Z.of_nat (S k)))
      by (rewrite <- INR_IZR_INZ, S_INR; lra).
    destruct (Z.geb_spec (Z.of_nat (S k))
                (Z.of_nat (length (points lane)) - 1)); [lia|].
    replace (Z.of_nat (S k) + 1)%Z with (Z.of_nat (S (S k))) by lia.
    rewrite !index_nat, Hb.
    destruct (nth_error (points lane) (S (S k))) as [c|] eqn:Ec.
    2:{ apply nth_error_None in Ec; lia. }
    rewrite pointAt_end. rewrite <- INR_IZR_INZ, S_INR.
    destruct b as [bx by_]; cbn [px py]. f_equal. f_equal; ring.
Qed.

(** X6: [getPositionAtProgress] throws exactly for a lane without points.
    On a lane of [n] points, progress [(k + t) / (n - 1)] with [t] in [0, 1]
    is the point at fraction [t] of segment [k], whatever the lengths of the
    segments: progress counts segments, not distance. *)
Theorem getPositionAtProgress_by_segment (lane : Lane) :
  (forall q,
      (exists msg, LN.getPositionAtProgress lane q = Err msg)
      <-> points lane = [])
  /\ (forall k a b t,
        nth_error (points lane) k = Some a ->
        nth_error (points lane) (S k) = Some b ->
        0 <= t <= 1 ->
        LN.getPositionAtProgress lane
          (JS.XFin ((INR k + t) / (INR (length (points lane)) - 1)))
        = Ok (LN.pointAt a b t)).
Proof.
  split; [|apply position_at_segment].
  intros q; split.
  - intros (msg & Hmsg).
    destruct (points lane) as [|p pts] eqn:E; [reflexivity|].
    assert (Hne : points lane <> []) by (rewrite E; discriminate).
    destruct (getPositionAtProgress_total lane q Hne) as (pos & Hpos).
    rewrite Hpos in Hmsg; discriminate.
  - intros Hnil. unfold LN.getPositionAtProgress, LN.firstPoint.
    rewrite Hnil. simpl. eauto.
Qed.

(** X8: in exact arithmetic (numbers as real numbers, no rounding), reading
    the position at the progress that the search on a lane returns gives
    back the point that the search returns. *)
Theorem nearest_progress_round_trip (position : LanePoint) (lane : Lane) :
  points lane <> [] ->
  exists q,
    LN.near_point (LN.nearestPointOnSpecificLane position lane) = Some q
    /\ LN.getPositionAtProgress lane
         (JS.XFin (LN.near_progress
                     (LN.nearestPointOnSpecificLane position lane)))
       = Ok q.
Proof.
  intros Hne.
  destruct (nearest_found position lane) as [H|H].
  - rewrite H; cbn [LN.near_point LN.near_progress].
    destruct (endpoints_exist lane Hne) as (first & last & Hf & Hl).
    exists first; split; [exact Hf|].
    unfold LN.getPositionAtProgress; rewrite Hf, Hl.
    cbn [JS.xle].
    replace (JS.le 0 0) with true; [reflexivity|].
    symmetry; apply le_true; lra.
  - destruct H as (k & a & b & t & Ha & Hb & _ & Ht & Hp & Hprog & _).
    exists (LN.pointAt a b t); split; [exact Hp|].
    rewrite Hprog. apply position_at_segment; assumption.
Qed.

Lemma nearest_progress_round_trip_witness :
  points shortLane <> []
  /\ exists q,
       LN.near_point
         (LN.nearestPointOnSpecificLane (mkPoint 1 1) shortLane) = Some q
       /\ LN.getPositionAtProgress shortLane
            (JS.XFin (LN.near_progress
                        (LN.nearestPointOnSpecificLane (mkPoint 1 1)
                           shortLane)))
          = Ok q.
Proof.
  assert (H : points shortLane <> []) by (simpl; discriminate).
  split; [exact H|].
  exact (nearest_progress_round_trip (mkPoint 1 1) shortLane H).
Defined.

(** ** The nearest lane of the network *)

Lemma distanceBelow_irrefl (a : option R) : LN.distanceBelow a a = false.
Proof. destruct a as [x|]; simpl; [apply lt_false; lra | reflexivity]. Qed.

Lemma distanceBelow_trans (a b c : option R) :
  LN.distanceBelow a b = false -> LN.distanceBelow c b = true ->
  LN.distanceBelow a c = false.
Proof.
  destruct a as [x|], b as [y|], c as [z|]; simpl; intros H1 H2;
    try reflexivity; try discriminate;
    rewrite ?lt_false, ?lt_true in *; lra.
Qed.

Lemma nearestOverLanes_spec (position : LanePoint) :
  forall todo done best,
    answerFor position done (Some best) ->
    answerFor position (done ++ todo)
      (LN.nearestOverLanes position todo (Some best)).
Proof.
  induction todo as [|lane todo IH]; intros done best Hbest.
  - rewrite app_nil_r; exact Hbest.
  - cbn [LN.nearestOverLanes].
    replace (done ++ lane :: todo) with ((done ++ [lane]) ++ todo)
      by (rewrite <- app_assoc; reflexivity).
    destruct Hbest as (b & Hb & (chosen & Hin & Hid & Hpt & Hpr & Hd) & Hmin).
    injection Hb as <-.
    destruct (LN.distanceBelow
                (LN.near_distance
                   (LN.nearestPointOnSpecificLane position lane))
                (LN.net_distance best)) eqn:Hcmp.
    + apply IH. eexists; split; [reflexivity|]. split.
      * exists lane. split; [apply in_or_app; right; left; reflexivity|].
        cbn. repeat split; reflexivity.
      * intros l Hl. cbn [LN.net_distance].
        apply in_app_or in Hl; destruct Hl as [Hl|[<-|[]]].
        -- apply (distanceBelow_trans _ (LN.net_distance best));
             [apply Hmin; exact Hl | exact Hcmp].
        -- apply distanceBelow_irrefl.
    + apply IH. eexists; split; [reflexivity|]. split.
      * exists chosen. split; [apply in_or_app; left; exact Hin|].
        repeat split; assumption.
      * intros l Hl.
        apply in_app_or in Hl; destruct Hl as [Hl|[<-|[]]];
          [apply Hmin; exact Hl | exact Hcmp].
Qed.

(** X9: the search over the network returns null exactly when the network
    has no lane; otherwise it returns the answer of the search on one lane of
    the network, together with that lane's id, and no lane of the network
    has a strictly smaller distance (a lane without a segment of non-zero
    length counting as infinitely far). *)
Theorem nearestPointOnLane_picks_nearest
    (net : LaneNetwork) (position : LanePoint) :
  (LN.nearestPointOnLane net position = None <-> lanes net = [])
  /\ (lanes net <> [] ->
      answerFor position (lanes net) (LN.nearestPointOnLane net position)).
Proof.
  unfold LN.nearestPointOnLane.
  destruct (lanes net) as [|lane rest] eqn:E.
  - split; [split; reflexivity | intros H; contradiction].
  - cbn [LN.nearestOverLanes].
    assert (H : answerFor position ([lane] ++ rest)
                  (LN.nearestOverLanes position rest
                     (Some (LN.mkNearestNet (lane_id lane)
                        (LN.near_point
                           (LN.nearestPointOnSpecificLane position lane))
                        (LN.near_progress
                           (LN.nearestPointOnSpecificLane position lane))
                        (LN.near_distance
                           (LN.nearestPointOnSpecificLane position lane)))))).
    { apply nearestOverLanes_spec.
      eexists; split; [reflexivity|]. split.
      - exists lane. split; [left; reflexivity|].
        cbn. repeat split; reflexivity.
      - intros l [<-|[]]. apply distanceBelow_irrefl. }
    split; [|intros _; exact H].
    split; [|discriminate].
    intros Hnone. destruct H as (b & Hb & _).
    rewrite Hnone in Hb; discriminate.
Qed.

(** * Further properties of the simulator *)

(** ** Forklifts stay on the path lines *)

Lemma clamp_between (a b x : R) : a <= b -> a <= Rmax a (Rmin b x) <= b.
Proof.
  intros Hab. unfold Rmax, Rmin.
  destruct (Rle_dec b x); destruct (Rle_dec a _); lra.
Qed.

Lemma pathLines_ordered : Forall lineOrdered WS.pathLines.
Proof. unfold WS.pathLines; repeat constructor; simpl; lra. Qed.

Lemma onLine_strict (e : EntityState) (lines : list WS.PathLine) :
  onSomeLineOf lines (mkPoint (e_x e) (e_y e)) ->
  WS.isOnStrictPath e lines = true.
Proof.
  intros (line & Hin & Hon). unfold WS.isOnStrictPath.
  apply existsb_exists. exists line; split; [exact Hin|].
  destruct line as [y xs xe|x ys ye]; simpl in Hon;
    destruct Hon as [Heq [Hlo Hhi]]; rewrite Heq;
    rewrite !andb_true_iff, lt_true, ge_true, le_true;
    (repeat split; try assumption);
    unfold Rminus; rewrite Rplus_opp_r, Rabs_R0; lra.
Qed.

Lemma snapLoop_on_line (e : EntityState) (all : list WS.PathLine) :
  Forall lineOrdered all ->
  forall lines minDistance snapPoint,
    incl lines all ->
    onSomeLineOf all snapPoint \/ (minDistance = None /\ lines <> []) ->
    onSomeLineOf all (WS.snapLoop e lines minDistance snapPoint).
Proof.
  intros Hord; induction lines as [|line rest IH];
    intros minDistance snapPoint Hincl Hstart.
  - destruct Hstart as [H|[_ H]]; [exact H | contradiction].
  - assert (Hin : In line all) by (apply Hincl; left; reflexivity).
    assert (Hrest : incl rest all)
      by (intros x Hx; apply Hincl; right; exact Hx).
    pose proof (proj1 (Forall_forall _ _) Hord line Hin) as Hline.
    cbn [WS.snapLoop].
    destruct line as [y xs xe|x ys ye]; simpl in Hline.
    + destruct minDistance as [m|].
      * destruct (JS.lt _ m).
        -- apply IH; [exact Hrest|]. left.
           exists (WS.horizontal y xs xe); split; [exact Hin|].
           simpl; split; [reflexivity | apply clamp_between; exact Hline].
        -- apply IH; [exact Hrest|].
           destruct Hstart as [H|[H _]]; [left; exact H | discriminate].
      * apply IH; [exact Hrest|]. left.
        exists (WS.horizontal y xs xe); split; [exact Hin|].
        simpl; split; [reflexivity | apply clamp_between; exact Hline].
    + destruct minDistance as [m|].
      * destruct (JS.lt _ m).
        -- apply IH; [exact Hrest|]. left.
           exists (WS.vertical x ys ye); split; [exact Hin|].
           simpl; split; [reflexivity | apply clamp_between; exact Hline].
        -- apply IH; [exact Hrest|].
           destruct Hstart as [H|[H _]]; [left; exact H | discriminate].
      * apply IH; [exact Hrest|]. left.
        exists (WS.vertical x ys ye); split; [exact Hin|].
        simpl; split; [reflexivity | apply clamp_between; exact Hline].
Qed.

Lemma snapToNearestPath_on_line (e : EntityState) (lines : list WS.PathLine) :
  Forall lineOrdered lines -> lines <> [] ->
  WS.isOnStrictPath (WS.snapToNearestPath e lines) lines = true.
Proof.
  intros Hord Hne. apply onLine_strict.
  unfold WS.snapToNearestPath; cbn [e_x e_y WS.setPosition].
  set (q := WS.snapLoop e lines None _).
  assert (Hq : onSomeLineOf lines q).
  { apply snapLoop_on_line; [exact Hord | apply incl_refl|].
    right; split; [reflexivity | exact Hne]. }
  destruct q; exact Hq.
Qed.

Lemma isOnStrictPath_position (e e' : EntityState) (lines : list WS.PathLine) :
  e_x e' = e_x e -> e_y e' = e_y e ->
  WS.isOnStrictPath e' lines = WS.isOnStrictPath e lines.
Proof. intros Hx Hy; unfold WS.isOnStrictPath; rewrite Hx, Hy; reflexivity. Qed.

(** [setPathLineTarget] writes the target only, and a target it writes lies
    on one of the lines. *)
Lemma setPathLineTarget_spec (e : EntityState) (lines : list WS.PathLine)
    (g : Rng) :
  Forall lineOrdered lines ->
  let e' := fst (WS.setPathLineTarget e lines g) in
  e_x e' = e_x e /\ e_y e' = e_y e
  /\ (targetPosition e' = targetPosition e
      \/ exists t, targetPosition e' = Some t /\ onSomeLineOf lines t).
Proof.
  intros Hord. unfold WS.setPathLineTarget.
  destruct (WS.getCurrentPathLine e lines) as [line|] eqn:Hcur.
  2:{ simpl; auto. }
  apply find_some in Hcur; destruct Hcur as [Hin _].
  pose proof (proj1 (Forall_forall _ _) Hord line Hin) as Hline.
  destruct line as [y xs xe|x ys ye]; simpl in Hline;
    rewrite !bind_eval; cbn [fst ret e_x e_y targetPosition
                              WS.setTargetPosition];
    (split; [reflexivity|]); (split; [reflexivity|]); right;
    eexists; (split; [reflexivity|]).
  - exists (WS.horizontal y xs xe); split; [exact Hin|].
    simpl; split; [reflexivity | apply clamp_between; exact Hline].
  - exists (WS.vertical x ys ye); split; [exact Hin|].
    simpl; split; [reflexivity | apply clamp_between; exact Hline].
Qed.

Lemma forklift_update_on_lines
    (now : R) (e : EntityState) (deltaTime : R) (g : Rng) :
  let e' := fst (WS.updateForkliftGridMovement now e deltaTime g) in
  WS.isOnStrictPath e' WS.pathLines = true
  /\ (targetPosition e' = targetPosition e
      \/ exists t,
           targetPosition e' = Some t /\ onSomeLineOf WS.pathLines t).
Proof.
  assert (Hne : WS.pathLines <> []) by discriminate.
  unfold WS.updateForkliftGridMovement.
  destruct (WS.isOnStrictPath e WS.pathLines) eqn:Hon; cbn [negb].
  - rewrite bind_eval.
    set (m := match targetPosition e with
              | Some t =>
                  if WS.hasReachedTarget e t
                  then WS.setPathLineTarget e WS.pathLines
                  else ret e
              | None => WS.setPathLineTarget e WS.pathLines
              end).
    assert (H1 : e_x (fst (m g)) = e_x e /\ e_y (fst (m g)) = e_y e
                 /\ (targetPosition (fst (m g)) = targetPosition e
                     \/ exists t,
                          targetPosition (fst (m g)) = Some t
                          /\ onSomeLineOf WS.pathLines t)).
    { unfold m. destruct (targetPosition e) as [t|] eqn:Et.
      - destruct (WS.hasReachedTarget e t).
        + rewrite <- Et.
          apply (setPathLineTarget_spec e WS.pathLines g pathLines_ordered).
        + simpl; rewrite Et; auto.
      - rewrite <- Et.
        apply (setPathLineTarget_spec e WS.pathLines g pathLines_ordered). }
    destruct H1 as (Hx & Hy & Ht).
    set (e1 := fst (m g)) in *.
    assert (Hon1 : WS.isOnStrictPath e1 WS.pathLines = true)
      by (rewrite (isOnStrictPath_position e e1 _ Hx Hy); exact Hon).
    cbn [fst ret].
    destruct (targetPosition e1) as [t|] eqn:Et1.
    + destruct (JS.gt _ 0.05).
      * split; [|(cbn [targetPosition WS.setSpeed WS.snapToNearestPath WS.setPosition
                 WS.setHeading]; rewrite ?Et1; exact Ht)].
        rewrite <- (snapToNearestPath_on_line
                      (WS.setHeading
                         (WS.setPosition e1
                            (e_x e1 + (px t - e_x e1)
                               / sqrt ((px t - e_x e1) * (px t - e_x e1)
                                       + (py t - e_y e1) * (py t - e_y e1))
                               * (speed e * deltaTime))
                            (e_y e1 + (py t - e_y e1)
                               / sqrt ((px t - e_x e1) * (px t - e_x e1)
                                       + (py t - e_y e1) * (py t - e_y e1))
                               * (speed e * deltaTime)))
                         (WS.lerpAngle
                            (heading e1)
                            (JS.atan2 (py t - e_y e1) (px t - e_x e1)
                             * (180 / PI)) 0.1))
                      WS.pathLines pathLines_ordered Hne).
        apply isOnStrictPath_position; reflexivity.
      * split; [|(cbn [targetPosition WS.setSpeed WS.snapToNearestPath WS.setPosition
                 WS.setHeading]; rewrite ?Et1; exact Ht)].
        rewrite <- Hon1. apply isOnStrictPath_position; reflexivity.
    + split; [|(cbn [targetPosition WS.setSpeed WS.snapToNearestPath WS.setPosition
                 WS.setHeading]; rewrite ?Et1; exact Ht)].
      rewrite <- Hon1. apply isOnStrictPath_position; reflexivity.
  - destruct (setPathLineTarget_spec (WS.snapToNearestPath e WS.pathLines)
                WS.pathLines g pathLines_ordered) as (Hx & Hy & Ht).
    split; [|exact Ht].
    rewrite (isOnStrictPath_position _ _ _ Hx Hy).
    apply snapToNearestPath_on_line; [apply pathLines_ordered | exact Hne].
Qed.

(** X10: after every call of [updateForkliftGridMovement], whatever the
    entity, the time step and the random draws, the entity is on one of the
    path lines in the sense of [isOnStrictPath], and its target is either the
    one it had or a point of one of the path lines. *)
Theorem forklift_stays_on_path_lines
    (now : R) (e : EntityState) (deltaTime : R) (g : Rng) :
  let e' := fst (WS.updateForkliftGridMovement now e deltaTime g) in
  WS.isOnStrictPath e' WS.pathLines = true
  /\ (targetPosition e' = targetPosition e
      \/ exists t,
           targetPosition e' = Some t /\ onSomeLineOf WS.pathLines t).
Proof. apply forklift_update_on_lines. Qed.

Lemma Rabs_lt_wider (a small large : R) :
  Rabs a < small -> small <= large -> Rabs a < large.
Proof. intros; lra. Qed.

Lemma strict_path_is_valid (e : EntityState) :
  WS.isOnStrictPath e WS.pathLines = true ->
  WS.isOnValidPath (e_x e) (e_y e) = true.
Proof.
  unfold WS.isOnStrictPath. rewrite existsb_exists.
  intros (line & Hin & Hline).
  unfold WS.isOnValidPath. apply orb_true_iff.
  destruct line as [y xs xe|x ys ye].
  - left. apply existsb_exists. exists y.
    rewrite !andb_true_iff, lt_true, ge_true, le_true in Hline.
    destruct Hline as [[Habs Hlo] Hhi].
    simpl in Hin.
    repeat (destruct Hin as [Hin|Hin]; [try discriminate|]);
      try contradiction.
    injection Hin as <- <- <-.
    split; [unfold WS.horizontalLines; simpl; tauto|].
    rewrite !andb_true_iff, lt_true, ge_true, le_true.
    repeat split; try assumption. lra.
  - right. apply existsb_exists. exists x.
    rewrite !andb_true_iff, lt_true, ge_true, le_true in Hline.
    destruct Hline as [[Habs Hlo] Hhi].
    simpl in Hin.
    repeat (destruct Hin as [Hin|Hin];
            [try discriminate;
             injection Hin as <- <- <-;
             (split; [unfold WS.verticalLines; simpl; tauto|]);
             rewrite !andb_true_iff, lt_true, ge_true, le_true;
             (repeat split; try assumption); lra|]).
    contradiction.
Qed.

(** X11: a position that [isOnStrictPath] accepts on the forklifts' path
    lines is accepted by [isOnValidPath] and [isValidPosition] as well, so
    after every call of [updateForkliftGridMovement] the forklift is at a
    valid position. *)
Theorem forklift_position_is_valid
    (now : R) (e : EntityState) (deltaTime : R) (g : Rng) :
  (WS.isOnStrictPath e WS.pathLines = true ->
   WS.isValidPosition (Some (mkPoint (e_x e) (e_y e))) = true)
  /\ let e' := fst (WS.updateForkliftGridMovement now e deltaTime g) in
     WS.isValidPosition (Some (mkPoint (e_x e') (e_y e'))) = true.
Proof.
  split.
  - intros H; apply (strict_path_is_valid e H).
  - apply (strict_path_is_valid
             (fst (WS.updateForkliftGridMovement now e deltaTime g))).
    apply forklift_update_on_lines.
Qed.

(** ** Zones *)

Lemma zoneColumn_None (x : R) (prefix : string) :
  WS.zoneColumn x prefix = None <-> x < 6.4.
Proof.
  unfold WS.zoneColumn.
  repeat match goal with
         | |- context [JS.ge ?a ?b] =>
             let H := fresh "H" in
             destruct (JS.ge a b) eqn:H;
             [apply ge_true in H | apply ge_false in H]
         | |- context [JS.lt ?a ?b] =>
             let H := fresh "H" in
             destruct (JS.lt a b) eqn:H;
             [apply lt_true in H | apply lt_false in H]
         end; cbn [andb]; split; intros; try discriminate; try lra;
    try reflexivity.
Qed.

Lemma zoneColumn_Some (x : R) (prefix z : string) :
  WS.zoneColumn x prefix = Some z ->
  exists digit, z = String.append prefix (String digit EmptyString).
Proof.
  unfold WS.zoneColumn.
  repeat match goal with
         | |- context [if ?c then _ else _] => destruct c
         end; intros [= <-]; eauto.
Qed.

(** X12: the zone of a position is ["main-aisle"] exactly when the position
    lies left of x = 6.4 or in the band 8.8 <= y < 13.6; everywhere else it
    is a letter of the band ([A] below 8.8, [B] from 13.6, [P] from 20.8)
    followed by one digit, so the [|| 'unknown'] fallback of the callers is
    never taken. *)
Theorem getZoneFromPosition_bands (x y : R) :
  (WS.getZoneFromPosition x y = "main-aisle"
   <-> x < 6.4 \/ 8.8 <= y < 13.6)
  /\ (6.4 <= x -> y < 8.8 ->
      exists digit,
        WS.getZoneFromPosition x y = String.append "A" (String digit EmptyString))
  /\ (6.4 <= x -> 13.6 <= y < 20.8 ->
      exists digit,
        WS.getZoneFromPosition x y = String.append "B" (String digit EmptyString))
  /\ (6.4 <= x -> 20.8 <= y ->
      exists digit,
        WS.getZoneFromPosition x y = String.append "P" (String digit EmptyString))
  /\ WS.orUnknown (Some (WS.getZoneFromPosition x y))
     = WS.getZoneFromPosition x y.
Proof.
  assert (Hcol : forall prefix,
             6.4 <= x ->
             exists digit,
               WS.zoneColumn x prefix
               = Some (String.append prefix (String digit EmptyString))).
  { intros prefix Hx.
    destruct (WS.zoneColumn x prefix) as [z|] eqn:Ez.
    - destruct (zoneColumn_Some x prefix z Ez) as (digit & ->); eauto.
    - apply zoneColumn_None in Ez; lra. }
  assert (Hband : forall prefix : string,
             prefix = "A" \/ prefix = "B" \/ prefix = "P" ->
             (match WS.zoneColumn x prefix with
              | Some z => z
              | None => "main-aisle"
              end = "main-aisle" <-> x < 6.4)).
  { intros prefix Hp.
    destruct (WS.zoneColumn x prefix) as [z|] eqn:Ez.
    - split.
      + intros ->. destruct (zoneColumn_Some x prefix _ Ez) as (digit & Hd).
        destruct Hp as [-> | [-> | ->]]; discriminate.
      + intros Hx. apply (zoneColumn_None x prefix) in Hx. congruence.
    - apply zoneColumn_None in Ez. tauto. }
  unfold WS.getZoneFromPosition.
  destruct (JS.lt y 8.8) eqn:H1;
    [apply lt_true in H1 | apply lt_false in H1].
  { split; [|split; [|split; [|split]]].
    - rewrite (Hband "A") by tauto. split; [tauto | intros [H|H]; lra].
    - intros Hx _. destruct (Hcol "A" Hx) as (digit & ->); eauto.
    - intros _ Hy; lra.
    - intros _ Hy; lra.
    - destruct (WS.zoneColumn x "A") as [z|] eqn:Ez; [|reflexivity].
      destruct (zoneColumn_Some x "A" z Ez) as (digit & ->); reflexivity. }
  destruct (JS.ge y 13.6) eqn:H2;
    [apply ge_true in H2 | apply ge_false in H2]; cbn [andb].
  2:{ destruct (JS.ge y 20.8) eqn:H3;
        [apply ge_true in H3; lra | apply ge_false in H3].
      split; [|split; [|split; [|split]]]; try (intros; lra);
        [split; [right; lra | reflexivity] | reflexivity]. }
  destruct (JS.lt y 20.8) eqn:H3;
    [apply lt_true in H3 | apply lt_false in H3].
  { split; [|split; [|split; [|split]]].
    - rewrite (Hband "B") by tauto. split; [tauto | intros [H|H]; lra].
    - intros _ Hy; lra.
    - intros Hx _. destruct (Hcol "B" Hx) as (digit & ->); eauto.
    - intros _ Hy; lra.
    - destruct (WS.zoneColumn x "B") as [z|] eqn:Ez; [|reflexivity].
      destruct (zoneColumn_Some x "B" z Ez) as (digit & ->); reflexivity. }
  destruct (JS.ge y 20.8) eqn:H4;
    [apply ge_true in H4 | apply ge_false in H4; lra].
  split; [|split; [|split; [|split]]].
  - rewrite (Hband "P") by tauto. split; [tauto | intros [H|H]; lra].
  - intros _ Hy; lra.
  - intros _ Hy; lra.
  - intros Hx _. destruct (Hcol "P" Hx) as (digit & ->); eauto.
  - destruct (WS.zoneColumn x "P") as [z|] eqn:Ez; [|reflexivity].
    destruct (zoneColumn_Some x "P" z Ez) as (digit & ->); reflexivity.
Qed.

(** ** The random source through the engine *)

Lemma shifts_ret {A : Type} (a : A) : shifts (ret a).
Proof. intros g; exists 0%nat; reflexivity. Qed.

Lemma shifts_random : shifts random.
Proof. intros g; exists 1%nat; reflexivity. Qed.

Lemma shifts_bind {A B : Type} (m : M A) (f : A -> M B) :
  shifts m -> (forall a, shifts (f a)) -> shifts (bind m f).
Proof.
  intros Hm Hf g. rewrite bind_eval.
  destruct (Hm g) as (k1 & H1).
  destruct (Hf (fst (m g)) (snd (m g))) as (k2 & H2).
  exists (k1 + k2)%nat; intros n.
  rewrite H2, H1. f_equal; lia.
Qed.

Lemma shifts_rng_ok {A : Type} (m : M A) (g : Rng) :
  shifts m -> rng_ok g -> rng_ok (snd (m g)).
Proof. intros Hm Hg n. destruct (Hm g) as (k & ->). apply Hg. Qed.

(** Takes a computation apart along its binds and case distinctions. *)
Ltac shifts_steps :=
  repeat first
    [ apply shifts_ret
    | apply shifts_random
    | apply shifts_bind; [|intros]
    | match goal with
      | |- shifts (match ?x with _ => _ end) => destruct x
      | |- shifts (if ?c then _ else _) => destruct c
      end ].

Lemma shifts_randomElement {A : Type} (arr : list A) :
  shifts (randomElement arr).
Proof. unfold randomElement; shifts_steps. Qed.

Lemma shifts_randomSpeed (range : R * R) : shifts (WS.randomSpeed range).
Proof. unfold WS.randomSpeed; shifts_steps. Qed.

Lemma shifts_routeLoop (conns : LN.ConnMap) (iters : nat) :
  forall route cur, shifts (LN.routeLoop conns iters route cur).
Proof.
  induction iters as [|iters IH]; intros route cur; simpl.
  - apply shifts_ret.
  - destruct (length (LN.connectionsGet conns cur) =? 0)%nat;
      [apply shifts_ret|].
    apply shifts_bind.
    + destruct (0 <? _)%nat; apply shifts_randomElement.
    + intros nextLane. destruct (JS.truthy nextLane);
        [apply IH | apply shifts_ret].
Qed.

Lemma shifts_generateRandomRoute (conns : LN.ConnMap) (start : string)
    (len : nat) :
  shifts (LN.generateRandomRoute conns start len).
Proof. apply shifts_routeLoop. Qed.

Lemma shifts_chooseNextLane (conns : LN.ConnMap) (cur : string)
    (e : EntityState) :
  shifts (LN.chooseNextLane conns cur e).
Proof.
  unfold LN.chooseNextLane.
  destruct (length (LN.connectionsGet conns cur) =? 0)%nat;
    [apply shifts_ret|].
  destruct (if (routeIndex e + 1 <? length (route e))%nat then _ else None);
    [apply shifts_ret|].
  destruct (0 <? _)%nat; [|apply shifts_ret].
  apply shifts_bind; [apply shifts_randomElement | intros; apply shifts_ret].
Qed.

Lemma shifts_generateRandomEvent (now : R) (e : EntityState) :
  shifts (WS.generateRandomEvent now e).
Proof.
  unfold WS.generateRandomEvent, WS.generateEventReason.
  destruct (JS.lt _ 30000); [apply shifts_ret|].
  apply shifts_bind; [apply shifts_randomElement|].
  intros [t|]; [|apply shifts_ret].
  apply shifts_bind.
  - apply shifts_bind; [apply shifts_randomElement | intros; apply shifts_ret].
  - intros; shifts_steps.
Qed.

(** ** Random events *)

Lemma eventReasons_nonempty (t : EventType) (reason : string) :
  In reason (WS.eventReasons t) -> reason <> "".
Proof.
  destruct t; simpl; intros H;
    repeat (destruct H as [<-|H]; [discriminate|]); contradiction.
Qed.

Lemma eventReasons_some (t : EventType) : WS.eventReasons t <> [].
Proof. destruct t; discriminate. Qed.

(** X13: [generateRandomEvent] returns no event, leaves the entity as it is
    and draws nothing while less than 30000 ms have passed since the
    entity's last event; otherwise, with draws in [0, 1), it returns an event
    of kind blocked, dwellExceeded or zoneBreach that names the entity only,
    with a reason from the list of its kind, and stamps the entity with the
    current time, so a second call less than 30000 ms later returns no
    event. *)
Theorem generateRandomEvent_cooldown (now : R) (e : EntityState) (g : Rng) :
  (now - lastEventTime e < 30000 ->
   WS.generateRandomEvent now e g = ((e, None), g))
  /\ (30000 <= now - lastEventTime e -> rng_ok g ->
      exists ev reason high,
        WS.generateRandomEvent now e g
        = ((WS.setLastEventTime e now, Some ev),
           snd (WS.generateRandomEvent now e g))
        /\ In (ev_type ev) [blocked; dwellExceeded; zoneBreach]
        /\ assetIds ev = [e_id e]
        /\ ev_zoneId ev = WS.orUnknown (zoneId e)
        /\ payload ev = PReason reason high
        /\ In reason (WS.eventReasons (ev_type ev)))
  /\ (30000 <= now - lastEventTime e ->
      forall later g',
        later - now < 30000 ->
        snd (fst (WS.generateRandomEvent later
                    (fst (fst (WS.generateRandomEvent now e g))) g'))
        = None).
Proof.
  split; [|split].
  - intros H. unfold WS.generateRandomEvent.
    apply lt_true in H; rewrite H; reflexivity.
  - intros H Hg. unfold WS.generateRandomEvent.
    apply lt_false in H; rewrite H.
    destruct (randomElement_Some [blocked; dwellExceeded; zoneBreach] g Hg)
      as (t & Ht & Hin); [discriminate|].
    rewrite bind_eval, Ht.
    set (g1 := snd (randomElement [blocked; dwellExceeded; zoneBreach] g)).
    assert (Hg1 : rng_ok g1)
      by (apply shifts_rng_ok; [apply shifts_randomElement | exact Hg]).
    destruct (randomElement_Some (WS.eventReasons t) g1 Hg1
                (eventReasons_some t)) as (reason & Hr & Hrin).
    unfold WS.generateEventReason. rewrite !bind_eval, Hr.
    cbn [fst snd ret].
    eexists; exists reason; eexists. split; [reflexivity|].
    cbn [ev_type assetIds ev_zoneId payload e_id zoneId
         WS.setLastEventTime].
    repeat split; try assumption.
    unfold WS.orUnknown.
    rewrite (truthy_nonempty reason (eventReasons_nonempty t reason Hrin)).
    reflexivity.
  - intros H later g' Hlater.
    assert (Hstamp : lastEventTime
                       (fst (fst (WS.generateRandomEvent now e g))) = now).
    { unfold WS.generateRandomEvent.
      apply lt_false in H; rewrite H. rewrite bind_eval.
      destruct (fst (randomElement _ g)); [|reflexivity].
      unfold WS.generateEventReason; rewrite !bind_eval; reflexivity. }
    unfold WS.generateRandomEvent at 1. rewrite Hstamp.
    apply lt_true in Hlater; rewrite Hlater. reflexivity.
Qed.

(** ** Speeds *)

Lemma randomSpeed_inRange (range : R * R) (g : Rng) :
  rng_ok g -> fst range <= snd range ->
  inRange range (fst (WS.randomSpeed range g)).
Proof.
  intros Hg Hr. unfold WS.randomSpeed, inRange. rewrite bind_eval.
  cbn [fst snd ret random]. pose proof (Hg 0%nat) as [H0 H1].
  assert (0 <= g 0%nat * (snd range - fst range)
          <= snd range - fst range) by nra.
  lra.
Qed.

(** ** Lane-mode invariants *)

Lemma connection_keys (net : LaneNetwork) (k : string) (v : list string) :
  In (k, v) (LN.buildLaneConnections net) -> In k (laneIds net).
Proof.
  intros H.
  destruct (buildLoop_entries (lanes net) (lanes net) [] k v H)
    as [[]|(lane & s & e & Hin & Hid & _)].
  unfold laneIds; rewrite <- Hid; apply in_map; exact Hin.
Qed.

Lemma connection_is_lane (net : LaneNetwork) (a b : string) :
  In b (LN.connectionsGet (LN.buildLaneConnections net) a) ->
  In b (laneIds net).
Proof.
  intros H. apply connections_origin in H.
  destruct H as (_ & _ & lb & Hlb & Hid & _).
  unfold laneIds; rewrite <- Hid; apply in_map; exact Hlb.
Qed.

Lemma getLane_In (net : LaneNetwork) (laneId : string) (lane : Lane) :
  LN.getLane net laneId = Some lane ->
  In lane (lanes net) /\ lane_id lane = laneId.
Proof.
  unfold LN.getLane; intros H. apply find_some in H.
  destruct H as [Hin Heq]. apply String.eqb_eq in Heq. auto.
Qed.

Lemma getLane_laneIds (net : LaneNetwork) (laneId : string) (lane : Lane) :
  LN.getLane net laneId = Some lane -> In laneId (laneIds net).
Proof.
  intros H; apply getLane_In in H; destruct H as [Hin <-].
  unfold laneIds; apply in_map; exact Hin.
Qed.

Lemma chooseNextLane_lane (net : LaneNetwork) (cur : string)
    (e : EntityState) (g : Rng) (n : string) :
  fst (LN.chooseNextLane (LN.buildLaneConnections net) cur e g) = Some n ->
  In n (laneIds net).
Proof.
  unfold LN.chooseNextLane.
  destruct (length (LN.connectionsGet (LN.buildLaneConnections net) cur)
            =? 0)%nat.
  - simpl; intros H. apply findReturnLane_Some in H.
    destruct H as (c & Hin & _). apply (connection_keys net n c Hin).
  - destruct (if (routeIndex e + 1 <? length (route e))%nat then _ else None)
      as [plannedNext|] eqn:Hp.
    + simpl; intros [= <-].
      destruct (routeIndex e + 1 <? length (route e))%nat; [|discriminate].
      destruct (JS.truthy (nth_error (route e) (routeIndex e + 1)));
        [|discriminate].
      destruct (LN.includes _ s) eqn:Hi; [|discriminate].
      injection Hp as <-. apply includes_In in Hi.
      apply (connection_is_lane net cur _ Hi).
    + destruct (0 <? _)%nat; [|discriminate].
      rewrite bind_eval; cbn [fst ret]. intros H.
      apply truthy_Some in H; destruct H as [H _].
      apply randomElement_In in H.
      apply (connection_is_lane net cur _ H).
Qed.

Lemma generateRandomRoute_second (net : LaneNetwork) (start : string)
    (len : nat) (g : Rng) (n : string) :
  nth_error (fst (LN.generateRandomRoute (LN.buildLaneConnections net)
                    start len g)) 1 = Some n ->
  In n (laneIds net).
Proof.
  intros H.
  pose proof (generateRandomRoute_hd (LN.buildLaneConnections net)
                start len g) as Hhd.
  assert (Hlinked : linked (LN.buildLaneConnections net)
                      (fst (LN.generateRandomRoute
                              (LN.buildLaneConnections net) start len g))).
  { unfold LN.generateRandomRoute. change [start] with ([] ++ [start]).
    apply (routeLoop_preserves _ (linked (LN.buildLaneConnections net))).
    - apply linked_hop.
    - intros k a b Ha Hb; destruct k; discriminate. }
  destruct (fst (LN.generateRandomRoute (LN.buildLaneConnections net)
                   start len g)) as [|r0 rest]; [discriminate|].
  apply (connection_is_lane net r0). apply (Hlinked 0%nat r0 n);
    [reflexivity | exact H].
Qed.

Section LaneInvariantFacts.
Variable config : SimulatorConfig.
Variable net : LaneNetwork.

Lemma shifts_transitionToNextLane (e : EntityState) :
  shifts (WS.transitionToNextLane config net e).
Proof.
  unfold WS.transitionToNextLane.
  destruct (JS.truthy (currentLaneId e)) as [cur|]; [|apply shifts_ret].
  destruct (if (_ <? _)%Z then _ else _) as [e1 planned].
  apply shifts_bind.
  { destruct planned as [n|]; [destruct (WS.laneExists net n)|];
      try apply shifts_ret; apply shifts_chooseNextLane. }
  intros nextLaneId. apply shifts_bind.
  { destruct (JS.truthy nextLaneId); [apply shifts_ret|].
    apply shifts_bind;
      [apply shifts_generateRandomRoute | intros; apply shifts_ret]. }
  intros [e3 next]. apply shifts_bind; [apply shifts_random|].
  intros r. destruct (JS.lt r 0.3); [|apply shifts_ret].
  apply shifts_bind; [apply shifts_randomSpeed | intros; apply shifts_ret].
Qed.

(** What a lane transition leaves behind. *)
Lemma transition_spec (e : EntityState) (g : Rng) (cur : string) :
  JS.truthy (currentLaneId e) = Some cur ->
  let e' := fst (WS.transitionToNextLane config net e g) in
  (exists next,
      currentLaneId e' = Some next /\ (In next (laneIds net) \/ next = cur))
  /\ (routeCursorValid e -> routeCursorValid e')
  /\ e_type e' = e_type e
  /\ (rng_ok g ->
      fst (WS.speedRangeOf config (e_type e))
      <= snd (WS.speedRangeOf config (e_type e)) ->
      targetSpeed e' = targetSpeed e
      \/ inRange (WS.speedRangeOf config (e_type e)) (targetSpeed e')).
Proof.
  intros Ht. unfold WS.transitionToNextLane; rewrite Ht.
  destruct (if (_ <? _)%Z then _ else _) as [e1 planned] eqn:E1.
  assert (H1 : (routeCursorValid e -> routeCursorValid e1)
               /\ e_type e1 = e_type e /\ targetSpeed e1 = targetSpeed e).
  { destruct (Z.ltb_spec (Z.of_nat (routeIndex e))
                (Z.of_nat (length (route e)) - 1)) as [Hlt|Hge];
      injection E1 as <- _; repeat split; auto.
    intros _; unfold routeCursorValid; simpl. lia. }
  destruct H1 as (Hcur1 & Hty1 & Hts1).
  rewrite bind_eval.
  set (m1 := match planned with
             | Some n =>
                 if WS.laneExists net n then ret (Some n)
                 else LN.chooseNextLane (WS.conns net) cur e1
             | None => LN.chooseNextLane (WS.conns net) cur e1
             end).
  assert (Hm1 : shifts m1).
  { unfold m1. destruct planned as [n|]; [destruct (WS.laneExists net n)|];
      try apply shifts_ret; apply shifts_chooseNextLane. }
  assert (Hnl : forall n, fst (m1 g) = Some n -> In n (laneIds net)).
  { intros n. unfold m1.
    assert (Hc : fst (LN.chooseNextLane (WS.conns net) cur e1 g) = Some n ->
                 In n (laneIds net)) by apply chooseNextLane_lane.
    destruct planned as [p|]; [|exact Hc].
    unfold WS.laneExists.
    destruct (LN.getLane net p) as [lane|] eqn:Hl; [|exact Hc].
    simpl; intros [= <-]. apply (getLane_laneIds net p lane Hl). }
  rewrite bind_eval.
  set (m2 := match JS.truthy (fst (m1 g)) with
             | Some n => ret (e1, n)
             | None =>
                 newRoute <- LN.generateRandomRoute (WS.conns net) cur 5 ;;
                 ret (WS.setRouteIndex (WS.setRoute e1 newRoute) 0,
                      match JS.truthy (nth_error newRoute 1) with
                      | Some n => n
                      | None => cur
                      end)
             end).
  assert (Hm2 : shifts m2).
  { unfold m2. destruct (JS.truthy (fst (m1 g))); [apply shifts_ret|].
    apply shifts_bind;
      [apply shifts_generateRandomRoute | intros; apply shifts_ret]. }
  set (g1 := snd (m1 g)).
  assert (Hst : (In (snd (fst (m2 g1))) (laneIds net)
                 \/ snd (fst (m2 g1)) = cur)
                /\ (routeCursorValid e -> routeCursorValid (fst (fst (m2 g1))))
                /\ e_type (fst (fst (m2 g1))) = e_type e
                /\ targetSpeed (fst (fst (m2 g1))) = targetSpeed e).
  { unfold m2. destruct (JS.truthy (fst (m1 g))) as [n|] eqn:Hn.
    - cbn [ret fst snd]. repeat split; auto.
      left. apply Hnl. apply truthy_Some in Hn; tauto.
    - rewrite bind_eval; cbn [ret fst snd].
      split; [|split; [|split]]; auto.
      + destruct (JS.truthy (nth_error _ 1)) as [n|] eqn:Hn2;
          [|right; reflexivity].
        left. apply truthy_Some in Hn2; destruct Hn2 as [Hn2 _].
        apply (generateRandomRoute_second net cur 5 g1 n Hn2).
      + intros _. unfold routeCursorValid; simpl.
        pose proof (generateRandomRoute_hd (WS.conns net) cur 5 g1) as Hhd.
        destruct (fst (LN.generateRandomRoute (WS.conns net) cur 5 g1));
          [discriminate | simpl; lia]. }
  destruct (fst (m2 g1)) as [e3 next] eqn:Est.
  cbn [fst snd] in Hst. destruct Hst as (Hnext & Hcur3 & Hty3 & Hts3).
  rewrite bind_eval. cbn [random fst snd].
  destruct (JS.lt (snd (m2 g1) 0%nat) 0.3).
  - rewrite bind_eval; cbn [ret fst].
    cbn [currentLaneId routeIndex route e_type targetSpeed
         WS.setTargetSpeed WS.setLaneProgress WS.setCurrentLaneId].
    split; [exists next; auto|]. split; [exact Hcur3|].
    split; [exact Hty3|]. intros Hg Hrange. right.
    rewrite Hty3. apply randomSpeed_inRange; [|exact Hrange].
    apply rng_ok_random.
    apply (shifts_rng_ok m2 g1 Hm2). apply (shifts_rng_ok m1 g Hm1 Hg).
  - cbn [ret fst].
    cbn [currentLaneId routeIndex route e_type targetSpeed
         WS.setLaneProgress WS.setCurrentLaneId].
    split; [exists next; auto|]. split; [exact Hcur3|].
    split; [exact Hty3|]. intros _ _; left; exact Hts3.
Qed.

End LaneInvariantFacts.

(** X14: with draws in [0, 1) and a speed range whose lower end is not above
    its upper end, [randomSpeed] returns a speed of the range, and a lane
    transition leaves the entity's target speed either as it was or within
    the range configured for the entity's type. *)
Theorem target_speed_within_range
    (config : SimulatorConfig) (net : LaneNetwork) (e : EntityState)
    (g : Rng) (cur : string) :
  rng_ok g ->
  fst (WS.speedRangeOf config (e_type e))
  <= snd (WS.speedRangeOf config (e_type e)) ->
  JS.truthy (currentLaneId e) = Some cur ->
  inRange (WS.speedRangeOf config (e_type e))
    (fst (WS.randomSpeed (WS.speedRangeOf config (e_type e)) g))
  /\ (targetSpeed (fst (WS.transitionToNextLane config net e g))
      = targetSpeed e
      \/ inRange (WS.speedRangeOf config (e_type e))
           (targetSpeed (fst (WS.transitionToNextLane config net e g)))).
Proof.
  intros Hg Hrange Ht. split.
  - apply randomSpeed_inRange; assumption.
  - destruct (transition_spec config net e g cur Ht) as (_ & _ & _ & H).
    apply H; assumption.
Qed.

Lemma target_speed_within_range_witness :
  rng_ok (fun _ => 0)
  /\ fst (WS.speedRangeOf scenarioConfig (e_type plannedWalker))
     <= snd (WS.speedRangeOf scenarioConfig (e_type plannedWalker))
  /\ JS.truthy (currentLaneId plannedWalker) = Some "A"
  /\ inRange (WS.speedRangeOf scenarioConfig (e_type plannedWalker))
       (fst (WS.randomSpeed
               (WS.speedRangeOf scenarioConfig (e_type plannedWalker))
               (fun _ => 0)))
  /\ (targetSpeed (fst (WS.transitionToNextLane scenarioConfig chainNet
                          plannedWalker (fun _ => 0)))
      = targetSpeed plannedWalker
      \/ inRange (WS.speedRangeOf scenarioConfig (e_type plannedWalker))
           (targetSpeed (fst (WS.transitionToNextLane scenarioConfig chainNet
                                plannedWalker (fun _ => 0))))).
Proof.
  assert (Hr : fst (WS.speedRangeOf scenarioConfig (e_type plannedWalker))
               <= snd (WS.speedRangeOf scenarioConfig (e_type plannedWalker)))
    by (simpl; lra).
  assert (Ht : JS.truthy (currentLaneId plannedWalker) = Some "A")
    by reflexivity.
  split; [exact zero_rng_ok|]. split; [exact Hr|]. split; [exact Ht|].
  exact (target_speed_within_range scenarioConfig chainNet plannedWalker
           (fun _ => 0) "A" zero_rng_ok Hr Ht).
Defined.

Section UpdateInvariantFacts.
Variable config : SimulatorConfig.
Variable net : LaneNetwork.

Lemma shifts_updateLaneBasedMovement (e : EntityState) (deltaTime : R) :
  shifts (WS.updateLaneBasedMovement config net e deltaTime).
Proof.
  unfold WS.updateLaneBasedMovement.
  destruct (negb _); [apply shifts_ret|].
  destruct (LN.advanceAlongLane net e deltaTime); [|apply shifts_ret].
  apply shifts_bind.
  - destruct (WS.transitionTriggered _ _);
      [apply shifts_transitionToNextLane | apply shifts_ret].
  - intros; shifts_steps.
Qed.

Lemma updateLane_spec (e : EntityState) (deltaTime : R) (g : Rng)
    (cur : string) :
  JS.truthy (currentLaneId e) = Some cur ->
  match fst (WS.updateLaneBasedMovement config net e deltaTime g) with
  | Ok e' =>
      onNetworkLane net e' /\ (routeCursorValid e -> routeCursorValid e')
  | Err _ => True
  end.
Proof.
  intros Ht. unfold WS.updateLaneBasedMovement, JS.is_truthy.
  rewrite Ht; cbn [negb].
  destruct (LN.advanceAlongLane net e deltaTime) as [adv|msg] eqn:Hadv;
    [|exact I].
  assert (Hcur : currentLaneId e = Some cur /\ In cur (laneIds net)).
  { apply truthy_Some in Ht; destruct Ht as [Hc _]. split; [exact Hc|].
    unfold LN.advanceAlongLane in Hadv; rewrite Hc in Hadv.
    destruct (LN.getLane net cur) as [lane|] eqn:Hl; [|discriminate].
    apply (getLane_laneIds net cur lane Hl). }
  destruct Hcur as [Hc Hin].
  rewrite !bind_eval; cbn [ret fst].
  destruct (WS.transitionTriggered adv _).
  - set (e2 := WS.setLaneProgress _ _).
    destruct (transition_spec config net e2 g cur Ht)
      as ((next & Hnext & Hor) & Hroute & _).
    cbn [WS.setSpeed]. split.
    + exists next; split; [exact Hnext|]. destruct Hor as [H | ->]; assumption.
    + exact Hroute.
  - cbn [fst ret]. split; [|auto].
    exists cur; split; [exact Hc | exact Hin].
Qed.

Lemma reset_spec (e : EntityState) (g : Rng) :
  e_type e <> forklift -> rng_ok g -> lanes net <> [] ->
  (forall lane, In lane (lanes net) -> points lane <> []) ->
  onNetworkLane net (fst (WS.resetEntityToValidLane net e g))
  /\ routeCursorValid (fst (WS.resetEntityToValidLane net e g)).
Proof.
  intros Hty Hg Hne Hpts. unfold WS.resetEntityToValidLane.
  destruct (randomElement_Some (LN.getAllLanes net) g Hg Hne)
    as (lane & Hpick & Hin).
  destruct (endpoints_exist lane (Hpts lane Hin)) as (p0 & last & Hf & _).
  assert (Hgoal :
            let e' := fst ((randomLane <- randomElement (LN.getAllLanes net) ;;
                            match randomLane with
                            | Some lane =>
                                match LN.firstPoint lane with
                                | Some p0 =>
                                    newRoute <-
                                      LN.generateRandomRoute (WS.conns net)
                                        (lane_id lane) 5 ;;
                                    ret (WS.setRouteIndex
                                           (WS.setRoute
                                              (WS.setLaneProgress
                                                 (WS.setPosition
                                                    (WS.setCurrentLaneId e
                                                       (Some (lane_id lane)))
                                                    (px p0) (py p0)) 0)
                                              newRoute) 0)
                                | None => ret e
                                end
                            | None => ret e
                            end) g) in
            onNetworkLane net e' /\ routeCursorValid e').
  { rewrite bind_eval, Hpick, Hf, bind_eval. cbn [ret fst]. split.
    - exists (lane_id lane); split; [reflexivity|].
      unfold laneIds; apply in_map; exact Hin.
    - unfold routeCursorValid; simpl.
      pose proof (generateRandomRoute_hd (WS.conns net) (lane_id lane) 5
                    (snd (randomElement (LN.getAllLanes net) g))) as Hhd.
      destruct (fst (LN.generateRandomRoute _ _ _ _));
        [discriminate | simpl; lia]. }
  destruct (e_type e); [contradiction | exact Hgoal | exact Hgoal].
Qed.

End UpdateInvariantFacts.

(** X15: on a network that has lanes, each with at least one point, and with
    draws in [0, 1), an entity that is not a forklift and has a current lane
    id is on a lane of the network after every [updateEntity], whatever lane
    id it had before, and its route cursor points into its route if it did
    so before. *)
Theorem lane_entity_stays_on_network
    (config : SimulatorConfig) (net : LaneNetwork) (now : R)
    (e : EntityState) (deltaTime : R) (g : Rng) :
  e_type e <> forklift ->
  JS.is_truthy (currentLaneId e) = true ->
  rng_ok g ->
  lanes net <> [] ->
  (forall lane, In lane (lanes net) -> points lane <> []) ->
  let e' := fst (WS.updateEntity config net now e deltaTime g) in
  onNetworkLane net e' /\ (routeCursorValid e -> routeCursorValid e').
Proof.
  intros Hty Htruthy Hg Hne Hpts e'; subst e'.
  rewrite (updateEntity_lane config net now e deltaTime g Hty).
  unfold JS.is_truthy in Htruthy.
  destruct (JS.truthy (currentLaneId e)) as [cur|] eqn:Ht; [|discriminate].
  pose proof (updateLane_spec config net e deltaTime g cur Ht) as Hspec.
  destruct (fst (WS.updateLaneBasedMovement config net e deltaTime g))
    as [e1|msg].
  - exact Hspec.
  - destruct (reset_spec net e
                (snd (WS.updateLaneBasedMovement config net e deltaTime g))
                Hty) as [H1 H2]; auto.
    apply shifts_rng_ok;
      [apply shifts_updateLaneBasedMovement | exact Hg].
Qed.

Lemma chainNet_pointed :
  forall lane, In lane (lanes chainNet) -> points lane <> [].
Proof.
  intros lane [<-|[<-|[<-|[]]]]; discriminate.
Qed.

Lemma lane_entity_stays_on_network_witness :
  e_type strayWalker <> forklift
  /\ JS.is_truthy (currentLaneId strayWalker) = true
  /\ rng_ok (fun _ => 0)
  /\ lanes chainNet <> []
  /\ (forall lane, In lane (lanes chainNet) -> points lane <> [])
  /\ let e' := fst (WS.updateEntity scenarioConfig chainNet 0 strayWalker
                      0.1 (fun _ => 0)) in
     onNetworkLane chainNet e'
     /\ (routeCursorValid strayWalker -> routeCursorValid e').
Proof.
  assert (H1 : e_type strayWalker <> forklift) by discriminate.
  assert (H2 : JS.is_truthy (currentLaneId strayWalker) = true)
    by reflexivity.
  assert (H3 : lanes chainNet <> []) by discriminate.
  split; [exact H1|]. split; [exact H2|]. split; [exact zero_rng_ok|].
  split; [exact H3|]. split; [exact chainNet_pointed|].
  exact (lane_entity_stays_on_network scenarioConfig chainNet 0 strayWalker
           0.1 (fun _ => 0) H1 H2 zero_rng_ok H3 chainNet_pointed).
Defined.

(** ** The initial population *)

Lemma numberToString_inj (n m : nat) :
  WS.numberToString n = WS.numberToString m -> n = m.
Proof.
  unfold WS.numberToString; intros H.
  apply (f_equal NilEmpty.uint_of_string) in H.
  rewrite !NilEmpty.usu in H. injection H as H.
  apply Unsigned.to_uint_inj; exact H.
Qed.

Lemma entity_id_inj (t1 t2 : EntityType) (n m : nat) :
  String.append (idPrefix t1) (WS.numberToString n)
  = String.append (idPrefix t2) (WS.numberToString m) ->
  n = m.
Proof.
  destruct t1, t2; simpl; intros H; try discriminate;
    apply numberToString_inj; congruence.
Qed.

Lemma numbered_NoDup (ents : list EntityState) :
  numbered ents -> NoDup (map e_id ents).
Proof.
  intros Hn. apply NoDup_nth_error. intros i j Hi Heq.
  rewrite length_map in Hi. rewrite !nth_error_map in Heq.
  destruct (nth_error ents i) as [ei|] eqn:Ei.
  2:{ apply nth_error_None in Ei; lia. }
  destruct (nth_error ents j) as [ej|] eqn:Ej; [|discriminate].
  simpl in Heq; injection Heq as Heq.
  rewrite (Hn i ei Ei), (Hn j ej Ej) in Heq.
  apply entity_id_inj in Heq. lia.
Qed.

Lemma entitiesSet_fresh (ents : list EntityState) (e : EntityState) :
  ~ In (e_id e) (map e_id ents) -> WS.entitiesSet ents e = ents ++ [e].
Proof.
  induction ents as [|x ents IH]; intros Hnot; simpl; [reflexivity|].
  destruct (String.eqb_spec (e_id x) (e_id e)) as [Heq|Hne].
  - exfalso; apply Hnot; left; exact Heq.
  - f_equal. apply IH. intros H; apply Hnot; right; exact H.
Qed.

Lemma populated_add (net : LaneNetwork) (types : list EntityType)
    (ents : list EntityState) (e : EntityState) :
  populated net types (ents, S (length ents)) ->
  e_id e = String.append (idPrefix (e_type e))
             (WS.numberToString (S (length ents))) ->
  freshlyCreated net e ->
  populated net (types ++ [e_type e])
    (WS.entitiesSet ents e, S (S (length ents))).
Proof.
  intros (_ & Htypes & Hnum & Hfresh) Hid He. simpl in *.
  assert (Hnew : ~ In (e_id e) (map e_id ents)).
  { intros Hin. apply in_map_iff in Hin. destruct Hin as (x & Hx & Hinx).
    apply In_nth_error in Hinx. destruct Hinx as (k & Hk).
    assert (Hlt : (k < length ents)%nat)
      by (apply nth_error_Some; rewrite Hk; discriminate).
    rewrite (Hnum k x Hk), Hid in Hx.
    apply entity_id_inj in Hx. lia. }
  rewrite (entitiesSet_fresh ents e Hnew).
  unfold populated; simpl. split; [|split; [|split]].
  - rewrite length_app; simpl; lia.
  - rewrite map_app, Htypes; reflexivity.
  - intros k x Hx. apply nth_error_snoc_cases in Hx.
    destruct Hx as [[_ Hx]|[-> ->]]; [apply Hnum; exact Hx | exact Hid].
  - apply Forall_app; split; [exact Hfresh | constructor; [exact He|constructor]].
Qed.

Lemma gridStart_on_lines :
  Forall (onSomeLineOf WS.pathLines) WS.gridStartPositions.
Proof.
  unfold WS.gridStartPositions.
  repeat constructor;
    first
      [ exists (WS.horizontal 11.2 4 44);
        split; [simpl; tauto | simpl; split; [reflexivity | lra]]
      | exists (WS.vertical 12.5 3.2 19.2);
        split; [simpl; tauto | simpl; split; [reflexivity | lra]]
      | exists (WS.vertical 18.9 3.2 19.2);
        split; [simpl; tauto | simpl; split; [reflexivity | lra]]
      | exists (WS.vertical 25.3 3.2 19.2);
        split; [simpl; tauto | simpl; split; [reflexivity | lra]]
      | exists (WS.vertical 31.7 3.2 19.2);
        split; [simpl; tauto | simpl; split; [reflexivity | lra]] ].
Qed.

Lemma shifts_createForklift (config : SimulatorConfig) (now : R)
    (st : WS.InitState) (i : nat) :
  shifts (WS.createForklift config now st i).
Proof.
  unfold WS.createForklift. destruct st as [ents c].
  apply shifts_bind; [apply shifts_randomSpeed|].
  intros v. destruct (nth_error _ _); apply shifts_ret.
Qed.

Lemma createForklift_step (config : SimulatorConfig) (net : LaneNetwork)
    (now : R) (types : list EntityType) (st : WS.InitState) (i : nat)
    (g : Rng) :
  populated net types st ->
  populated net (types ++ [forklift])
    (fst (WS.createForklift config now st i g)).
Proof.
  intros Hpop. destruct st as [ents c].
  assert (Hc : c = S (length ents)) by (destruct Hpop as [H _]; exact H).
  subst c. unfold WS.createForklift. rewrite bind_eval.
  destruct (nth_error WS.gridStartPositions
              (i mod length WS.gridStartPositions)) as [p|] eqn:Ep.
  2:{ apply nth_error_None in Ep.
      pose proof (Nat.mod_upper_bound i (length WS.gridStartPositions)) as Hm.
      simpl in Hm, Ep. lia. }
  cbn [ret fst].
  set (e := mkEntity _ forklift _ _ _ _ _ _ _ _ _ _ _ _ _).
  apply (populated_add net types ents e Hpop); [reflexivity|].
  unfold freshlyCreated; cbn [e_type e currentLaneId targetSpeed speed
                              targetPosition].
  repeat split; try reflexivity.
  apply onLine_strict. cbn [e_x e_y e].
  pose proof (proj1 (Forall_forall _ _) gridStart_on_lines p
                (nth_error_In _ _ Ep)) as Hon.
  destruct p; exact Hon.
Qed.

Lemma shifts_createOnLane (net : LaneNetwork) (now : R) (kind : EntityType)
    (name : string) (range : R * R) (startFactor : R) (routeLength : nat)
    (st : WS.InitState) :
  shifts (WS.createOnLane net now kind name range startFactor routeLength st).
Proof.
  unfold WS.createOnLane. destruct st as [ents c].
  apply shifts_bind; [apply shifts_randomElement|].
  intros [lane|]; [|apply shifts_ret].
  apply shifts_bind; [apply shifts_randomSpeed|]. intros v.
  apply shifts_bind; [apply shifts_randomSpeed|]. intros v'.
  apply shifts_bind; [apply shifts_random|]. intros r.
  apply shifts_bind; [apply shifts_generateRandomRoute|]. intros newRoute.
  apply shifts_ret.
Qed.

Lemma createOnLane_step (net : LaneNetwork) (now : R) (kind : EntityType)
    (range : R * R) (routeLength : nat) (types : list EntityType)
    (st : WS.InitState) (g : Rng) :
  kind <> forklift -> rng_ok g -> lanes net <> [] ->
  populated net types st ->
  populated net (types ++ [kind])
    (fst (WS.createOnLane net now kind (idPrefix kind) range
            (startFactorOf kind) routeLength st g)).
Proof.
  intros Hkind Hg Hne Hpop. destruct st as [ents c].
  assert (Hc : c = S (length ents)) by (destruct Hpop as [H _]; exact H).
  subst c. unfold WS.createOnLane.
  destruct (randomElement_Some (LN.getAllLanes net) g Hg Hne)
    as (lane & Hpick & Hin).
  rewrite bind_eval, Hpick.
  set (g1 := snd (randomElement (LN.getAllLanes net) g)).
  assert (Hg1 : rng_ok g1)
    by (apply shifts_rng_ok; [apply shifts_randomElement | exact Hg]).
  rewrite bind_eval. set (g2 := snd (WS.randomSpeed range g1)).
  assert (Hg2 : rng_ok g2)
    by (apply shifts_rng_ok; [apply shifts_randomSpeed | exact Hg1]).
  rewrite bind_eval. set (g3 := snd (WS.randomSpeed range g2)).
  assert (Hg3 : rng_ok g3)
    by (apply shifts_rng_ok; [apply shifts_randomSpeed | exact Hg2]).
  rewrite bind_eval, bind_eval. cbn [ret fst].
  set (e := mkEntity _ kind _ _ _ _ _ _ _ _ _ _ _ _ _).
  apply (populated_add net types ents e Hpop); [reflexivity|].
  assert (Hfresh : onNetworkLane net e
                   /\ routeIndex e = 0%nat
                   /\ hd_error (route e) = currentLaneId e
                   /\ 0 <= laneProgress e < startFactorOf kind).
  { unfold e; cbn [routeIndex route currentLaneId laneProgress].
    split; [|split; [reflexivity|split]].
    - exists (lane_id lane); split; [reflexivity|].
      unfold laneIds; apply in_map; exact Hin.
    - apply generateRandomRoute_hd.
    - cbn [random fst]. pose proof (Hg3 0%nat) as [H0 H1].
      assert (0 < startFactorOf kind)
        by (destruct kind; simpl; [contradiction | lra | lra]).
      nra. }
  unfold freshlyCreated. change (e_type e) with kind.
  destruct kind; [contradiction | exact Hfresh | exact Hfresh].
Qed.

Lemma shifts_forEachIndex (body : WS.InitState -> nat -> M WS.InitState) :
  (forall st i, shifts (body st i)) ->
  forall indices st, shifts (WS.forEachIndex body indices st).
Proof.
  intros Hbody; induction indices as [|i rest IH]; intros st; simpl.
  - apply shifts_ret.
  - apply shifts_bind; [apply Hbody | intros; apply IH].
Qed.

Lemma forEachIndex_populated (net : LaneNetwork) (kind : EntityType)
    (body : WS.InitState -> nat -> M WS.InitState) :
  (forall st i, shifts (body st i)) ->
  (forall types st i g,
      rng_ok g -> populated net types st ->
      populated net (types ++ [kind]) (fst (body st i g))) ->
  forall indices types st g,
    rng_ok g -> populated net types st ->
    populated net (types ++ repeat kind (length indices))
      (fst (WS.forEachIndex body indices st g)).
Proof.
  intros Hshift Hstep; induction indices as [|i rest IH];
    intros types st g Hg Hpop; simpl.
  - rewrite app_nil_r; exact Hpop.
  - rewrite bind_eval.
    replace (types ++ kind :: repeat kind (length rest))
      with ((types ++ [kind]) ++ repeat kind (length rest))
      by (rewrite <- app_assoc; reflexivity).
    apply IH.
    + apply shifts_rng_ok; [apply Hshift | exact Hg].
    + apply Hstep; assumption.
Qed.

(** X16: with draws in [0, 1) and a network that has lanes,
    [initializeEntities] creates exactly the configured number of forklifts,
    then pallets, then workers; the entity at position k has the id of its
    kind followed by k + 1, so the ids are distinct; every forklift starts
    on lane ['grid'] on one of the path lines at its target speed, and every
    pallet and worker starts on a lane of the network, at the head of a route
    that begins with that lane, with a progress below 0.5 (pallets) or 0.3
    (workers). *)
Theorem initializeEntities_population
    (config : SimulatorConfig) (net : LaneNetwork) (now : R) (g : Rng) :
  rng_ok g -> lanes net <> [] ->
  let ents := fst (WS.initializeEntities config net now g) in
  map e_type ents
  = repeat forklift (forkliftCount config)
    ++ repeat pallet (palletCount config)
    ++ repeat worker (workerCount config)
  /\ numbered ents
  /\ NoDup (map e_id ents)
  /\ Forall (freshlyCreated net) ents.
Proof.
  intros Hg Hne ents; subst ents. unfold WS.initializeEntities.
  set (body1 := WS.createForklift config now).
  set (body2 := fun (st : WS.InitState) (_ : nat) =>
                  WS.createOnLane net now pallet "pallet-"
                    (palletSpeedRange config) 0.5 3 st).
  set (body3 := fun (st : WS.InitState) (_ : nat) =>
                  WS.createOnLane net now worker "worker-"
                    (workerSpeedRange config) 0.3 4 st).
  assert (Hs1 : forall st i, shifts (body1 st i))
    by (intros; apply shifts_createForklift).
  assert (Hs2 : forall st i, shifts (body2 st i))
    by (intros; apply shifts_createOnLane).
  assert (Hs3 : forall st i, shifts (body3 st i))
    by (intros; apply shifts_createOnLane).
  rewrite !bind_eval. cbn [ret fst].
  set (m1 := WS.forEachIndex body1 (seq 0 (forkliftCount config))
               ([], 1%nat)).
  set (m2 := WS.forEachIndex body2 (seq 0 (palletCount config))
               (fst (m1 g))).
  set (m3 := WS.forEachIndex body3 (seq 0 (workerCount config))
               (fst (m2 (snd (m1 g))))).
  assert (Hg1 : rng_ok (snd (m1 g)))
    by (apply shifts_rng_ok; [apply shifts_forEachIndex; exact Hs1 | exact Hg]).
  assert (Hg2 : rng_ok (snd (m2 (snd (m1 g)))))
    by (apply shifts_rng_ok; [apply shifts_forEachIndex; exact Hs2 | exact Hg1]).
  assert (H0 : populated net [] (([] : list EntityState), 1%nat)).
  { unfold populated; simpl. repeat split; [|constructor].
    intros k e H; destruct k; discriminate. }
  assert (H1 : populated net ([] ++ repeat forklift (forkliftCount config))
                 (fst (m1 g))).
  { replace (repeat forklift (forkliftCount config))
      with (repeat forklift (length (seq 0 (forkliftCount config))))
      by (rewrite length_seq; reflexivity).
    apply (forEachIndex_populated net forklift body1 Hs1); [|exact Hg|exact H0].
    intros types st i g0 _ Hpop. apply createForklift_step; exact Hpop. }
  assert (H2 : populated net
                 (([] ++ repeat forklift (forkliftCount config))
                  ++ repeat pallet (palletCount config))
                 (fst (m2 (snd (m1 g))))).
  { replace (repeat pallet (palletCount config))
      with (repeat pallet (length (seq 0 (palletCount config))))
      by (rewrite length_seq; reflexivity).
    apply (forEachIndex_populated net pallet body2 Hs2); [|exact Hg1|exact H1].
    intros types st i g0 Hg0 Hpop.
    apply (createOnLane_step net now pallet (palletSpeedRange config) 3
             types st g0); [discriminate | exact Hg0 | exact Hne | exact Hpop]. }
  assert (H3 : populated net
                 ((([] ++ repeat forklift (forkliftCount config))
                   ++ repeat pallet (palletCount config))
                  ++ repeat worker (workerCount config))
                 (fst (m3 (snd (m2 (snd (m1 g))))))).
  { replace (repeat worker (workerCount config))
      with (repeat worker (length (seq 0 (workerCount config))))
      by (rewrite length_seq; reflexivity).
    apply (forEachIndex_populated net worker body3 Hs3); [|exact Hg2|exact H2].
    intros types st i g0 Hg0 Hpop.
    apply (createOnLane_step net now worker (workerSpeedRange config) 4
             types st g0); [discriminate | exact Hg0 | exact Hne | exact Hpop]. }
  destruct H3 as (_ & Htypes & Hnum & Hfresh).
  split; [|split; [|split]].
  - rewrite Htypes. simpl. rewrite <- app_assoc. reflexivity.
  - exact Hnum.
  - apply numbered_NoDup; exact Hnum.
  - exact Hfresh.
Qed.

Lemma initializeEntities_population_witness :
  rng_ok (fun _ => 0) /\ lanes chainNet <> []
  /\ let ents := fst (WS.initializeEntities scenarioConfig chainNet 0
                        (fun _ => 0)) in
     map e_type ents
     = repeat forklift (forkliftCount scenarioConfig)
       ++ repeat pallet (palletCount scenarioConfig)
       ++ repeat worker (workerCount scenarioConfig)
     /\ numbered ents
     /\ NoDup (map e_id ents)
     /\ Forall (freshlyCreated chainNet) ents.
Proof.
  assert (H : lanes chainNet <> []) by discriminate.
  split; [exact zero_rng_ok|]. split; [exact H|].
  exact (initializeEntities_population scenarioConfig chainNet 0 (fun _ => 0)
           zero_rng_ok H).
Defined.

(** ** The position batch of a tick *)

Section TickFacts.
Variable config : SimulatorConfig.
Variable net : LaneNetwork.

Lemma shifts_setPathLineTarget (e : EntityState) (lines : list WS.PathLine) :
  shifts (WS.setPathLineTarget e lines).
Proof.
  unfold WS.setPathLineTarget.
  destruct (WS.getCurrentPathLine e lines) as [[y xs xe|x ys ye]|];
    shifts_steps.
Qed.

Lemma shifts_updateForkliftGridMovement (now : R) (e : EntityState)
    (deltaTime : R) :
  shifts (WS.updateForkliftGridMovement now e deltaTime).
Proof.
  unfold WS.updateForkliftGridMovement.
  destruct (negb _); [apply shifts_setPathLineTarget|].
  apply shifts_bind; [|intros; apply shifts_ret].
  destruct (targetPosition e) as [t|];
    [destruct (WS.hasReachedTarget e t)|];
    try apply shifts_ret; apply shifts_setPathLineTarget.
Qed.

Lemma shifts_resetEntityToValidLane (e : EntityState) :
  shifts (WS.resetEntityToValidLane net e).
Proof.
  unfold WS.resetEntityToValidLane.
  assert (H : shifts
                (randomLane <- randomElement (LN.getAllLanes net) ;;
                 match randomLane with
                 | Some lane =>
                     match LN.firstPoint lane with
                     | Some p0 =>
                         newRoute <-
                           LN.generateRandomRoute (WS.conns net)
                             (lane_id lane) 5 ;;
                         ret (WS.setRouteIndex
                                (WS.setRoute
                                   (WS.setLaneProgress
                                      (WS.setPosition
                                         (WS.setCurrentLaneId e
                                            (Some (lane_id lane)))
                                         (px p0) (py p0)) 0)
                                   newRoute) 0)
                     | None => ret e
                     end
                 | None => ret e
                 end)).
  { apply shifts_bind; [apply shifts_randomElement|].
    intros [lane|]; [|apply shifts_ret].
    destruct (LN.firstPoint lane); [|apply shifts_ret].
    apply shifts_bind;
      [apply shifts_generateRandomRoute | intros; apply shifts_ret]. }
  destruct (e_type e); [shifts_steps | exact H | exact H].
Qed.

Lemma shifts_updateEntity (now : R) (e : EntityState) (deltaTime : R) :
  shifts (WS.updateEntity config net now e deltaTime).
Proof.
  unfold WS.updateEntity, WS.updateEntityBody.
  apply shifts_bind.
  - apply shifts_bind.
    + destruct (e_type e);
        [apply shifts_bind;
           [apply shifts_updateForkliftGridMovement
           | intros; apply shifts_ret]
        | apply shifts_updateLaneBasedMovement
        | apply shifts_updateLaneBasedMovement].
    + intros [e'|msg]; apply shifts_ret.
  - intros [e'|msg];
      [apply shifts_ret | apply shifts_resetEntityToValidLane].
Qed.

Lemma tickLoop_batch (now : R) (todo : list EntityState) :
  forall g,
    rng_ok g ->
    rng_ok (snd (WS.tickLoop config net now todo g))
    /\ Forall (fun p => 0.90 <= WS.confidence p <= 1)
         (snd (fst (fst (WS.tickLoop config net now todo g))))
    /\ (eventProbability config <= 0 ->
        snd (fst (WS.tickLoop config net now todo g)) = []).
Proof.
  induction todo as [|e todo IH]; intros g Hg.
  { split; [exact Hg|]. split; [constructor | reflexivity]. }
  cbn [WS.tickLoop]. rewrite !bind_eval.
  set (g1 := snd (WS.updateEntity config net now e _ g)).
  assert (Hg1 : rng_ok g1)
    by (apply shifts_rng_ok; [apply shifts_updateEntity | exact Hg]).
  set (e1 := fst (WS.updateEntity config net now e _ g)).
  set (g2 := snd (random g1)).
  assert (Hg2 : rng_ok g2) by (apply rng_ok_random; exact Hg1).
  set (g3 := snd (random g2)).
  assert (Hg3 : rng_ok g3) by (apply rng_ok_random; exact Hg2).
  set (gen := if JS.lt (fst (random g2)) (eventProbability config)
              then WS.generateRandomEvent now e1
              else ret (e1, None)).
  assert (Hgen : rng_ok (snd (gen g3))).
  { apply shifts_rng_ok; [|exact Hg3].
    unfold gen; destruct (JS.lt _ _);
      [apply shifts_generateRandomEvent | apply shifts_ret]. }
  assert (Hquiet : eventProbability config <= 0 ->
                   snd (fst (gen g3)) = None).
  { intros Hp. unfold gen.
    replace (JS.lt (fst (random g2)) (eventProbability config)) with false;
      [reflexivity|].
    symmetry; apply lt_false. cbn [random fst].
    pose proof (Hg2 0%nat); lra. }
  destruct (fst (gen g3)) as [e2 event] eqn:Egen.
  rewrite bind_eval.
  destruct (IH (snd (gen g3)) Hgen) as (IHg & IHp & IHe).
  destruct (WS.tickLoop config net now todo (snd (gen g3)))
    as [[[arr positions] events] g'].
  cbn [ret fst snd] in *.
  split; [exact IHg|]. split.
  - constructor; [|exact IHp].
    cbn [WS.confidence random fst].
    pose proof (Hg1 0%nat); lra.
  - intros Hp. rewrite (Hquiet Hp), (IHe Hp). reflexivity.
Qed.

End TickFacts.

(** X17: with draws in [0, 1), every firing of the interval reports one
    position per entity, each with a confidence in [0.90, 1.00]; when the
    configured event probability is not positive no random event is
    generated, so the events of the tick are exactly those of the proximity
    check. *)
Theorem tick_position_batch
    (config : SimulatorConfig) (net : LaneNetwork) (now : R)
    (arr : list EntityState) (g : Rng) :
  rng_ok g ->
  let out := fst (WS.tick config net now arr g) in
  length (snd (fst out)) = length arr
  /\ Forall (fun p => 0.90 <= WS.confidence p <= 1)
       (snd (fst out))
  /\ (eventProbability config <= 0 ->
      snd out
      = snd (WS.checkProximityEvents config
               (fst (fst (fst (WS.tickLoop config net now arr g)))))).
Proof.
  intros Hg out; subst out. unfold WS.tick. rewrite bind_eval.
  destruct (tickLoop_batch config net now arr g Hg) as (_ & Hp & He).
  pose proof (tickLoop_ids config net now arr g) as [_ Hids].
  destruct (fst (WS.tickLoop config net now arr g))
    as [[arr1 positions] events].
  cbn [fst snd] in *.
  destruct (WS.checkProximityEvents config arr1) as [arr2 proximity].
  cbn [ret fst snd].
  split; [|split].
  - apply (f_equal (@length string)) in Hids.
    rewrite !length_map in Hids. exact Hids.
  - exact Hp.
  - intros Hprob. rewrite (He Hprob). reflexivity.
Qed.

Lemma tick_position_batch_witness :
  rng_ok (fun _ => 0)
  /\ let out := fst (WS.tick scenarioConfig chainNet 0 scenarioEntities
                       (fun _ => 0)) in
     length (snd (fst out)) = length scenarioEntities
     /\ Forall (fun p => 0.90 <= WS.confidence p <= 1)
          (snd (fst out))
     /\ (eventProbability scenarioConfig <= 0 ->
         snd out
         = snd (WS.checkProximityEvents scenarioConfig
                  (fst (fst (fst (WS.tickLoop scenarioConfig chainNet 0
                                    scenarioEntities (fun _ => 0))))))).
Proof.
  split; [exact zero_rng_ok|].
  exact (tick_position_batch scenarioConfig chainNet 0 scenarioEntities
           (fun _ => 0) zero_rng_ok).
Defined.

(** ** What the proximity check writes *)

Lemma slowDown_iter_frame (h : nat) (e : EntityState) :
  Nat.iter h WS.slowDown e
  = WS.setTargetSpeed e (targetSpeed e * 0.5 ^ h).
Proof.
  induction h as [|h IH].
  - destruct e; unfold WS.setTargetSpeed; simpl. f_equal. lra.
  - simpl Nat.iter. rewrite IH. unfold WS.slowDown, WS.setTargetSpeed.
    simpl. f_equal. lra.
Qed.

Lemma half_power_unit (h : nat) : 0 < 0.5 ^ h <= 1.
Proof.
  induction h as [|h IH]; simpl; [lra|].
  destruct IH as [H0 H1]. split; nra.
Qed.

(** X18: the proximity check keeps the number and the order of the entities
    and writes nothing but target speeds: the entity at position k leaves it
    with its target speed multiplied by 0.5 once for every near pair it
    belongs to and with every other field as it was, so a target speed that
    is not negative never grows and never becomes negative. *)
Theorem proximity_check_frame
    (config : SimulatorConfig) (arr : list EntityState) (k : nat)
    (e : EntityState) :
  nth_error arr k = Some e ->
  length (fst (WS.checkProximityEvents config arr)) = length arr
  /\ nth_error (fst (WS.checkProximityEvents config arr)) k
     = Some (WS.setTargetSpeed e
               (targetSpeed e
                * 0.5 ^ hits config arr (pairsOf (length arr)) k))
  /\ (0 <= targetSpeed e ->
      0 <= targetSpeed e * 0.5 ^ hits config arr (pairsOf (length arr)) k
        <= targetSpeed e).
Proof.
  intros Hk.
  assert (Hdistinct : forall p, In p (pairsOf (length arr)) -> fst p <> snd p).
  { intros [a b] Hp; apply pairsOf_spec in Hp; simpl; lia. }
  pose proof (pairs_invariant config arr (pairsOf (length arr)) Hdistinct)
    as Hinv.
  unfold WS.checkProximityEvents. rewrite collisionPass_pairs.
  destruct (fold_left (stepPair config) (pairsOf (length arr)) (arr, []))
    as [cur evs].
  simpl in Hinv; destruct Hinv as (Hlen & Hcur & _). simpl fst.
  split; [exact Hlen|]. split.
  - rewrite (Hcur k e Hk), slowDown_iter_frame. reflexivity.
  - intros Hpos.
    pose proof (half_power_unit (hits config arr (pairsOf (length arr)) k))
      as [H0 H1].
    split; nra.
Qed.

Lemma proximity_check_frame_witness :
  nth_error scenarioEntities 0 = Some pallet1
  /\ length (fst (WS.checkProximityEvents scenarioConfig scenarioEntities))
     = length scenarioEntities
  /\ nth_error (fst (WS.checkProximityEvents scenarioConfig scenarioEntities))
       0
     = Some (WS.setTargetSpeed pallet1
               (targetSpeed pallet1
                * 0.5 ^ hits scenarioConfig scenarioEntities
                          (pairsOf (length scenarioEntities)) 0))
  /\ (0 <= targetSpeed pallet1 ->
      0 <= targetSpeed pallet1
           * 0.5 ^ hits scenarioConfig scenarioEntities
                     (pairsOf (length scenarioEntities)) 0
        <= targetSpeed pallet1).
Proof.
  split; [reflexivity|].
  exact (proximity_check_frame scenarioConfig scenarioEntities 0 pallet1
           eq_refl).
Defined.

(** ** The nearest grid point *)

Lemma nearestGridLoop_spec (x y : R) :
  forall todo nearestPoint minDistance,
    (forall d, minDistance = Some d ->
               d = WS.gridDistance x y nearestPoint) ->
    let r := WS.nearestGridLoop x y todo nearestPoint minDistance in
    (In r todo \/ (r = nearestPoint /\ (minDistance = None -> todo = [])))
    /\ (forall p, In p todo ->
                  WS.gridDistance x y r <= WS.gridDistance x y p)
    /\ (forall d, minDistance = Some d -> WS.gridDistance x y r <= d).
Proof.
  induction todo as [|point rest IH]; intros nearestPoint minDistance Hmd.
  - simpl. split; [right; auto|]. split; [intros p []|].
    intros d Hd. rewrite (Hmd d Hd). lra.
  - cbn [WS.nearestGridLoop].
    assert (Hnew : forall d,
               Some (WS.gridDistance x y point) = Some d ->
               d = WS.gridDistance x y point)
      by (intros d [= <-]; reflexivity).
    destruct minDistance as [m|].
    + destruct (JS.lt (WS.gridDistance x y point) m) eqn:Hlt.
      * apply lt_true in Hlt.
        destruct (IH point (Some (WS.gridDistance x y point)) Hnew)
          as (Hin & Hmin & Hbound).
        specialize (Hbound _ eq_refl).
        split; [|split].
        -- left. destruct Hin as [H|[-> _]]; [right; exact H | left; reflexivity].
        -- intros p [<-|Hp]; [exact Hbound | apply Hmin; exact Hp].
        -- intros d [= <-]. lra.
      * apply lt_false in Hlt.
        destruct (IH nearestPoint (Some m) Hmd) as (Hin & Hmin & Hbound).
        specialize (Hbound _ eq_refl).
        split; [|split].
        -- destruct Hin as [H|[-> _]];
             [left; right; exact H | right; split; [reflexivity|discriminate]].
        -- intros p [<-|Hp]; [lra | apply Hmin; exact Hp].
        -- intros d [= <-]. exact Hbound.
    + destruct (IH point (Some (WS.gridDistance x y point)) Hnew)
        as (Hin & Hmin & Hbound).
      specialize (Hbound _ eq_refl).
      split; [|split].
      * left. destruct Hin as [H|[-> _]]; [right; exact H | left; reflexivity].
      * intros p [<-|Hp]; [exact Hbound | apply Hmin; exact Hp].
      * intros d Hd; discriminate.
Qed.

(** X19: [findNearestGridPoint] returns the fallback point (4, 11.2) for an
    empty list, and otherwise a point of the list that no point of the list
    is closer than. *)
Theorem findNearestGridPoint_nearest
    (x y : R) (gridPositions : list LanePoint) :
  (gridPositions = [] ->
   WS.findNearestGridPoint x y gridPositions = mkPoint 4 11.2)
  /\ (gridPositions <> [] ->
      In (WS.findNearestGridPoint x y gridPositions) gridPositions
      /\ forall p,
           In p gridPositions ->
           WS.gridDistance x y (WS.findNearestGridPoint x y gridPositions)
           <= WS.gridDistance x y p).
Proof.
  split.
  - intros ->; reflexivity.
  - intros Hne. unfold WS.findNearestGridPoint.
    destruct (nearestGridLoop_spec x y gridPositions
                match gridPositions with
                | first :: _ => first
                | [] => mkPoint 4 11.2
                end None) as (Hin & Hmin & _); [discriminate|].
    split; [|exact Hmin].
    destruct Hin as [H|[_ H]]; [exact H|].
    exfalso; apply Hne; apply H; reflexivity.
Qed.

(** * Further properties of the path validation *)

(** ** The distance to a segment *)

Lemma projection_pointAt (point : LanePoint) (segment : PV.PathSegment) :
  PV.zeroLength segment = false ->
  PV.projection point segment
  = LN.pointAt (PV.seg_start segment) (PV.seg_end segment)
      (LN.segmentParameter point (PV.seg_start segment)
         (PV.seg_end segment))
  /\ LN.distance (PV.seg_start segment) (PV.seg_end segment) <> 0.
Proof.
  intros Hz; apply zeroLength_false in Hz.
  assert (Hnz : LN.distance (PV.seg_start segment) (PV.seg_end segment) <> 0).
  { unfold LN.distance. intros H0.
    apply sqrt_eq_0 in H0; [|apply sum_squares_nonneg].
    apply Hz. rewrite <- H0. ring. }
  split; [|exact Hnz].
  destruct (distance_nonzero _ _ Hnz) as [_ Hsq].
  unfold PV.projection, LN.pointAt, LN.segmentParameter; cbv zeta.
  rewrite Hsq. reflexivity.
Qed.

Lemma sum_squares_zero (a b : R) : a * a + b * b = 0 -> a = 0 /\ b = 0.
Proof. intros H. apply Rplus_sqr_eq_0. unfold Rsqr. exact H. Qed.

Lemma distance_zero_same (p q : LanePoint) : LN.distance p q = 0 -> p = q.
Proof.
  unfold LN.distance; intros H.
  apply sqrt_eq_0 in H; [|apply sum_squares_nonneg].
  destruct (sum_squares_zero (px p - px q) (py p - py q)) as [Hx Hy];
    [rewrite <- H; ring|].
  destruct p as [x y], q as [x' y']; simpl in *.
  f_equal; lra.
Qed.

Lemma distanceToLineSegment_minimal (point s e : LanePoint) (u : R) :
  0 <= u <= 1 ->
  PV.distanceToLineSegment point s e <= LN.distance point (LN.pointAt s e u).
Proof.
  intros Hu.
  destruct (PV.zeroLength (PV.mkSegment "" s e PV.main_aisle)) eqn:Hz.
  - unfold PV.zeroLength in Hz; cbv zeta in Hz; cbn [PV.seg_start PV.seg_end]
      in Hz.
    unfold PV.distanceToLineSegment; cbv zeta. rewrite Hz.
    apply eq_true in Hz.
    destruct (sum_squares_zero _ _ Hz) as [Hx Hy].
    unfold LN.distance, LN.pointAt; cbn [px py]. rewrite Hx, Hy.
    apply Req_le. f_equal. ring.
  - pose proof (projectionDistance_eq point
                  (PV.mkSegment "" s e PV.main_aisle) Hz) as Heq.
    destruct (projection_pointAt point _ Hz) as [Hproj Hnz].
    unfold PV.projectionDistance in Heq; cbv zeta in Heq.
    rewrite Hproj in Heq. cbn [PV.seg_start PV.seg_end] in Heq, Hnz.
    rewrite <- Heq.
    apply (segmentParameter_minimal point s e u Hnz Hu).
Qed.

Lemma distanceToLineSegment_attained (point s e : LanePoint) :
  exists u,
    0 <= u <= 1
    /\ PV.distanceToLineSegment point s e
       = LN.distance point (LN.pointAt s e u).
Proof.
  destruct (PV.zeroLength (PV.mkSegment "" s e PV.main_aisle)) eqn:Hz.
  - exists 0. split; [lra|]. rewrite pointAt_start.
    unfold PV.zeroLength in Hz; cbv zeta in Hz; cbn [PV.seg_start PV.seg_end]
      in Hz.
    unfold PV.distanceToLineSegment; cbv zeta. rewrite Hz.
    unfold LN.distance. f_equal. ring.
  - exists (LN.segmentParameter point s e).
    split; [apply segmentParameter_unit|].
    pose proof (projectionDistance_eq point
                  (PV.mkSegment "" s e PV.main_aisle) Hz) as Heq.
    destruct (projection_pointAt point _ Hz) as [Hproj _].
    unfold PV.projectionDistance in Heq; cbv zeta in Heq.
    rewrite Hproj in Heq. cbn [PV.seg_start PV.seg_end] in Heq.
    rewrite <- Heq. reflexivity.
Qed.

Lemma pointAt_reverse (s e : LanePoint) (u : R) :
  LN.pointAt e s (1 - u) = LN.pointAt s e u.
Proof. unfold LN.pointAt; f_equal; ring. Qed.

(** X20: [distanceToLineSegment] is the distance from the point to the
    nearest point of the segment: it is the distance to some point of the
    segment and no point of the segment is nearer; so it is never negative
    and does not depend on the direction of the segment. *)
Theorem distanceToLineSegment_is_minimum (point s e : LanePoint) :
  (forall u, 0 <= u <= 1 ->
     PV.distanceToLineSegment point s e
     <= LN.distance point (LN.pointAt s e u))
  /\ (exists u,
        0 <= u <= 1
        /\ PV.distanceToLineSegment point s e
           = LN.distance point (LN.pointAt s e u))
  /\ 0 <= PV.distanceToLineSegment point s e
  /\ PV.distanceToLineSegment point s e = PV.distanceToLineSegment point e s.
Proof.
  split; [intros u Hu; apply distanceToLineSegment_minimal; exact Hu|].
  split; [apply distanceToLineSegment_attained|].
  split.
  - destruct (distanceToLineSegment_attained point s e) as (u & _ & ->).
    unfold LN.distance; apply sqrt_pos.
  - apply Rle_antisym.
    + destruct (distanceToLineSegment_attained point e s) as (u & Hu & ->).
      rewrite <- (pointAt_reverse e s u).
      apply distanceToLineSegment_minimal; lra.
    + destruct (distanceToLineSegment_attained point s e) as (u & Hu & ->).
      rewrite <- (pointAt_reverse s e u).
      apply distanceToLineSegment_minimal; lra.
Qed.

(** ** Snapping picks the nearest segment *)

Lemma snapLoop_nearest (point : LanePoint) :
  forall (ps : list PV.PathSegment) (closest : LanePoint) (m : R),
    (PV.snapLoop ps point closest m = closest
     /\ forall segment, In segment ps -> PV.zeroLength segment = false ->
          m <= PV.projectionDistance point segment)
    \/ (exists segment,
          In segment ps /\ PV.zeroLength segment = false
          /\ PV.snapLoop ps point closest m = PV.projection point segment
          /\ PV.projectionDistance point segment < m
          /\ forall other,
               In other ps -> PV.zeroLength other = false ->
               PV.projectionDistance point segment
               <= PV.projectionDistance point other).
Proof.
  induction ps as [|s ps IH]; intros closest m; simpl.
  - left; split; [reflexivity | intros ? []].
  - destruct (PV.zeroLength s) eqn:Ez.
    + destruct (IH closest m)
        as [[Heq Hall]|(seg & Hin & Hz & Heq & Hlt & Hmin)].
      * left; split; [exact Heq|].
        intros seg [<-|Hin] Hz; [congruence | auto].
      * right; exists seg; repeat split; auto.
        intros other [<-|Ho] Hoz; [congruence | auto].
    + destruct (JS.lt (PV.projectionDistance point s) m) eqn:El.
      * apply lt_true in El.
        destruct (IH (PV.projection point s) (PV.projectionDistance point s))
          as [[Heq Hall]|(seg & Hin & Hz & Heq & Hlt & Hmin)].
        -- right; exists s; repeat split; auto.
           intros other [<-|Ho] Hoz; [lra | auto].
        -- right; exists seg; repeat split; auto; [lra|].
           intros other [<-|Ho] Hoz; [lra | auto].
      * apply lt_false in El.
        destruct (IH closest m)
          as [[Heq Hall]|(seg & Hin & Hz & Heq & Hlt & Hmin)].
        -- left; split; [exact Heq|].
           intros seg [<-|Hin] Hz; [exact El | auto].
        -- right; exists seg; repeat split; auto.
           intros other [<-|Ho] Hoz; [lra | auto].
Qed.

Lemma projectionDistance_distance (point : LanePoint)
    (segment : PV.PathSegment) :
  PV.projectionDistance point segment
  = LN.distance point (PV.projection point segment).
Proof. reflexivity. Qed.

Lemma snapIn_idempotent (paths : list PV.PathSegment) (point : LanePoint)
    (maxDistance : R) :
  PV.snapToNearestPathIn paths
    (PV.snapToNearestPathIn paths point maxDistance) maxDistance
  = PV.snapToNearestPathIn paths point maxDistance.
Proof.
  unfold PV.snapToNearestPathIn.
  destruct (snapLoop_nearest point paths point maxDistance)
    as [[Heq _]|(seg & Hin & Hz & Heq & Hlt & _)].
  - rewrite Heq. exact Heq.
  - rewrite Heq. set (q := PV.projection point seg).
    assert (Hq0 : PV.projectionDistance q seg = 0).
    { rewrite (projectionDistance_eq q seg Hz).
      apply projection_on_segment; exact Hz. }
    destruct (snapLoop_nearest q paths q maxDistance)
      as [[H _]|(seg' & Hin' & Hz' & H & _ & Hmin)]; [exact H|].
    rewrite H.
    specialize (Hmin seg Hin Hz). rewrite Hq0 in Hmin.
    assert (Hzero : PV.projectionDistance q seg' = 0).
    { apply Rle_antisym; [exact Hmin|].
      unfold PV.projectionDistance; apply sqrt_pos. }
    rewrite projectionDistance_distance in Hzero.
    symmetry; apply distance_zero_same; exact Hzero.
Qed.

(** X21: in exact arithmetic (numbers as real numbers, no rounding),
    [snapToNearestPath] either returns the point unchanged, and then
    every segment is at least [maxDistance] away, or it moves the point by
    less than [maxDistance] onto a segment, and then no segment is nearer to
    the point than the place it lands on; snapping the result once more with
    the same distance returns it unchanged. *)
Theorem snapToNearestPath_nearest_and_idempotent
    (point : LanePoint) (maxDistance : R) :
  ((PV.snapToNearestPath point maxDistance = point
    /\ forall segment,
         In segment PV.WAREHOUSE_PATHS ->
         maxDistance
         <= PV.distanceToLineSegment point (PV.seg_start segment)
              (PV.seg_end segment))
   \/ (LN.distance point (PV.snapToNearestPath point maxDistance)
       < maxDistance
       /\ PV.isOnValidPath (PV.snapToNearestPath point maxDistance) 0 = true
       /\ forall segment,
            In segment PV.WAREHOUSE_PATHS ->
            LN.distance point (PV.snapToNearestPath point maxDistance)
            <= PV.distanceToLineSegment point (PV.seg_start segment)
                 (PV.seg_end segment)))
  /\ PV.snapToNearestPath (PV.snapToNearestPath point maxDistance) maxDistance
     = PV.snapToNearestPath point maxDistance.
Proof.
  split; [|apply snapIn_idempotent].
  unfold PV.snapToNearestPath, PV.snapToNearestPathIn.
  destruct (snapLoop_nearest point PV.WAREHOUSE_PATHS point maxDistance)
    as [[Heq Hall]|(seg & Hin & Hz & Heq & Hlt & Hmin)].
  - left; split; [exact Heq|].
    intros segment Hs.
    rewrite <- (projectionDistance_eq point segment
                  (warehouse_paths_nonzero segment Hs)).
    apply Hall; [exact Hs | apply warehouse_paths_nonzero; exact Hs].
  - right. rewrite Heq, <- projectionDistance_distance.
    split; [exact Hlt|]. split.
    + unfold PV.isOnValidPath, PV.isOnValidPathIn. apply existsb_exists.
      exists seg; split; [exact Hin|].
      apply le_true. rewrite projection_on_segment by exact Hz. lra.
    + intros segment Hs.
      rewrite <- (projectionDistance_eq point segment
                    (warehouse_paths_nonzero segment Hs)).
      apply Hmin; [exact Hs | apply warehouse_paths_nonzero; exact Hs].
Qed.

(** ** Crossing segments *)

Lemma cramer (x1 y1 x2 y2 x3 y3 x4 y4 t u : R) :
  (x1 - x2) * (y3 - y4) - (y1 - y2) * (x3 - x4) <> 0 ->
  x1 + t * (x2 - x1) = x3 + u * (x4 - x3) ->
  y1 + t * (y2 - y1) = y3 + u * (y4 - y3) ->
  ((x1 - x3) * (y3 - y4) - (y1 - y3) * (x3 - x4))
  / ((x1 - x2) * (y3 - y4) - (y1 - y2) * (x3 - x4)) = t
  /\ - ((x1 - x2) * (y1 - y3) - (y1 - y2) * (x1 - x3))
     / ((x1 - x2) * (y3 - y4) - (y1 - y2) * (x3 - x4)) = u.
Proof.
  intros Hd Hx Hy.
  assert (Ex : x1 - x3 = u * (x4 - x3) - t * (x2 - x1)) by lra.
  assert (Ey : y1 - y3 = u * (y4 - y3) - t * (y2 - y1)) by lra.
  rewrite Ex, Ey. split; field; exact Hd.
Qed.

Lemma tiny_positive : 0 < 1 / 10 ^ 10.
Proof. apply Rdiv_lt_0_compat; [lra | apply pow_lt; lra]. Qed.

Lemma not_tiny_nonzero (d : R) : 1 / 10 ^ 10 <= Rabs d -> d <> 0.
Proof.
  intros H Hd. rewrite Hd, Rabs_R0 in H.
  pose proof tiny_positive. lra.
Qed.

(** X22: [getLineIntersection] returns a point exactly when the two segments
    are not (nearly) parallel and cross: a point it returns lies on both
    segments; conversely, when the cross product of the directions is at
    least 1e-10 in absolute value and the segments have a common point, it
    returns that point; and it returns null when the cross product is
    smaller. *)
Theorem getLineIntersection_crossing (seg1 seg2 : PV.PathSegment) :
  (forall q,
      PV.getLineIntersection seg1 seg2 = Some q ->
      exists t u,
        0 <= t <= 1 /\ 0 <= u <= 1
        /\ q = LN.pointAt (PV.seg_start seg1) (PV.seg_end seg1) t
        /\ q = LN.pointAt (PV.seg_start seg2) (PV.seg_end seg2) u)
  /\ (1 / 10 ^ 10 <= Rabs (directionCross seg1 seg2) ->
      forall t u,
        0 <= t <= 1 -> 0 <= u <= 1 ->
        LN.pointAt (PV.seg_start seg1) (PV.seg_end seg1) t
        = LN.pointAt (PV.seg_start seg2) (PV.seg_end seg2) u ->
        PV.getLineIntersection seg1 seg2
        = Some (LN.pointAt (PV.seg_start seg1) (PV.seg_end seg1) t))
  /\ (Rabs (directionCross seg1 seg2) < 1 / 10 ^ 10 ->
      PV.getLineIntersection seg1 seg2 = None).
Proof.
  unfold directionCross, PV.getLineIntersection; cbv zeta.
  set (x1 := px (PV.seg_start seg1)). set (y1 := py (PV.seg_start seg1)).
  set (x2 := px (PV.seg_end seg1)). set (y2 := py (PV.seg_end seg1)).
  set (x3 := px (PV.seg_start seg2)). set (y3 := py (PV.seg_start seg2)).
  set (x4 := px (PV.seg_end seg2)). set (y4 := py (PV.seg_end seg2)).
  set (denom := (x1 - x2) * (y3 - y4) - (y1 - y2) * (x3 - x4)).
  split; [|split].
  - intros q.
    destruct (JS.lt (Rabs denom) (1 / 10 ^ 10)) eqn:Hd; [discriminate|].
    apply lt_false in Hd. apply not_tiny_nonzero in Hd.
    set (t := ((x1 - x3) * (y3 - y4) - (y1 - y3) * (x3 - x4)) / denom).
    set (u := - ((x1 - x2) * (y1 - y3) - (y1 - y2) * (x1 - x3)) / denom).
    destruct (JS.ge t 0 && JS.le t 1 && JS.ge u 0 && JS.le u 1) eqn:Hc;
      [|discriminate].
    rewrite !andb_true_iff, !ge_true, !le_true in Hc.
    intros [= <-]. exists t, u.
    split; [lra|]. split; [lra|]. split; [reflexivity|].
    unfold LN.pointAt. fold x3 y3 x4 y4.
    unfold t, u, denom in *. f_equal; field; exact Hd.
  - intros Hd t u Ht Hu Heq.
    rewrite (proj2 (lt_false _ _) Hd).
    apply not_tiny_nonzero in Hd.
    unfold LN.pointAt in Heq. fold x1 y1 x2 y2 x3 y3 x4 y4 in Heq.
    injection Heq as Hx Hy.
    destruct (cramer x1 y1 x2 y2 x3 y3 x4 y4 t u Hd Hx Hy) as [Et Eu].
    fold denom in Et, Eu. rewrite Et, Eu.
    rewrite (proj2 (ge_true _ _)), (proj2 (le_true _ _)) by lra.
    rewrite (proj2 (ge_true _ _)), (proj2 (le_true _ _)) by lra.
    reflexivity.
  - intros Hd. rewrite (proj2 (lt_true _ _) Hd). reflexivity.
Qed.

(** ** The nodes of the path network *)

Lemma nodeNear_spec (nodes : list LanePoint) (q : LanePoint) :
  PV.nodeNear nodes q = true <-> covered nodes q.
Proof.
  unfold PV.nodeNear, covered, nearNode. rewrite existsb_exists.
  split; intros (p & Hin & H); exists p; split; try exact Hin.
  - rewrite andb_true_iff, !lt_true in H; exact H.
  - rewrite andb_true_iff, !lt_true; exact H.
Qed.

Lemma nearNode_refl (q : LanePoint) : nearNode q q.
Proof.
  unfold nearNode, Rminus. rewrite !Rplus_opp_r, Rabs_R0. lra.
Qed.

Lemma pushNew_incl (nodes : list LanePoint) (q p : LanePoint) :
  In p nodes -> In p (PV.pushNew nodes q).
Proof.
  unfold PV.pushNew; destruct (PV.nodeNear nodes q); [auto|].
  intros H; apply in_or_app; left; exact H.
Qed.

Lemma pushNew_origin (nodes : list LanePoint) (q p : LanePoint) :
  In p (PV.pushNew nodes q) -> In p nodes \/ p = q.
Proof.
  unfold PV.pushNew; destruct (PV.nodeNear nodes q); [auto|].
  intros H; apply in_app_or in H. destruct H as [H|[H|[]]]; auto.
Qed.

Lemma pushNew_covers (nodes : list LanePoint) (q : LanePoint) :
  covered (PV.pushNew nodes q) q.
Proof.
  unfold PV.pushNew. destruct (PV.nodeNear nodes q) eqn:E.
  - apply nodeNear_spec; exact E.
  - exists q; split; [apply in_or_app; right; left; reflexivity|].
    apply nearNode_refl.
Qed.

Lemma pushNew_separated (nodes : list LanePoint) (q : LanePoint) :
  separated nodes -> separated (PV.pushNew nodes q).
Proof.
  intros Hsep. unfold PV.pushNew. destruct (PV.nodeNear nodes q) eqn:E;
    [exact Hsep|].
  intros i j p p' Hij Hi Hj Hnear.
  apply nth_error_snoc_cases in Hj. destruct Hj as [[Hlt Hj]|[-> ->]].
  - rewrite nth_error_app1 in Hi by lia.
    apply (Hsep i j p p' Hij Hi Hj Hnear).
  - rewrite nth_error_app1 in Hi by lia.
    assert (Hcov : PV.nodeNear nodes q = true).
    { apply nodeNear_spec. exists p; split; [|exact Hnear].
      apply (nth_error_In _ _ Hi). }
    congruence.
Qed.

Lemma covered_incl (nodes nodes' : list LanePoint) (q : LanePoint) :
  (forall p, In p nodes -> In p nodes') ->
  covered nodes q -> covered nodes' q.
Proof. intros Hincl (p & Hin & H); exists p; auto. Qed.

Section NodeFacts.
Variable all : list PV.PathSegment.

Lemma crossingsWith_facts (seg1 : PV.PathSegment) :
  forall later nodes,
    let nodes' := PV.crossingsWith seg1 later nodes in
    (separated nodes -> separated nodes')
    /\ (forall p, In p nodes -> In p nodes')
    /\ (forall seg2 q,
          In seg2 later -> PV.getLineIntersection seg1 seg2 = Some q ->
          covered nodes' q)
    /\ (In seg1 all -> (forall s, In s later -> In s all) ->
        (forall p, In p nodes -> nodeOrigin all p) ->
        forall p, In p nodes' -> nodeOrigin all p).
Proof.
  unfold PV.crossingsWith.
  induction later as [|seg2 later IH]; intros nodes; simpl.
  - repeat split; auto. intros seg2 q [].
  - set (next := match PV.getLineIntersection seg1 seg2 with
                 | Some intersection => PV.pushNew nodes intersection
                 | None => nodes
                 end).
    destruct (IH next) as (IHsep & IHincl & IHcov & IHorig).
    assert (Hincl : forall p, In p nodes -> In p next).
    { intros p Hp; unfold next.
      destruct (PV.getLineIntersection seg1 seg2);
        [apply pushNew_incl|]; exact Hp. }
    split; [|split; [|split]].
    + intros Hsep. apply IHsep. unfold next.
      destruct (PV.getLineIntersection seg1 seg2);
        [apply pushNew_separated|]; exact Hsep.
    + intros p Hp. apply IHincl, Hincl, Hp.
    + intros s q [<-|Hs] Hq.
      * apply (covered_incl next); [exact IHincl|].
        unfold next; rewrite Hq. apply pushNew_covers.
      * apply (IHcov s q Hs Hq).
    + intros H1 Hlater Horig. apply IHorig; [exact H1 | auto|].
      intros p Hp. unfold next in Hp.
      destruct (PV.getLineIntersection seg1 seg2) as [q|] eqn:Hq;
        [|apply Horig; exact Hp].
      apply pushNew_origin in Hp. destruct Hp as [Hp| ->];
        [apply Horig; exact Hp|].
      right. exists seg1, seg2. split; [exact H1|].
      split; [apply Hlater; left; reflexivity | exact Hq].
Qed.

Lemma crossings_facts :
  forall paths nodes,
    let nodes' := PV.crossings paths nodes in
    (separated nodes -> separated nodes')
    /\ (forall p, In p nodes -> In p nodes')
    /\ (forall i j seg1 seg2 q,
          (i < j)%nat ->
          nth_error paths i = Some seg1 -> nth_error paths j = Some seg2 ->
          PV.getLineIntersection seg1 seg2 = Some q ->
          covered nodes' q)
    /\ ((forall s, In s paths -> In s all) ->
        (forall p, In p nodes -> nodeOrigin all p) ->
        forall p, In p nodes' -> nodeOrigin all p).
Proof.
  induction paths as [|seg1 later IH]; intros nodes; simpl.
  - repeat split; auto. intros i j s1 s2 q _ H; destruct i; discriminate.
  - destruct (crossingsWith_facts seg1 later nodes)
      as (Wsep & Wincl & Wcov & Worig).
    destruct (IH (PV.crossingsWith seg1 later nodes))
      as (IHsep & IHincl & IHcov & IHorig).
    split; [|split; [|split]].
    + intros Hsep; apply IHsep, Wsep, Hsep.
    + intros p Hp; apply IHincl, Wincl, Hp.
    + intros i j s1 s2 q Hij Hi Hj Hq.
      destruct j as [|j]; [lia|]. simpl in Hj.
      destruct i as [|i]; simpl in Hi.
      * injection Hi as <-.
        apply (covered_incl (PV.crossingsWith seg1 later nodes));
          [exact IHincl|].
        apply (Wcov s2 q); [apply (nth_error_In _ _ Hj) | exact Hq].
      * apply (IHcov i j s1 s2 q); [lia | assumption..].
    + intros Hpaths Horig. apply IHorig.
      * intros s Hs; apply Hpaths; right; exact Hs.
      * apply Worig; [apply Hpaths; left; reflexivity| |exact Horig].
        intros s Hs; apply Hpaths; right; exact Hs.
Qed.

Lemma addEndpoints_facts :
  forall paths nodes,
    let nodes' := PV.addEndpoints paths nodes in
    (separated nodes -> separated nodes')
    /\ (forall p, In p nodes -> In p nodes')
    /\ (forall segment,
          In segment paths ->
          covered nodes' (PV.seg_start segment)
          /\ covered nodes' (PV.seg_end segment))
    /\ ((forall s, In s paths -> In s all) ->
        (forall p, In p nodes -> nodeOrigin all p) ->
        forall p, In p nodes' -> nodeOrigin all p).
Proof.
  unfold PV.addEndpoints.
  induction paths as [|segment rest IH]; intros nodes; simpl.
  - repeat split; auto; contradiction.
  - set (next := PV.pushNew (PV.pushNew nodes (PV.seg_start segment))
                   (PV.seg_end segment)).
    destruct (IH next) as (IHsep & IHincl & IHcov & IHorig).
    split; [|split; [|split]].
    + intros Hsep. apply IHsep. unfold next.
      apply pushNew_separated, pushNew_separated, Hsep.
    + intros p Hp. apply IHincl. unfold next.
      apply pushNew_incl, pushNew_incl, Hp.
    + intros s [<-|Hs]; [|apply IHcov; exact Hs]. split.
      * apply (covered_incl next); [exact IHincl|]. unfold next.
        apply (covered_incl (PV.pushNew nodes (PV.seg_start segment)));
          [intros p Hp; apply pushNew_incl; exact Hp | apply pushNew_covers].
      * apply (covered_incl next); [exact IHincl|]. unfold next.
        apply pushNew_covers.
    + intros Hpaths Horig. apply IHorig.
      * intros s Hs; apply Hpaths; right; exact Hs.
      * intros p Hp. unfold next in Hp.
        assert (Hseg : In segment all) by (apply Hpaths; left; reflexivity).
        apply pushNew_origin in Hp. destruct Hp as [Hp| ->].
        -- apply pushNew_origin in Hp. destruct Hp as [Hp| ->].
           ++ apply Horig; exact Hp.
           ++ left; exists segment; auto.
        -- left; exists segment; auto.
Qed.

End NodeFacts.

(** X23: the nodes that [getPathIntersections] returns are pairwise apart
    (no two of them are within 0.1 of each other on both axes); every
    endpoint of a path segment and every crossing of two path segments is
    within 0.1, on both axes, of one of the nodes; and every node is an
    endpoint of a path segment or the crossing of two path segments. *)
Theorem getPathIntersections_nodes :
  separated PV.getPathIntersections
  /\ (forall segment,
        In segment PV.WAREHOUSE_PATHS ->
        covered PV.getPathIntersections (PV.seg_start segment)
        /\ covered PV.getPathIntersections (PV.seg_end segment))
  /\ (forall i j seg1 seg2 q,
        (i < j)%nat ->
        nth_error PV.WAREHOUSE_PATHS i = Some seg1 ->
        nth_error PV.WAREHOUSE_PATHS j = Some seg2 ->
        PV.getLineIntersection seg1 seg2 = Some q ->
        covered PV.getPathIntersections q)
  /\ (forall node,
        In node PV.getPathIntersections ->
        nodeOrigin PV.WAREHOUSE_PATHS node).
Proof.
  unfold PV.getPathIntersections, PV.getPathIntersectionsIn.
  destruct (crossings_facts PV.WAREHOUSE_PATHS PV.WAREHOUSE_PATHS [])
    as (Csep & _ & Ccov & Corig).
  destruct (addEndpoints_facts PV.WAREHOUSE_PATHS PV.WAREHOUSE_PATHS
              (PV.crossings PV.WAREHOUSE_PATHS []))
    as (Asep & Aincl & Acov & Aorig).
  split; [|split; [|split]].
  - apply Asep, Csep. intros i j p q _ Hi; destruct i; discriminate.
  - exact Acov.
  - intros i j seg1 seg2 q Hij Hi Hj Hq.
    apply (covered_incl (PV.crossings PV.WAREHOUSE_PATHS []));
      [exact Aincl|].
    apply (Ccov i j seg1 seg2 q Hij Hi Hj Hq).
  - apply Aorig; [auto|]. apply Corig; [auto|]. intros p [].
Qed.

(** ** Being on a path *)

Lemma isOnValidPathIn_spec (paths : list PV.PathSegment) (point : LanePoint)
    (tolerance : R) :
  PV.isOnValidPathIn paths point tolerance = true <->
  exists segment u,
    In segment paths /\ 0 <= u <= 1
    /\ LN.distance point
         (LN.pointAt (PV.seg_start segment) (PV.seg_end segment) u)
       <= tolerance.
Proof.
  unfold PV.isOnValidPathIn. rewrite existsb_exists. split.
  - intros (segment & Hin & Hle). apply le_true in Hle.
    destruct (distanceToLineSegment_attained point (PV.seg_start segment)
                (PV.seg_end segment)) as (u & Hu & Heq).
    exists segment, u. rewrite <- Heq. auto.
  - intros (segment & u & Hin & Hu & Hle).
    exists segment; split; [exact Hin|]. apply le_true.
    pose proof (distanceToLineSegment_minimal point (PV.seg_start segment)
                  (PV.seg_end segment) u Hu). lra.
Qed.

(** X24: in exact arithmetic (numbers as real numbers, no rounding),
    [isOnValidPath] accepts a point exactly when some point of some
    path segment lies within the tolerance of it; it therefore accepts
    nothing for a negative tolerance, and what it accepts for one tolerance
    it accepts for every larger one. *)
Theorem isOnValidPath_within_tolerance (point : LanePoint) (tolerance : R) :
  (PV.isOnValidPath point tolerance = true <->
   exists segment u,
     In segment PV.WAREHOUSE_PATHS /\ 0 <= u <= 1
     /\ LN.distance point
          (LN.pointAt (PV.seg_start segment) (PV.seg_end segment) u)
        <= tolerance)
  /\ (tolerance < 0 -> PV.isOnValidPath point tolerance = false)
  /\ (forall larger,
        tolerance <= larger -> PV.isOnValidPath point tolerance = true ->
        PV.isOnValidPath point larger = true).
Proof.
  unfold PV.isOnValidPath. split; [apply isOnValidPathIn_spec|]. split.
  - intros Hneg.
    destruct (PV.isOnValidPathIn PV.WAREHOUSE_PATHS point tolerance) eqn:E;
      [|reflexivity].
    apply isOnValidPathIn_spec in E.
    destruct E as (segment & u & _ & _ & Hle).
    assert (0 <= LN.distance point
                   (LN.pointAt (PV.seg_start segment) (PV.seg_end segment) u))
      by (unfold LN.distance; apply sqrt_pos).
    lra.
  - intros larger Hle H. apply isOnValidPathIn_spec in H.
    apply isOnValidPathIn_spec.
    destruct H as (segment & u & Hin & Hu & Hd).
    exists segment, u. repeat split; try assumption; try apply Hu. lra.
Qed.

Lemma distance_expand (p q : LanePoint) :
  sqrt ((px p - px q) ^ 2 + (py p - py q) ^ 2) = LN.distance p q.
Proof. reflexivity. Qed.

(** X25: [hasDirectPath] does not depend on the order of its two points,
    and [getValidNextPositions] returns, in the order of
    [getPathIntersections], exactly the nodes that are more than 0.1 and at
    most [maxDistance] away from the current point and have a direct path to
    it: never a node within 0.1 of the current point, nothing at all when
    [maxDistance] is at most 0.1, and no fewer nodes when [maxDistance]
    grows. *)
Theorem getValidNextPositions_reach (currentPoint : LanePoint)
    (maxDistance : R) :
  (forall a b, PV.hasDirectPath a b = PV.hasDirectPath b a)
  /\ (forall q,
        In q (PV.getValidNextPositions currentPoint maxDistance) <->
        In q PV.getPathIntersections
        /\ 0.1 < LN.distance q currentPoint <= maxDistance
        /\ PV.hasDirectPath q currentPoint = true)
  /\ (maxDistance <= 0.1 ->
      PV.getValidNextPositions currentPoint maxDistance = [])
  /\ (forall larger q,
        maxDistance <= larger ->
        In q (PV.getValidNextPositions currentPoint maxDistance) ->
        In q (PV.getValidNextPositions currentPoint larger)).
Proof.
  assert (Hsym : forall a b, PV.hasDirectPath a b = PV.hasDirectPath b a).
  { intros a b. unfold PV.hasDirectPath; cbv zeta.
    replace ((px a + px b) / 2) with ((px b + px a) / 2) by lra.
    replace ((py a + py b) / 2) with ((py b + py a) / 2) by lra.
    reflexivity. }
  assert (Hin : forall d q,
             In q (PV.getValidNextPositions currentPoint d) <->
             In q PV.getPathIntersections
             /\ 0.1 < LN.distance q currentPoint <= d
             /\ PV.hasDirectPath q currentPoint = true).
  { intros d q. unfold PV.getValidNextPositions.
    generalize PV.getPathIntersections; intros nodes.
    rewrite filter_In. cbv zeta. rewrite distance_expand.
    rewrite (Hsym currentPoint q).
    generalize (PV.hasDirectPath q currentPoint); intros direct.
    generalize (LN.distance q currentPoint); intros dist.
    rewrite !andb_true_iff, le_true, gt_true.
    split.
    - intros (H1 & (H2 & H3) & H4). repeat split; assumption.
    - intros (H1 & (H2 & H3) & H4). repeat split; assumption. }
  split; [exact Hsym|]. split; [exact (Hin maxDistance)|]. split.
  - intros Hsmall.
    assert (Hnone : forall q,
               ~ In q (PV.getValidNextPositions currentPoint maxDistance)).
    { intros q Hq.
      destruct (proj1 (Hin maxDistance q) Hq) as (_ & (Hlo & Hhi) & _).
      lra. }
    revert Hnone.
    generalize (PV.getValidNextPositions currentPoint maxDistance).
    intros [|q rest] Hnone; [reflexivity|].
    exfalso; apply (Hnone q); left; reflexivity.
  - intros larger q Hle Hq.
    destruct (proj1 (Hin maxDistance q) Hq) as (H1 & (Hlo & Hhi) & H4).
    apply (proj2 (Hin larger q)).
    split; [exact H1|]. split; [split; [exact Hlo | lra] | exact H4].
Qed.

(** * Positions stay on the lane *)

Lemma getPosition_onPolyline (lane : Lane) (q : JS.xnum) (pos : LanePoint) :
  (2 <= length (points lane))%nat ->
  LN.getPositionAtProgress lane q = Ok pos ->
  onPolyline (points lane) pos.
Proof.
  intros Hlen.
  assert (Hfirst : LN.firstPoint lane = nth_error (points lane) 0)
    by (unfold LN.firstPoint; apply (index_nat (points lane) 0)).
  assert (Hlast : LN.lastPoint lane
                  = nth_error (points lane) (length (points lane) - 1)).
  { unfold LN.lastPoint.
    replace (Z.of_nat (length (points lane)) - 1)%Z
      with (Z.of_nat (length (points lane) - 1)) by lia.
    apply index_nat. }
  destruct (nth_error (points lane) 0) as [p0|] eqn:E0.
  2:{ apply nth_error_None in E0; lia. }
  destruct (nth_error (points lane) 1) as [p1|] eqn:E1.
  2:{ apply nth_error_None in E1; lia. }
  destruct (nth_error (points lane) (length (points lane) - 2))
    as [pa|] eqn:Ea.
  2:{ apply nth_error_None in Ea; lia. }
  destruct (nth_error (points lane) (length (points lane) - 1))
    as [pz|] eqn:Ez.
  2:{ apply nth_error_None in Ez; lia. }
  assert (Hstart : onPolyline (points lane) p0).
  { exists 0%nat, p0, p1, 0. repeat split; try assumption; try lra.
    symmetry; apply pointAt_start. }
  assert (Hend : onPolyline (points lane) pz).
  { exists (length (points lane) - 2)%nat, pa, pz, 1.
    replace (S (length (points lane) - 2)) with (length (points lane) - 1)%nat
      by lia.
    repeat split; try assumption; try lra.
    symmetry; apply pointAt_end. }
  unfold LN.getPositionAtProgress. rewrite Hfirst, Hlast.
  destruct (JS.xle q 0); [intros [= <-]; exact Hstart|].
  destruct (JS.xge q 1); [intros [= <-]; exact Hend|].
  destruct q as [r| | |]; cbn [LN.segmentIndexAt];
    try (intros [= <-]; exact Hend).
  set (x := r * (INR (length (points lane)) - 1)).
  destruct (_ >=? _)%Z; [intros [= <-]; exact Hend|].
  destruct (JS.index (points lane) (JS.floor x)) as [start|] eqn:Es;
    [|intros [= <-]; exact Hend].
  destruct (JS.index (points lane) (JS.floor x + 1)) as [end_|] eqn:Ee;
    [|intros [= <-]; exact Hend].
  intros [= <-].
  unfold JS.index in Es, Ee.
  destruct (Z.ltb_spec (JS.floor x) 0) as [Hneg|Hpos]; [discriminate|].
  destruct (Z.ltb_spec (JS.floor x + 1) 0) as [Hneg'|_]; [discriminate|].
  replace (JS.floor x + 1)%Z with (Z.succ (JS.floor x)) in Ee by lia.
  rewrite (Z2Nat.inj_succ _ Hpos) in Ee.
  exists (Z.to_nat (JS.floor x)), start, end_, (x - IZR (JS.floor x)).
  split; [exact Es|]. split; [exact Ee|]. split; [|reflexivity].
  unfold JS.floor. destruct (base_Int_part x) as [H1 H2]. lra.
Qed.

(** X26: for an entity on a lane of the network that has at least two
    points, [advanceAlongLane] does not throw and the position it returns
    lies on one of the segments of that lane, whatever the entity's speed
    and progress and the time step; the end of the lane is reported exactly
    when the progress capped at 1 is at least 1. *)
Theorem advanceAlongLane_stays_on_lane
    (net : LaneNetwork) (e : EntityState) (deltaTime : R) (cur : string)
    (lane : Lane) :
  currentLaneId e = Some cur ->
  LN.getLane net cur = Some lane ->
  (2 <= length (points lane))%nat ->
  exists adv,
    LN.advanceAlongLane net e deltaTime = Ok adv
    /\ onPolyline (points lane) (LN.position adv)
    /\ LN.reachedEnd adv
       = JS.xge (JS.xmin 1 (LN.advancedProgress lane e deltaTime)) 1.
Proof.
  intros Hc Hl Hlen. unfold LN.advanceAlongLane. rewrite Hc, Hl.
  assert (Hne : points lane <> [])
    by (intros H; rewrite H in Hlen; simpl in Hlen; lia).
  destruct (getPositionAtProgress_total lane
              (JS.xmin 1 (LN.advancedProgress lane e deltaTime)) Hne)
    as (pos & Hpos).
  rewrite Hpos. eexists; split; [reflexivity|].
  cbn [LN.position LN.reachedEnd]. split; [|reflexivity].
  apply (getPosition_onPolyline lane _ pos Hlen Hpos).
Qed.

Lemma advanceAlongLane_stays_on_lane_witness :
  currentLaneId shortWalker = Some "S"
  /\ LN.getLane shortNet "S" = Some shortLane
  /\ (2 <= length (points shortLane))%nat
  /\ exists adv,
       LN.advanceAlongLane shortNet shortWalker 0.1 = Ok adv
       /\ onPolyline (points shortLane) (LN.position adv)
       /\ LN.reachedEnd adv
          = JS.xge (JS.xmin 1 (LN.advancedProgress shortLane shortWalker 0.1))
              1.
Proof.
  assert (H1 : currentLaneId shortWalker = Some "S") by reflexivity.
  assert (H2 : LN.getLane shortNet "S" = Some shortLane) by reflexivity.
  assert (H3 : (2 <= length (points shortLane))%nat) by (simpl; lia).
  split; [exact H1|]. split; [exact H2|]. split; [exact H3|].
  exact (advanceAlongLane_stays_on_lane shortNet shortWalker 0.1 "S"
           shortLane H1 H2 H3).
Defined.

(** * Turning *)

(** X27: when the target angle is at most 540 degrees away, [lerpAngle]
    turns the short way round: the result is [a] moved by the fraction [t]
    of a difference that equals [b - a] up to a full turn and is at most 180
    degrees in absolute value, so the heading changes by at most [180 * t]
    degrees. *)
Theorem lerpAngle_short_way (a b t : R) :
  -540 <= b - a <= 540 -> 0 <= t ->
  (exists diff,
      WS.lerpAngle a b t = a + diff * t
      /\ -180 <= diff <= 180
      /\ (diff = b - a \/ diff = b - a - 360 \/ diff = b - a + 360))
  /\ Rabs (WS.lerpAngle a b t - a) <= 180 * t.
Proof.
  intros Hab Ht.
  assert (Hdiff : exists diff,
             WS.lerpAngle a b t = a + diff * t
             /\ -180 <= diff <= 180
             /\ (diff = b - a \/ diff = b - a - 360 \/ diff = b - a + 360)).
  { unfold WS.lerpAngle; cbv zeta.
    destruct (JS.gt (b - a) 180) eqn:H1;
      [apply gt_true in H1 | apply gt_false in H1].
    - destruct (JS.lt (b - a - 360) (-180)) eqn:H2;
        [apply lt_true in H2; lra | apply lt_false in H2].
      exists (b - a - 360). split; [reflexivity|]. split; [lra|].
      right; left; reflexivity.
    - destruct (JS.lt (b - a) (-180)) eqn:H2;
        [apply lt_true in H2 | apply lt_false in H2].
      + exists (b - a + 360). split; [reflexivity|]. split; [lra|].
        right; right; reflexivity.
      + exists (b - a). split; [reflexivity|]. split; [lra|].
        left; reflexivity. }
  split; [exact Hdiff|].
  destruct Hdiff as (diff & -> & Hd & _).
  replace (a + diff * t - a) with (diff * t) by ring.
  apply Rabs_le. split; nra.
Qed.

Lemma lerpAngle_short_way_witness :
  -540 <= -170 - 170 <= 540 /\ 0 <= 0.1
  /\ (exists diff,
         WS.lerpAngle 170 (-170) 0.1 = 170 + diff * 0.1
         /\ -180 <= diff <= 180
         /\ (diff = -170 - 170 \/ diff = -170 - 170 - 360
             \/ diff = -170 - 170 + 360))
  /\ Rabs (WS.lerpAngle 170 (-170) 0.1 - 170) <= 180 * 0.1.
Proof.
  assert (H1 : -540 <= -170 - 170 <= 540) by lra.
  assert (H2 : 0 <= 0.1) by lra.
  split; [exact H1|]. split; [exact H2|].
  exact (lerpAngle_short_way 170 (-170) 0.1 H1 H2).
Defined.

(** * Connected grid points *)

(** X28: every point that [findConnectedPoints] returns is one of the grid
    positions, differs from the given point, and shares a line with it (it
    is within 0.1 of it on one of the two axes); nothing is returned for a
    missing point or for a point that is on none of the horizontal and
    vertical lines. *)
Theorem findConnectedPoints_share_a_line
    (point : LanePoint) (gridPositions : list LanePoint) :
  (forall q,
      In q (WS.findConnectedPoints (Some point) gridPositions) ->
      In q gridPositions /\ q <> point
      /\ (Rabs (py q - py point) < 0.1 \/ Rabs (px q - px point) < 0.1))
  /\ (WS.onSomeLine WS.horizontalLines (py point) = false ->
      WS.onSomeLine WS.verticalLines (px point) = false ->
      WS.findConnectedPoints (Some point) gridPositions = [])
  /\ WS.findConnectedPoints None gridPositions = [].
Proof.
  split; [|split; [|reflexivity]].
  - intros q. unfold WS.findConnectedPoints.
    destruct (WS.onSomeLine WS.horizontalLines (py point));
      [|destruct (WS.onSomeLine WS.verticalLines (px point));
        [|intros []]];
      rewrite in_flat_map; intros (gridPoint & Hin & Hq);
      apply in_app_or in Hq;
      destruct Hq as [Hq|Hq];
      match type of Hq with
      | In _ (if ?c then _ else _) =>
          destruct c eqn:Hc; [|contradiction]
      end;
      destruct Hq as [<-|[]];
      rewrite !andb_true_iff in Hc;
      repeat match goal with
             | H : _ /\ _ |- _ => destruct H
             | H : JS.lt _ _ = true |- _ => apply lt_true in H
             | H : negb _ = true |- _ =>
                 apply Bool.negb_true_iff, eq_false in H
             end;
      (split; [exact Hin|]); (split; [intros ->; auto|]); auto.
  - intros H1 H2. unfold WS.findConnectedPoints. rewrite H1, H2. reflexivity.
Qed.

(** ** The lane update, case by case *)

Section LaneUpdateFacts.
Variable config : SimulatorConfig.
Variable net : LaneNetwork.

(** The lane a transition moves to is the one chosen as the code describes
    it. *)
Lemma transition_choice (e : EntityState) (g : Rng) (cur : string) :
  JS.truthy (currentLaneId e) = Some cur ->
  exists next,
    currentLaneId (fst (WS.transitionToNextLane config net e g)) = Some next
    /\ chosenNext net e g cur next.
Proof.
  intros Ht; unfold WS.transitionToNextLane; rewrite Ht.
  unfold chosenNext, plannedLane, stepped, routeGoesOn.
  set (tail := fun st : EntityState * string =>
         let '(e3, next) := st in
         r <- random ;;
         (if JS.lt r 0.3
          then v <- WS.randomSpeed
                      (WS.speedRangeOf config
                         (e_type (WS.setLaneProgress
                                    (WS.setCurrentLaneId e3 (Some next)) 0))) ;;
               ret (WS.setTargetSpeed
                      (WS.setLaneProgress
                         (WS.setCurrentLaneId e3 (Some next)) 0) v)
          else ret (WS.setLaneProgress
                      (WS.setCurrentLaneId e3 (Some next)) 0))).
  assert (Htail : forall e3 next g0,
             currentLaneId (fst (tail (e3, next) g0)) = Some next).
  { intros e3 next g0. unfold tail. rewrite bind_eval.
    destruct (JS.lt _ 0.3); [rewrite bind_eval|]; reflexivity. }
  set (e1 := if (Z.of_nat (routeIndex e) <? Z.of_nat (length (route e)) - 1)%Z
             then WS.setRouteIndex e (routeIndex e + 1) else e).
  set (planned := if (Z.of_nat (routeIndex e)
                      <? Z.of_nat (length (route e)) - 1)%Z
                  then JS.truthy (nth_error (route e) (routeIndex e + 1))
                  else None).
  assert (Hsplit :
    (if (Z.of_nat (routeIndex e) <? Z.of_nat (length (route e)) - 1)%Z
     then (WS.setRouteIndex e (routeIndex e + 1),
           JS.truthy
             (nth_error (route (WS.setRouteIndex e (routeIndex e + 1)))
                (routeIndex (WS.setRouteIndex e (routeIndex e + 1)))))
     else (e, None)) = (e1, planned)).
  { unfold e1, planned. destruct (_ <? _)%Z; reflexivity. }
  assert (Hfilled : forall n, planned = Some n -> JS.truthy (Some n) = Some n).
  { intros n; unfold planned. destruct (_ <? _)%Z; [|discriminate].
    intros H; apply truthy_Some in H. apply truthy_nonempty, H. }
  rewrite Hsplit. clearbody e1 planned. clear Hsplit.
  rewrite bind_eval.
  set (answer := match planned with
                 | Some n =>
                     if WS.laneExists net n then ret (Some n)
                     else LN.chooseNextLane (WS.conns net) cur e1
                 | None => LN.chooseNextLane (WS.conns net) cur e1
                 end).
  rewrite bind_eval.
  set (st := match JS.truthy (fst (answer g)) with
             | Some n => ret (e1, n)
             | None =>
                 newRoute <- LN.generateRandomRoute (WS.conns net) cur 5 ;;
                 ret (WS.setRouteIndex (WS.setRoute e1 newRoute) 0,
                      match JS.truthy (nth_error newRoute 1) with
                      | Some n => n
                      | None => cur
                      end)
             end).
  destruct (fst (st (snd (answer g)))) as [e3 next] eqn:Est.
  exists next. split; [exact (Htail e3 next _)|].
  assert (Hasked :
    answer = LN.chooseNextLane (WS.conns net) cur e1 ->
    JS.truthy (fst (LN.chooseNextLane (WS.conns net) cur e1 g)) = Some next
    \/ (JS.truthy (fst (LN.chooseNextLane (WS.conns net) cur e1 g)) = None
        /\ next
           = match
               JS.truthy
                 (nth_error
                    (fst (LN.generateRandomRoute (WS.conns net) cur 5
                            (snd (LN.chooseNextLane (WS.conns net) cur e1
                                    g)))) 1)
             with
             | Some n => n
             | None => cur
             end)).
  { intros Ha. unfold st in Est. rewrite Ha in Est.
    destruct (JS.truthy (fst (LN.chooseNextLane (WS.conns net) cur e1 g)))
      as [n|].
    - left. cbn [ret fst] in Est. congruence.
    - right. split; [reflexivity|].
      rewrite bind_eval in Est. cbn [ret fst] in Est. congruence. }
  destruct planned as [n|].
  - unfold WS.laneExists in answer.
    destruct (LN.getLane net n) as [lane|] eqn:Hlane.
    + left. unfold st, answer in Est. cbn [ret fst snd] in Est.
      rewrite (Hfilled n eq_refl) in Est. cbn [ret fst] in Est.
      injection Est as _ <-.
      split; [reflexivity | exists lane; exact Hlane].
    + right. split; [intros n0 [= <-]; exact Hlane|].
      apply Hasked; reflexivity.
  - right. split; [discriminate|]. apply Hasked; reflexivity.
Qed.

(** What [updateLaneBasedMovement] returns once [advanceAlongLane] has
    returned. *)
Lemma updateLane_outcome (e : EntityState) (deltaTime : R) (g : Rng)
    (cur : string) (adv : LN.Advancement) :
  JS.truthy (currentLaneId e) = Some cur ->
  LN.advanceAlongLane net e deltaTime = Ok adv ->
  if LN.reachedEnd adv || JS.ge (WS.storedProgress net e deltaTime) 1
  then exists v,
         fst (WS.updateLaneBasedMovement config net e deltaTime g)
         = Ok (WS.setSpeed
                 (fst (WS.transitionToNextLane config net
                         (advancedEntity net e deltaTime adv) g)) v)
  else fst (WS.updateLaneBasedMovement config net e deltaTime g)
       = Ok (WS.setSpeed (advancedEntity net e deltaTime adv)
               (WS.lerp (speed e) (targetSpeed e + (g 0%nat - 0.5) * 0.2)
                  0.1)).
Proof.
  intros Ht Hadv; unfold WS.updateLaneBasedMovement, JS.is_truthy.
  rewrite Ht, Hadv; cbn [negb].
  rewrite storedProgress_moved.
  change (WS.setLaneProgress _ (WS.storedProgress net e deltaTime))
    with (advancedEntity net e deltaTime adv).
  assert (Htrig : WS.transitionTriggered adv
                    (advancedEntity net e deltaTime adv)
                  = LN.reachedEnd adv
                    || JS.ge (WS.storedProgress net e deltaTime) 1)
    by reflexivity.
  rewrite Htrig.
  destruct (LN.reachedEnd adv || JS.ge (WS.storedProgress net e deltaTime) 1).
  - rewrite !bind_eval. eexists; reflexivity.
  - rewrite !bind_eval. reflexivity.
Qed.

(** Without a lane of the network that has points there is nothing to
    advance on. *)
Lemma updateLane_no_lane (e : EntityState) (deltaTime : R) (g : Rng)
    (cur : string) :
  JS.truthy (currentLaneId e) = Some cur ->
  (LN.getLane net cur = None
   \/ exists lane, LN.getLane net cur = Some lane /\ points lane = []) ->
  exists msg,
    WS.updateLaneBasedMovement config net e deltaTime g = (Err msg, g).
Proof.
  intros Ht Hbad; unfold WS.updateLaneBasedMovement, JS.is_truthy.
  rewrite Ht; cbn [negb].
  destruct (truthy_Some _ _ Ht) as [Hcur _].
  unfold LN.advanceAlongLane; rewrite Hcur.
  destruct Hbad as [Hnone|(lane & Hlane & Hnil)].
  - rewrite Hnone. eexists; reflexivity.
  - rewrite Hlane. unfold LN.getPositionAtProgress, LN.firstPoint.
    rewrite Hnil. eexists; reflexivity.
Qed.

End LaneUpdateFacts.

(** C1, as the code has it: the lane update leaves an entity without a
    current lane as it is and throws for an entity whose lane the network
    lacks or has without points; for an entity on a lane of the network that
    has points it advances the entity and leaves its progress below 1; the
    transition is taken exactly when the navigator reports the end of the
    lane or the stored progress (advanced over the lane length floored at 1)
    reaches 1, and it resets the progress to 0 and sets the current lane to
    the lane chosen next (the next lane of the planned route when the network
    has it, else the navigator's choice, else the second lane of a newly
    generated route, or the current lane again); otherwise the stored
    progress and the current lane stay; on lanes at least one unit long the
    transition is taken exactly when the advanced progress reaches 1.
    [updateEntity] passes progress and lane on unchanged. *)
Theorem lane_progress_after_update
    (config : SimulatorConfig) (net : LaneNetwork) (now : R)
    (e : EntityState) (deltaTime : R) (g : Rng) :
  (JS.truthy (currentLaneId e) = None ->
   WS.updateLaneBasedMovement config net e deltaTime g = (Ok e, g))
  /\ (forall cur,
        JS.truthy (currentLaneId e) = Some cur ->
        (LN.getLane net cur = None
         \/ exists lane, LN.getLane net cur = Some lane /\ points lane = []) ->
        exists msg,
          WS.updateLaneBasedMovement config net e deltaTime g = (Err msg, g))
  /\ (forall cur lane,
        JS.truthy (currentLaneId e) = Some cur ->
        LN.getLane net cur = Some lane ->
        points lane <> [] ->
        let stored := WS.storedProgress net e deltaTime in
        exists adv e',
          LN.advanceAlongLane net e deltaTime = Ok adv
          /\ LN.reachedEnd adv
             = JS.xge (JS.xmin 1 (LN.advancedProgress lane e deltaTime)) 1
          /\ stored
             = laneProgress e
               + speed e * deltaTime / WS.calculateLaneLength lane
          /\ fst (WS.updateLaneBasedMovement config net e deltaTime g) = Ok e'
          /\ laneProgress e' < 1
          /\ (LN.reachedEnd adv = true \/ 1 <= stored ->
              (exists v,
                  e' = WS.setSpeed
                         (fst (WS.transitionToNextLane config net
                                 (advancedEntity net e deltaTime adv) g)) v)
              /\ laneProgress e' = 0
              /\ exists next,
                   currentLaneId e' = Some next
                   /\ chosenNext net (advancedEntity net e deltaTime adv) g
                        cur next
                   /\ (In next (laneIds net) \/ next = cur))
          /\ (LN.reachedEnd adv = false -> stored < 1 ->
              e' = WS.setSpeed (advancedEntity net e deltaTime adv)
                     (WS.lerp (speed e)
                        (targetSpeed e + (g 0%nat - 0.5) * 0.2) 0.1)
              /\ laneProgress e' = stored
              /\ currentLaneId e' = currentLaneId e)
          /\ (1 <= LN.calculateLaneLength lane ->
              LN.advancedProgress lane e deltaTime = JS.XFin stored
              /\ LN.reachedEnd adv = JS.ge stored 1)
          /\ (e_type e <> forklift ->
              laneProgress
                (fst (WS.updateEntity config net now e deltaTime g))
              = laneProgress e'
              /\ currentLaneId
                   (fst (WS.updateEntity config net now e deltaTime g))
                 = currentLaneId e')).
Proof.
  split; [|split].
  - intros Ht. unfold WS.updateLaneBasedMovement, JS.is_truthy.
    rewrite Ht; reflexivity.
  - intros cur Ht Hbad.
    exact (updateLane_no_lane config net e deltaTime g cur Ht Hbad).
  - intros cur lane Ht Hlane Hne; cbv zeta.
    destruct (truthy_Some _ _ Ht) as [Hcur _].
    destruct (advanceAlongLane_total net e deltaTime cur lane Hcur Hlane Hne)
      as (pos & Hadv).
    set (adv := LN.mkAdvancement pos _ _) in Hadv.
    pose proof (updateLane_outcome config net e deltaTime g cur adv Ht Hadv)
      as Hout.
    pose proof (storedProgress_on net e deltaTime cur lane Hcur Hlane)
      as Hstored.
    set (stored := WS.storedProgress net e deltaTime) in *.
    set (moved := advancedEntity net e deltaTime adv) in *.
    assert (Hlong : 1 <= LN.calculateLaneLength lane ->
                    LN.advancedProgress lane e deltaTime = JS.XFin stored
                    /\ LN.reachedEnd adv = JS.ge stored 1).
    { intros Hlen.
      assert (Hadvanced : LN.advancedProgress lane e deltaTime
                          = JS.XFin stored).
      { rewrite advancedProgress_finite by lra.
        rewrite Hstored, (simulator_length_same lane Hlen). reflexivity. }
      split; [exact Hadvanced|].
      unfold adv; cbn [LN.reachedEnd]. rewrite Hadvanced.
      cbn [JS.xmin JS.xge]. apply ge_Rmin_one. }
    assert (Hwrap : forall e',
              fst (WS.updateLaneBasedMovement config net e deltaTime g)
              = Ok e' ->
              e_type e <> forklift ->
              laneProgress
                (fst (WS.updateEntity config net now e deltaTime g))
              = laneProgress e'
              /\ currentLaneId
                   (fst (WS.updateEntity config net now e deltaTime g))
                 = currentLaneId e').
    { intros e' He' Hty. rewrite updateEntity_lane by exact Hty.
      rewrite He'. split; reflexivity. }
    destruct (LN.reachedEnd adv || JS.ge stored 1) eqn:Etrig.
    + destruct Hout as [v Hv].
      destruct (transition_choice config net moved g cur Ht)
        as (next & Hnext & Hchosen).
      destruct (transition_spec config net moved g cur Ht)
        as ((next' & Hnext' & Hknown) & _).
      assert (Hsame : next' = next) by congruence. subst next'.
      eexists adv, _.
      split; [exact Hadv|]. split; [reflexivity|]. split; [exact Hstored|].
      split; [exact Hv|].
      assert (Hzero : laneProgress
                        (WS.setSpeed
                           (fst (WS.transitionToNextLane config net moved g))
                           v) = 0)
        by exact (transition_resets_progress config net moved g cur Ht).
      split; [rewrite Hzero; lra|].
      split; [|split; [|split; [exact Hlong | exact (Hwrap _ Hv)]]].
      * intros _. split; [exists v; reflexivity|].
        split; [exact Hzero|].
        exists next. split; [exact Hnext|]. split; assumption.
      * intros Hend Hlt. exfalso.
        apply orb_true_iff in Etrig. destruct Etrig as [E|E];
          [congruence|].
        apply ge_true in E. lra.
    + apply orb_false_elim in Etrig. destruct Etrig as [Eend Ege].
      apply ge_false in Ege.
      eexists adv, _.
      split; [exact Hadv|]. split; [reflexivity|]. split; [exact Hstored|].
      split; [exact Hout|].
      split; [exact Ege|].
      split; [|split; [|split; [exact Hlong | exact (Hwrap _ Hout)]]].
      * intros [E|E]; exfalso; [congruence | lra].
      * intros _ _. repeat split; reflexivity.
Qed.

Lemma lane_progress_after_update_witness :
  JS.truthy (currentLaneId shortWalker) = Some "S"
  /\ LN.getLane shortNet "S" = Some shortLane
  /\ points shortLane <> []
  /\ exists adv e',
       LN.advanceAlongLane shortNet shortWalker 0.1 = Ok adv
       /\ LN.reachedEnd adv = true
       /\ WS.storedProgress shortNet shortWalker 0.1 = 0.95
       /\ fst (WS.updateLaneBasedMovement scenarioConfig shortNet shortWalker
                 0.1 (fun _ => 0)) = Ok e'
       /\ laneProgress e' = 0
       /\ currentLaneId e' = Some "S".
Proof.
  assert (H1 : JS.truthy (currentLaneId shortWalker) = Some "S")
    by reflexivity.
  assert (H2 : LN.getLane shortNet "S" = Some shortLane) by reflexivity.
  assert (H3 : points shortLane <> []) by discriminate.
  split; [exact H1|]. split; [exact H2|]. split; [exact H3|].
  destruct (lane_progress_after_update scenarioConfig shortNet 0 shortWalker
              0.1 (fun _ => 0)) as (_ & _ & H).
  destruct (H "S" shortLane H1 H2 H3)
    as (adv & e' & Hadv & Hend & Hst & He' & _ & Htrig & _).
  assert (Hreached : LN.reachedEnd adv = true).
  { rewrite Hend.
    rewrite advancedProgress_finite by (rewrite shortLane_length; lra).
    rewrite shortLane_length.
    cbn [JS.xmin JS.xge]. rewrite ge_Rmin_one. apply ge_true.
    simpl; lra. }
  destruct (Htrig (or_introl Hreached))
    as (_ & Hzero & next & Hnext & _ & Hknown).
  exists adv, e'.
  split; [exact Hadv|]. split; [exact Hreached|].
  split; [rewrite Hst, shortLane_floored; simpl; lra|].
  split; [exact He'|]. split; [exact Hzero|].
  destruct Hknown as [[<- | []] | ->]; exact Hnext.
Defined.

(** ** Progress below 0 *)

(** An update that takes no transition, on a lane with points. *)
Lemma updateLane_quiet (config : SimulatorConfig) (net : LaneNetwork)
    (e : EntityState) (deltaTime : R) (g : Rng) (cur : string) (lane : Lane) :
  JS.truthy (currentLaneId e) = Some cur ->
  LN.getLane net cur = Some lane ->
  points lane <> [] ->
  LN.calculateLaneLength lane <> 0 ->
  laneProgress e + speed e * deltaTime / LN.calculateLaneLength lane < 1 ->
  laneProgress e + speed e * deltaTime / WS.calculateLaneLength lane < 1 ->
  exists adv,
    fst (WS.updateLaneBasedMovement config net e deltaTime g)
    = Ok (WS.setSpeed (advancedEntity net e deltaTime adv)
            (WS.lerp (speed e) (targetSpeed e + (g 0%nat - 0.5) * 0.2) 0.1))
    /\ WS.storedProgress net e deltaTime
       = laneProgress e + speed e * deltaTime / WS.calculateLaneLength lane.
Proof.
  intros Ht Hlane Hne Hlen Hnav Hsim.
  destruct (truthy_Some _ _ Ht) as [Hcur _].
  destruct (advanceAlongLane_total net e deltaTime cur lane Hcur Hlane Hne)
    as (pos & Hadv).
  set (adv := LN.mkAdvancement pos _ _) in Hadv.
  pose proof (updateLane_outcome config net e deltaTime g cur adv Ht Hadv)
    as Hout.
  pose proof (storedProgress_on net e deltaTime cur lane Hcur Hlane)
    as Hstored.
  assert (Etrig : LN.reachedEnd adv
                  || JS.ge (WS.storedProgress net e deltaTime) 1 = false).
  { apply orb_false_intro.
    - unfold adv; cbn [LN.reachedEnd].
      rewrite advancedProgress_finite by exact Hlen.
      cbn [JS.xmin JS.xge]. rewrite ge_Rmin_one. apply ge_false. exact Hnav.
    - apply ge_false. rewrite Hstored. exact Hsim. }
  rewrite Etrig in Hout.
  exists adv. split; [exact Hout | exact Hstored].
Qed.

(** The lower bound of the progress is not kept: the speed follows the
    target speed plus a jitter of down to -0.1 and has no floor, so an
    entity whose target speed the proximity check has halved often enough
    starts to move backwards. *)
Example lane_progress_below_zero :
  exists e1 e2,
    fst (WS.updateLaneBasedMovement scenarioConfig shortNet slowedWalker 0.1
           (fun _ => 0)) = Ok e1
    /\ laneProgress e1 = 0
    /\ speed e1 = -0.00625
    /\ fst (WS.updateLaneBasedMovement scenarioConfig shortNet e1 0.1
              (fun _ => 0)) = Ok e2
    /\ laneProgress e2 = -0.000625.
Proof.
  destruct (updateLane_quiet scenarioConfig shortNet slowedWalker 0.1
              (fun _ => 0) "S" shortLane) as (adv1 & He1 & Hst1);
    try reflexivity; try discriminate;
    try (rewrite shortLane_length; simpl; lra);
    try (rewrite shortLane_floored; simpl; lra).
  rewrite shortLane_floored in Hst1.
  set (e1 := WS.setSpeed (advancedEntity shortNet slowedWalker 0.1 adv1) _)
    in He1.
  assert (Hp1 : laneProgress e1 = 0).
  { change (laneProgress e1)
      with (WS.storedProgress shortNet slowedWalker 0.1).
    rewrite Hst1; simpl; lra. }
  assert (Hs1 : speed e1 = -0.00625).
  { unfold e1, WS.lerp; simpl; lra. }
  destruct (updateLane_quiet scenarioConfig shortNet e1 0.1
              (fun _ => 0) "S" shortLane) as (adv2 & He2 & Hst2);
    try reflexivity; try discriminate;
    try (rewrite shortLane_length; lra);
    try (rewrite shortLane_length, Hp1, Hs1; lra);
    try (rewrite shortLane_floored, Hp1, Hs1; lra).
  rewrite shortLane_floored, Hp1, Hs1 in Hst2.
  exists e1. eexists.
  split; [exact He1|]. split; [exact Hp1|]. split; [exact Hs1|].
  split; [exact He2|].
  change (WS.storedProgress shortNet e1 0.1 = -0.000625).
  rewrite Hst2; lra.
Qed.

(** ** Recovery that finds no lane to start on *)

Lemma zero_draw_first {A : Type} (a : A) (rest : list A) :
  fst (randomElement (a :: rest) (fun _ => 0)) = Some a.
Proof.
  unfold randomElement. rewrite bind_eval. cbn [random ret fst snd].
  replace (0 * INR (length (a :: rest))) with 0 by lra.
  rewrite (floor_unique 0 0%Z) by lra. reflexivity.
Qed.

(** On [hollowNet] the entity on the lane without points throws, the reset
    draws that lane again and leaves the entity where it was, at progress
    0.5; on the network without lanes there is no lane to be reset to. *)
Lemma reset_without_lane_start_counterexample :
  ~ errorsResetToLaneStart scenarioConfig hollowNet 0
  /\ ~ errorsResetToLaneStart scenarioConfig emptyNet 0.
Proof.
  split; intros H.
  - specialize (H hollowWalker 0.1 (fun _ => 0) "Invalid lane: H"
                  (fun _ => 0) zero_rng_ok eq_refl).
    assert (Hsame : fst (WS.updateEntity scenarioConfig hollowNet 0
                           hollowWalker 0.1 (fun _ => 0)) = hollowWalker).
    { unfold WS.updateEntity. rewrite bind_eval.
      change (WS.updateEntityBody scenarioConfig hollowNet 0 hollowWalker 0.1
                (fun _ => 0))
        with (@Err EntityState "Invalid lane: H", fun _ : nat => 0).
      cbn [fst snd]. unfold WS.resetEntityToValidLane.
      cbn [e_type hollowWalker]. rewrite bind_eval.
      unfold LN.getAllLanes, hollowNet; cbn [lanes].
      rewrite zero_draw_first. reflexivity. }
    rewrite Hsame in H.
    destruct H as (lane & p0 & _ & _ & _ & _ & _ & Hp & _).
    simpl in Hp. lra.
  - specialize (H strayWalker 0.1 (fun _ => 0) "Lane not found: Z"
                  (fun _ => 0) zero_rng_ok eq_refl).
    destruct H as (lane & p0 & [] & _).
Qed.
